(** * A two-layer fully connected classifier: forward pass, softmax loss, gradients

    Shallow embedding of [cs231n/classifiers/neural_net.py]
    ([init_two_layer_model] and [two_layer_net]).

    Python objects live in a store: every numpy array and every [dict] is an
    object with an identity (a location), variables hold locations, numpy
    functions allocate their result, and the in-place statements of the source
    ([-=], [/=], [+=], masked assignment, [d[k] = v]) overwrite the object at
    a location.  Floating-point numbers are idealised as real numbers. *)

From Stdlib Require Import Reals Lra Lia ZArith.
From stdpp Require Import base option list gmap strings.

Open Scope R_scope.

(** ** Arrays *)

(** A numpy array of rank 1 or 2: its shape and its entries.  Entries outside
    the shape are never read. *)
Inductive ndarray :=
| Vec (n : nat) (v : nat -> R)
| Mat (n m : nat) (a : nat -> nat -> R).

Definition loc := nat.

(** A heap object: an array, or a dictionary from keys to objects. *)
Inductive object :=
| Arr (a : ndarray)
| Dict (d : gmap string loc).

(** Python exceptions raised by the modelled operations.  [Unmodelled] is not
    a Python exception: it marks an input outside the domain of the model (a
    weight array that is not 2-dimensional, an object of the wrong kind, a
    location that holds nothing). *)
Inductive exn := KeyError | ValueError | IndexError | Unmodelled.

(** The store, and the tape of numbers the ambient random source will
    produce next. *)
Record state := State { heap : list object; tape : nat -> R }.

Inductive outcome (A : Type) :=
| Ok (a : A)
| Raise (e : exn).
Arguments Ok {A} a.
Arguments Raise {A} e.

(** ** The monad of stateful, fallible computations *)

Definition M (A : Type) : Type := state -> outcome A * state.

#[global] Instance M_ret : MRet M := fun A a s => (Ok a, s).
#[global] Instance M_bind : MBind M := fun A B f m s =>
  match m s with
  | (Ok a, s') => f a s'
  | (Raise e, s') => (Raise e, s')
  end.

Definition raise {A} (e : exn) : M A := fun s => (Raise e, s).

Definition alloc (o : object) : M loc := fun s =>
  (Ok (length (heap s)), State (heap s ++ [o]) (tape s)).

Definition load (l : loc) : M object := fun s =>
  match heap s !! l with
  | Some o => (Ok o, s)
  | None => (Raise Unmodelled, s)
  end.

Definition store (l : loc) (o : object) : M () := fun s =>
  (Ok (), State (<[l := o]> (heap s)) (tape s)).

(** [n] numbers from the random source. *)
Definition draw (n : nat) : M (nat -> R) := fun s =>
  (Ok (tape s), State (heap s) (fun k => tape s (n + k)%nat)).

Definition load_arr (l : loc) : M ndarray :=
  o ← load l;
  match o with
  | Arr a => mret a
  | Dict _ => raise Unmodelled
  end.

Definition load_dict (l : loc) : M (gmap string loc) :=
  o ← load l;
  match o with
  | Dict d => mret d
  | Arr _ => raise Unmodelled
  end.

Definition alloc_arr (a : ndarray) : M loc := alloc (Arr a).
Definition store_arr (l : loc) (a : ndarray) : M () := store l (Arr a).

(** ** Sums and elementwise operations *)

(** [rsum n f] is f 0 + ... + f (n-1). *)
Fixpoint rsum (n : nat) (f : nat -> R) : R :=
  match n with
  | O => 0
  | S k => rsum k f + f k
  end.

Definition amap (f : R -> R) (a : ndarray) : ndarray :=
  match a with
  | Vec n v => Vec n (fun i => f (v i))
  | Mat n m a => Mat n m (fun i j => f (a i j))
  end.

Definition asum (a : ndarray) : R :=
  match a with
  | Vec n v => rsum n v
  | Mat n m a => rsum n (fun i => rsum m (fun j => a i j))
  end.

Definition same_shape (a b : ndarray) : bool :=
  match a, b with
  | Vec n _, Vec n' _ => n =? n'
  | Mat n m _, Mat n' m' _ => (n =? n') && (m =? m')
  | _, _ => false
  end%nat.

(** numpy broadcasting of one dimension: equal extents, or one of them 1. *)
Definition bdim (a b : nat) : option nat :=
  if (a =? b)%nat then Some a
  else if (a =? 1)%nat then Some b
  else if (b =? 1)%nat then Some a
  else None.

(** The index read along a dimension of extent [d] after broadcasting. *)
Definition bidx (d i : nat) : nat := if (d =? 1)%nat then O else i.

(** A rank-1 array of length n broadcasts as a 1 x n matrix. *)
Definition as2d (a : ndarray) : nat * nat * (nat -> nat -> R) :=
  match a with
  | Vec n v => (1%nat, n, fun _ j => v j)
  | Mat n m a => (n, m, a)
  end.

Definition is_vec (a : ndarray) : bool :=
  match a with Vec _ _ => true | Mat _ _ _ => false end.

(** Elementwise binary operation with broadcasting; [None] when the shapes
    cannot be broadcast together. *)
Definition broadcast2 (op : R -> R -> R) (a b : ndarray) : option ndarray :=
  let '(n1, m1, f1) := as2d a in
  let '(n2, m2, f2) := as2d b in
  match bdim n1 n2, bdim m1 m2 with
  | Some n, Some m =>
      let f := fun i j => op (f1 (bidx n1 i) (bidx m1 j)) (f2 (bidx n2 i) (bidx m2 j)) in
      Some (if is_vec a && is_vec b then Vec m (f O) else Mat n m f)
  | _, _ => None
  end.

Definition matmul (d : nat) (a b : nat -> nat -> R) : nat -> nat -> R :=
  fun i j => rsum d (fun k => a i k * b k j).

(** ** numpy operations used by the source *)

(** [np.dot(a, b)] on two matrices. *)
Definition np_dot (a b : loc) : M loc :=
  A ← load_arr a;
  B ← load_arr b;
  match A, B with
  | Mat n d fa, Mat d' m fb =>
      if (d =? d')%nat then alloc_arr (Mat n m (matmul d fa fb))
      else raise ValueError
  | _, _ => raise Unmodelled
  end.

(** [a op b] for an arithmetic operator: a new array. *)
Definition np_binop (op : R -> R -> R) (a b : loc) : M loc :=
  A ← load_arr a;
  B ← load_arr b;
  match broadcast2 op A B with
  | Some r => alloc_arr r
  | None => raise ValueError
  end.

Definition np_add := np_binop Rplus.
Definition np_mul := np_binop Rmult.
Definition np_div := np_binop Rdiv.

(** [a op= b]: the result is written into the object [a], whose shape cannot
    change. *)
Definition np_ibinop (op : R -> R -> R) (a b : loc) : M () :=
  A ← load_arr a;
  B ← load_arr b;
  match broadcast2 op A B with
  | Some r => if same_shape A r then store_arr a r else raise ValueError
  | None => raise ValueError
  end.

Definition np_iadd := np_ibinop Rplus.

(** A function applied to every entry: a new array ([np.exp(a)], [np.log(a)],
    [-a], [np.maximum(0, a)], [c * a]). *)
Definition np_map (f : R -> R) (a : loc) : M loc :=
  A ← load_arr a;
  alloc_arr (amap f A).

Definition np_maximum0 := np_map (Rmax 0).
Definition np_exp := np_map exp.
Definition np_log := np_map ln.
Definition np_neg := np_map Ropp.
Definition scalar_mul (c : R) := np_map (Rmult c).

(** [a op= c] for a scalar [c]: in place. *)
Definition np_imap (f : R -> R) (a : loc) : M () :=
  A ← load_arr a;
  store_arr a (amap f A).

Definition isub_scalar (c : R) := np_imap (fun x => x - c).
Definition idiv_scalar (c : R) := np_imap (fun x => x / c).

(** [np.sum(a)]: a scalar. *)
Definition np_sum (a : loc) : M R :=
  A ← load_arr a;
  mret (asum A).

(** [np.sum(a, axis=1, keepdims=True)]. *)
Definition np_sum_axis1_keepdims (a : loc) : M loc :=
  A ← load_arr a;
  match A with
  | Mat n m f => alloc_arr (Mat n 1 (fun i _ => rsum m (fun j => f i j)))
  | Vec _ _ => raise ValueError
  end.

(** [np.sum(a, axis=0)] of a matrix: the vector of column sums. *)
Definition np_sum_axis0 (a : loc) : M loc :=
  A ← load_arr a;
  match A with
  | Mat n m f => alloc_arr (Vec m (fun j => rsum n (fun i => f i j)))
  | Vec _ _ => raise Unmodelled
  end.

(** [a.T].  numpy returns a view on the buffer of [a]; the source only reads
    its transposes, so the view is modelled as an object of its own. *)
Definition np_T (a : loc) : M loc :=
  A ← load_arr a;
  match A with
  | Mat n m f => alloc_arr (Mat m n (fun i j => f j i))
  | Vec n v => alloc_arr (Vec n v)
  end.

(** [N, D = a.shape] *)
Definition shape2 (a : loc) : M (nat * nat) :=
  A ← load_arr a;
  match A with
  | Mat n m _ => mret (n, m)
  | Vec _ _ => raise ValueError
  end.

(** [a.shape[0]] *)
Definition shape0 (a : loc) : M nat :=
  A ← load_arr a;
  match A with
  | Mat n _ _ => mret n
  | Vec n _ => mret n
  end.

(** ** Integer-array indexing *)

Definition py_range (n : nat) : list Z := Z.of_nat <$> seq 0 n.

(** An index into a dimension of extent [dim]: negative indices count from
    the end, anything outside [-dim, dim) is out of bounds.  The index is a
    value of numpy's index type, a 64-bit signed integer ([int64] below);
    wider Python integers are cast or refused by numpy before they reach
    this point, and statements about them carry [int64] as a hypothesis. *)
Definition norm_index (dim : nat) (k : Z) : option nat :=
  if ((0 <=? k) && (k <? Z.of_nat dim))%Z then Some (Z.to_nat k)
  else if ((- Z.of_nat dim <=? k) && (k <? 0))%Z then Some (Z.to_nat (k + Z.of_nat dim))
  else None.

(** Two index arrays are broadcast against each other. *)
Definition bcast_index (rows cols : list Z) : option (list (Z * Z)) :=
  if (length rows =? length cols)%nat then Some (zip rows cols)
  else if (length cols =? 1)%nat then
    Some (zip rows (replicate (length rows) (hd 0%Z cols)))
  else if (length rows =? 1)%nat then
    Some (zip (replicate (length cols) (hd 0%Z rows)) cols)
  else None.

Definition resolve_pair (n m : nat) (p : Z * Z) : option (nat * nat) :=
  i ← norm_index n p.1;
  j ← norm_index m p.2;
  Some (i, j).

Definition resolve_index (n m : nat) (rows cols : list Z) : option (list (nat * nat)) :=
  ps ← bcast_index rows cols;
  mapM (resolve_pair n m) ps.

Definition gather (ps : list (nat * nat)) (f : nat -> nat -> R) : nat -> R :=
  fun k => match ps !! k with Some (i, j) => f i j | None => 0 end.

Definition upd2 (f : nat -> nat -> R) (i j : nat) (x : R) : nat -> nat -> R :=
  fun i' j' => if ((i' =? i) && (j' =? j))%nat then x else f i' j'.

(** Assignment of v[k], v[k+1], ... to the positions [ps], in order. *)
Fixpoint scatter (ps : list (nat * nat)) (k : nat) (v : nat -> R)
    (f : nat -> nat -> R) : nat -> nat -> R :=
  match ps with
  | [] => f
  | (i, j) :: ps' => scatter ps' (S k) v (upd2 f i j (v k))
  end.

(** [a[rows, cols]] *)
Definition fancy_get (a : loc) (rows cols : list Z) : M loc :=
  A ← load_arr a;
  match A with
  | Mat n m f =>
      match resolve_index n m rows cols with
      | Some ps => alloc_arr (Vec (length ps) (gather ps f))
      | None => raise IndexError
      end
  | Vec _ _ => raise IndexError
  end.

(** [a[rows, cols] = v] *)
Definition fancy_set (a : loc) (rows cols : list Z) (v : loc) : M () :=
  A ← load_arr a;
  V ← load_arr v;
  match A with
  | Mat n m f =>
      match resolve_index n m rows cols with
      | Some ps =>
          match V with
          | Vec k fv =>
              if (k =? length ps)%nat || (k =? 1)%nat
              then store_arr a (Mat n m (scatter ps 0 (fun i => fv (bidx k i)) f))
              else raise ValueError
          | Mat _ _ _ => raise ValueError
          end
      | None => raise IndexError
      end
  | Vec _ _ => raise IndexError
  end.

(** [a[rows, cols] -= c]: read the selected entries into a temporary,
    subtract in place there, write the temporary back. *)
Definition fancy_isub (a : loc) (rows cols : list Z) (c : R) : M () :=
  t ← fancy_get a rows cols;
  isub_scalar c t;;
  fancy_set a rows cols t.

(** [a[b <= 0] = c]: the boolean mask [b <= 0] must have the shape of [a]. *)
Definition setitem_where_le0 (a b : loc) (c : R) : M () :=
  A ← load_arr a;
  B ← load_arr b;
  match A, B with
  | Mat n m fa, Mat n' m' fb =>
      if ((n =? n') && (m =? m'))%nat
      then store_arr a (Mat n m (fun i j => if Rle_dec (fb i j) 0 then c else fa i j))
      else raise IndexError
  | Vec n fa, Vec n' fb =>
      if (n =? n')%nat
      then store_arr a (Vec n (fun i => if Rle_dec (fb i) 0 then c else fa i))
      else raise IndexError
  | _, _ => raise IndexError
  end.

(** ** Dictionaries *)

(** [{}] *)
Definition new_dict : M loc := alloc (Dict ∅).

(** [d[k]] *)
Definition getitem (d : loc) (k : string) : M loc :=
  m ← load_dict d;
  match m !! k with
  | Some l => mret l
  | None => raise KeyError
  end.

(** [d[k] = v] *)
Definition setitem (d : loc) (k : string) (v : loc) : M () :=
  m ← load_dict d;
  store d (Dict (<[k := v]> m)).

(** ** Random and constant arrays *)

(** [np.random.randn(n, m)]: n*m numbers of the random source, row by row.
    The store has no capacity: numpy also refuses sizes above its largest
    dimension, which this model allocates. *)
Definition np_random_randn (n m : Z) : M loc :=
  if ((n <? 0) || (m <? 0))%Z then raise ValueError
  else
    let n' := Z.to_nat n in
    let m' := Z.to_nat m in
    t ← draw (n' * m');
    alloc_arr (Mat n' m' (fun i j => t (i * m' + j)%nat)).

(** [np.zeros(n)], without a largest dimension either. *)
Definition np_zeros (n : Z) : M loc :=
  if (n <? 0)%Z then raise ValueError
  else alloc_arr (Vec (Z.to_nat n) (fun _ => 0)).

(** ** The program *)

Definition init_two_layer_model (input_size hidden_size output_size : Z) : M loc :=
  model ← new_dict;
  r1 ← np_random_randn input_size hidden_size;
  w1 ← scalar_mul 0.00001 r1;
  setitem model "W1" w1;;
  z1 ← np_zeros hidden_size;
  setitem model "b1" z1;;
  r2 ← np_random_randn hidden_size output_size;
  w2 ← scalar_mul 0.00001 r2;
  setitem model "W2" w2;;
  z2 ← np_zeros output_size;
  setitem model "b2" z2;;
  mret model.

(** What [two_layer_net] returns: the scores, or the loss and the gradient
    dictionary. *)
Inductive retval :=
| RScores (scores : loc)
| RLossGrads (loss : R) (grads : loc).

Definition two_layer_net (X model : loc) (y : option (list Z)) (reg : R) : M retval :=
  W1 ← getitem model "W1";
  b1 ← getitem model "b1";
  W2 ← getitem model "W2";
  b2 ← getitem model "b2";
  '(N, D) ← shape2 X;
  xw ← np_dot X W1;
  pre ← np_add xw b1;
  hidden_layer_scores ← np_maximum0 pre;
  hw ← np_dot hidden_layer_scores W2;
  scores ← np_add hw b2;
  match y with
  | None => mret (RScores scores)
  | Some y =>
      cross_entropy_loss ← np_exp scores;
      rowsum ← np_sum_axis1_keepdims cross_entropy_loss;
      class_probs ← np_div cross_entropy_loss rowsum;
      num_train ← shape0 X;
      picked ← fancy_get class_probs (py_range num_train) y;
      logp ← np_log picked;
      correct_probs ← np_neg logp;
      total ← np_sum correct_probs;
      let loss := total / INR num_train in
      w1sq ← np_mul W1 W1;
      s1 ← np_sum w1sq;
      let loss := loss + 0.5 * reg * s1 in
      w2sq ← np_mul W2 W2;
      s2 ← np_sum w2sq;
      let loss := loss + 0.5 * reg * s2 in
      grads ← new_dict;
      let dscores := class_probs in
      fancy_isub dscores (py_range num_train) y 1;;
      idiv_scalar (INR num_train) dscores;;
      hT ← np_T hidden_layer_scores;
      dW2 ← np_dot hT dscores;
      db2 ← np_sum_axis0 dscores;
      W2T ← np_T W2;
      dHidden ← np_dot dscores W2T;
      setitem_where_le0 dHidden hidden_layer_scores 0;;
      XT ← np_T X;
      dW1 ← np_dot XT dHidden;
      db1 ← np_sum_axis0 dHidden;
      rW2 ← scalar_mul reg W2;
      np_iadd dW2 rW2;;
      rW1 ← scalar_mul reg W1;
      np_iadd dW1 rW1;;
      setitem grads "W1" dW1;;
      setitem grads "b1" db1;;
      setitem grads "W2" dW2;;
      setitem grads "b2" db2;;
      mret (RLossGrads loss grads)
  end.

(** * Reading the store *)

Definition arr_at (s : state) (l : loc) : option ndarray :=
  match heap s !! l with
  | Some (Arr a) => Some a
  | _ => None
  end.

Definition dict_at (s : state) (l : loc) : option (gmap string loc) :=
  match heap s !! l with
  | Some (Dict d) => Some d
  | _ => None
  end.

(** The object at [l] is an n x m matrix whose entries are those of [f]. *)
Definition mat_at (s : state) (l : loc) (n m : nat) (f : nat -> nat -> R) : Prop :=
  exists g, arr_at s l = Some (Mat n m g) /\
            forall i j, (i < n)%nat -> (j < m)%nat -> g i j = f i j.

(** The object at [l] is a vector of length n whose entries are those of [f]. *)
Definition vec_at (s : state) (l : loc) (n : nat) (f : nat -> R) : Prop :=
  exists g, arr_at s l = Some (Vec n g) /\
            forall i, (i < n)%nat -> g i = f i.

Arguments arr_at s l%_nat.
Arguments dict_at s l%_nat.
Arguments mat_at s l%_nat n%_nat m%_nat f.
Arguments vec_at s l%_nat n%_nat f.

(** [s'] extends [s]: every object of [s] is still there, unchanged. *)
Definition extends (s s' : state) : Prop :=
  exists ext, heap s' = heap s ++ ext.

(** * The network as mathematics

    The inputs of a call, and the quantities of sections 4.1 and 4.2 of the
    specification written as formulas over them. *)

Record net := Net {
  nN : nat; nD : nat; nH : nat; nC : nat;
  nX : nat -> nat -> R;
  nW1 : nat -> nat -> R;
  nb1 : nat -> R;
  nW2 : nat -> nat -> R;
  nb2 : nat -> R
}.

(** The store holds a batch and a parameter collection of consistent shapes:
    X is (N,D), W1 is (D,H), b1 is (H,), W2 is (H,C), b2 is (C,). *)
Definition consistent (s : state) (X model : loc) (p : net) : Prop :=
  exists d lW1 lb1 lW2 lb2,
    dict_at s model = Some d /\
    d !! "W1" = Some lW1 /\ d !! "b1" = Some lb1 /\
    d !! "W2" = Some lW2 /\ d !! "b2" = Some lb2 /\
    arr_at s X = Some (Mat (nN p) (nD p) (nX p)) /\
    arr_at s lW1 = Some (Mat (nD p) (nH p) (nW1 p)) /\
    arr_at s lb1 = Some (Vec (nH p) (nb1 p)) /\
    arr_at s lW2 = Some (Mat (nH p) (nC p) (nW2 p)) /\
    arr_at s lb2 = Some (Vec (nC p) (nb2 p)).

(** The column that an index k in [-m, m) selects among m columns: k itself
    when it is non-negative, m + k otherwise. *)
Definition col_of (m : nat) (k : Z) : nat := Z.to_nat (k mod Z.of_nat m).

(** The values of a 64-bit signed integer. *)
Definition int64 (k : Z) : Prop := (- 2 ^ 63 <= k < 2 ^ 63)%Z.

(** One label per sample, each an admissible column index for numpy. *)
Definition indexable (p : net) (y : list Z) : Prop :=
  length y = nN p /\
  Forall (fun k => - Z.of_nat (nC p) <= k < Z.of_nat (nC p))%Z y.

(** One label per sample, each in [0, C). *)
Definition valid_labels (p : net) (y : list Z) : Prop :=
  length y = nN p /\
  Forall (fun k => 0 <= k < Z.of_nat (nC p))%Z y.

Section Formulas.
Variable p : net.
Variable y : list Z.
Variable reg : R.

(** Hidden pre-activation X.W1 + b1. *)
Definition spec_pre (i k : nat) : R :=
  rsum (nD p) (fun d => nX p i d * nW1 p d k) + nb1 p k.

(** Hidden activation max(0, pre-activation). *)
Definition spec_hidden (i k : nat) : R := Rmax 0 (spec_pre i k).

(** Scores = hidden activation . W2 + b2. *)
Definition spec_scores (i j : nat) : R :=
  rsum (nH p) (fun k => spec_hidden i k * nW2 p k j) + nb2 p j.

(** Naive softmax: exponentials normalised by their row sum. *)
Definition spec_probs (i j : nat) : R :=
  exp (spec_scores i j) / rsum (nC p) (fun c => exp (spec_scores i c)).

(** The column that label y[i] selects: y[i] itself when it is in [0, C),
    C + y[i] when it is in [-C, 0). *)
Definition label (i : nat) : nat := col_of (nC p) (y !!! i).

Definition sumsq (n m : nat) (f : nat -> nat -> R) : R :=
  rsum n (fun i => rsum m (fun j => f i j * f i j)).

Definition spec_data_loss : R :=
  rsum (nN p) (fun i => - ln (spec_probs i (label i))) / INR (nN p).

Definition spec_reg_loss : R :=
  0.5 * reg * sumsq (nD p) (nH p) (nW1 p) + 0.5 * reg * sumsq (nH p) (nC p) (nW2 p).

Definition spec_loss : R := spec_data_loss + spec_reg_loss.

(** dScores = P, minus 1 at column y[i] of row i, all divided by N. *)
Definition spec_dscores (i j : nat) : R :=
  (spec_probs i j - (if (j =? label i)%nat then 1 else 0)) / INR (nN p).

(** hidden_activation^T . dScores *)
Definition spec_dW2_data (k j : nat) : R :=
  rsum (nN p) (fun i => spec_hidden i k * spec_dscores i j).

Definition spec_dW2 (k j : nat) : R := spec_dW2_data k j + reg * nW2 p k j.

Definition spec_db2 (j : nat) : R := rsum (nN p) (fun i => spec_dscores i j).

(** dScores . W2^T, zeroed where the hidden activation is <= 0. *)
Definition spec_dhidden (i k : nat) : R :=
  if Rle_dec (spec_hidden i k) 0 then 0
  else rsum (nC p) (fun j => spec_dscores i j * nW2 p k j).

(** X^T . dHidden *)
Definition spec_dW1_data (d k : nat) : R :=
  rsum (nN p) (fun i => nX p i d * spec_dhidden i k).

Definition spec_dW1 (d k : nat) : R := spec_dW1_data d k + reg * nW1 p d k.

Definition spec_db1 (k : nat) : R := rsum (nN p) (fun i => spec_dhidden i k).
End Formulas.

(** ** A small batch

    One sample with one feature, one hidden unit, two classes, all weights
    and biases zero. *)
Definition ex_net : net :=
  Net 1 1 1 2 (fun _ _ => 1) (fun _ _ => 0) (fun _ => 0) (fun _ _ => 0) (fun _ => 0).

Definition ex_model : gmap string loc :=
  <["b2" := 4%nat]> (<["W2" := 3%nat]> (<["b1" := 2%nat]> (<["W1" := 1%nat]> ∅))).

(** The dictionary at 0, its four arrays at 1 to 4, the batch at 5. *)
Definition ex_store : state :=
  State [Dict ex_model;
         Arr (Mat 1 1 (nW1 ex_net)); Arr (Vec 1 (nb1 ex_net));
         Arr (Mat 1 2 (nW2 ex_net)); Arr (Vec 2 (nb2 ex_net));
         Arr (Mat 1 1 (nX ex_net))]
        (fun _ => 0).

(** What a training call leaves behind, with the places of the objects it
    allocates counted from the size of the store before the call: the scores
    (4th object), the class probabilities that become dScores in place (7th),
    the gradient dictionary (13th), dHidden (19th) and the four gradient
    arrays. *)
Definition trained (p : net) (y : list Z) (reg : R) (s : state)
    (r : outcome retval) (s' : state) : Prop :=
  let base := length (heap s) in
  r = Ok (RLossGrads (spec_loss p y reg) (base + 13)%nat) /\
  (exists ext, heap s' = heap s ++ ext /\ length ext = 25%nat) /\
  tape s' = tape s /\
  dict_at s' (base + 13)%nat =
    Some (<["b2" := (base + 17)%nat]> (<["W2" := (base + 16)%nat]>
         (<["b1" := (base + 22)%nat]> (<["W1" := (base + 21)%nat]> ∅)))) /\
  mat_at s' (base + 4)%nat (nN p) (nC p) (spec_scores p) /\
  mat_at s' (base + 7)%nat (nN p) (nC p) (spec_dscores p y) /\
  mat_at s' (base + 19)%nat (nN p) (nH p) (spec_dhidden p y) /\
  mat_at s' (base + 21)%nat (nD p) (nH p) (spec_dW1 p y reg) /\
  vec_at s' (base + 22)%nat (nH p) (spec_db1 p y) /\
  mat_at s' (base + 16)%nat (nH p) (nC p) (spec_dW2 p y reg) /\
  vec_at s' (base + 17)%nat (nC p) (spec_db2 p y).

(** What an inference call leaves behind: five arrays, the last one the
    scores. *)
Definition inferred (p : net) (s : state) (r : outcome retval) (s' : state) : Prop :=
  let base := length (heap s) in
  r = Ok (RScores (base + 4)%nat) /\
  (exists ext, heap s' = heap s ++ ext /\ length ext = 5%nat /\
               Forall (fun o => exists a, o = Arr a) ext) /\
  tape s' = tape s /\
  mat_at s' (base + 4)%nat (nN p) (nC p) (spec_scores p).

(** What any call, on any operands, leaves behind: the store it started from
    followed by new objects, the random source untouched; scores only
    without labels; with labels and no exception, a new dictionary with four
    new arrays under the keys of the parameter collection. *)
Definition footprint (y : option (list Z)) (s : state)
    (r : outcome retval) (s' : state) : Prop :=
  let base := length (heap s) in
  extends s s' /\ tape s' = tape s /\
  match r with
  | Raise _ => True
  | Ok (RScores l) =>
      y = None /\ l = (base + 4)%nat /\ length (heap s') = (base + 5)%nat /\
      exists a, arr_at s' l = Some a
  | Ok (RLossGrads loss g) =>
      y <> None /\ g = (base + 13)%nat /\ length (heap s') = (base + 25)%nat /\
      dict_at s' g =
        Some (<["b2" := (base + 17)%nat]> (<["W2" := (base + 16)%nat]>
             (<["b1" := (base + 22)%nat]> (<["W1" := (base + 21)%nat]> ∅)))) /\
      (exists a, arr_at s' (base + 21)%nat = Some a) /\
      (exists a, arr_at s' (base + 22)%nat = Some a) /\
      (exists a, arr_at s' (base + 16)%nat = Some a) /\
      (exists a, arr_at s' (base + 17)%nat = Some a)
  end.

(** ** What an operation may do to the store, whatever its operands *)

(** [m] fails without touching the store, or allocates exactly one array and
    returns its location. *)
Definition allocs (m : M loc) : Prop :=
  forall s, (exists e, m s = (Raise e, s)) \/
            (exists a, m s = (Ok (length (heap s)), State (heap s ++ [Arr a]) (tape s))).

(** [m] leaves the store as it is. *)
Definition reads {A} (m : M A) : Prop := forall s, (m s).2 = s.

(** [m] fails without touching the store, or overwrites the object at [l]
    with an array. *)
Definition writes (m : M ()) (l : loc) : Prop :=
  forall s, (exists e, m s = (Raise e, s)) \/
            (exists a, m s = (Ok (), State (<[l := Arr a]> (heap s)) (tape s))).

(** * Reasoning about runs *)

(** [wp m Q s]: running [m] from [s] ends in an outcome and a state that
    satisfy [Q]. *)
Definition wp {A} (m : M A) (Q : outcome A -> state -> Prop) (s : state) : Prop :=
  Q (m s).1 (m s).2.

(** The continuation of a bind: go on after a value, stop at an exception. *)
Definition after {A B} (f : A -> M B) (Q : outcome B -> state -> Prop)
    : outcome A -> state -> Prop :=
  fun r s => match r with
             | Ok a => wp (f a) Q s
             | Raise e => Q (Raise e) s
             end.

(** The store during a call: the objects [h0] that existed before it,
    followed by the objects [ext] allocated since. *)
Definition hp (h0 ext : list object) : list object := h0 ++ ext.


(** ** A second batch

    Two samples with one feature, two hidden units, three classes.  After
    the batch the store holds two more dictionaries whose arrays do not fit:
    in the first b1 is bound to the array of length 3, in the second W2 is
    bound to a 3 x 3 matrix. *)
Definition ex_net2 : net :=
  Net 2 1 2 3
    (fun i _ => INR i + 1)
    (fun _ k => if (k =? 0)%nat then 1 else -1)
    (fun _ => 0)
    (fun k j => if (k =? j)%nat then 1 else 0)
    (fun _ => 0).

Definition ex_store2 : state :=
  State [Dict (<["b2" := 4%nat]> (<["W2" := 3%nat]> (<["b1" := 2%nat]> (<["W1" := 1%nat]> ∅))));
         Arr (Mat 1 2 (nW1 ex_net2)); Arr (Vec 2 (nb1 ex_net2));
         Arr (Mat 2 3 (nW2 ex_net2)); Arr (Vec 3 (nb2 ex_net2));
         Arr (Mat 2 1 (nX ex_net2));
         Dict (<["b2" := 4%nat]> (<["W2" := 3%nat]> (<["b1" := 4%nat]> (<["W1" := 1%nat]> ∅))));
         Dict (<["b2" := 4%nat]> (<["W2" := 8%nat]> (<["b1" := 2%nat]> (<["W1" := 1%nat]> ∅))));
         Arr (Mat 3 3 (fun _ _ => 0))]
        (fun k => INR k).

(** The second batch with one array of length 1 bound to both bias keys. *)
Definition ex_store3 : state :=
  State [Dict (<["b2" := 2%nat]> (<["W2" := 3%nat]> (<["b1" := 2%nat]> (<["W1" := 1%nat]> ∅))));
         Arr (Mat 1 2 (nW1 ex_net2)); Arr (Vec 1 (fun _ => 1));
         Arr (Mat 2 3 (nW2 ex_net2)); Arr (Mat 2 1 (nX ex_net2))]
        (fun _ => 0).

(** ** Further vocabulary for statements about calls *)

(** The dictionary at [model] has the four parameter keys, bound to these
    locations. *)
Definition has_params (s : state) (model lW1 lb1 lW2 lb2 : loc) : Prop :=
  exists d, dict_at s model = Some d /\
            d !! "W1" = Some lW1 /\ d !! "b1" = Some lb1 /\
            d !! "W2" = Some lW2 /\ d !! "b2" = Some lb2.

Arguments has_params s (model lW1 lb1 lW2 lb2)%_nat.

(** The shape of an array, as numpy reports it. *)
Definition shape_of (a : ndarray) : list nat :=
  match a with
  | Vec n _ => [n]
  | Mat n m _ => [n; m]
  end.

(** A vector with [t] added to entry [j], a matrix with [t] added to entry
    [(k, j)]. *)
Definition bump1 (f : nat -> R) (j : nat) (t : R) : nat -> R :=
  fun c => if (c =? j)%nat then f c + t else f c.

Definition bump2 (f : nat -> nat -> R) (k j : nat) (t : R) : nat -> nat -> R :=
  fun a c => if ((a =? k) && (c =? j))%nat then f a c + t else f a c.

(** The same network with other second-layer parameters. *)
Definition with_layer2 (p : net) (W2 : nat -> nat -> R) (b2 : nat -> R) : net :=
  Net (nN p) (nD p) (nH p) (nC p) (nX p) (nW1 p) (nb1 p) W2 b2.

(** The same network with other first-layer parameters. *)
Definition with_layer1 (p : net) (W1 : nat -> nat -> R) (b1 : nat -> R) : net :=
  Net (nN p) (nD p) (nH p) (nC p) (nX p) W1 b1 (nW2 p) (nb2 p).

(** ** Rules of the calculus *)

Lemma wp_bind {A B} (m : M A) (f : A -> M B) Q s :
  wp m (after f Q) s -> wp (m ≫= f) Q s.
Proof.
  unfold wp, after, mbind, M_bind.
  destruct (m s) as [[a|e] s']; simpl; auto.
Qed.

Lemma wp_ret {A} (a : A) Q s : Q (Ok a) s -> wp (mret a) Q s.
Proof. auto. Qed.

Lemma wp_raise {A} e (Q : outcome A -> state -> Prop) s :
  Q (Raise e) s -> wp (raise e) Q s.
Proof. auto. Qed.

Lemma wp_load l o Q s :
  heap s !! l = Some o -> Q (Ok o) s -> wp (load l) Q s.
Proof. unfold wp, load. intros ->. auto. Qed.

Lemma hp_nil h0 : h0 = hp h0 [].
Proof. unfold hp. by rewrite app_nil_r. Qed.

Lemma hp_lookup_new h0 ext k : hp h0 ext !! (length h0 + k)%nat = ext !! k.
Proof. unfold hp. rewrite lookup_app_r by lia. f_equal. lia. Qed.

Lemma hp_lookup_old h0 ext l o : h0 !! l = Some o -> hp h0 ext !! l = Some o.
Proof. unfold hp. intros Hl. by apply lookup_app_l_Some. Qed.

Lemma wp_alloc_hp o Q h0 ext t :
  Q (Ok (length h0 + length ext)%nat) (State (hp h0 (ext ++ [o])) t) ->
  wp (alloc o) Q (State (hp h0 ext) t).
Proof.
  unfold wp, alloc, hp. simpl. by rewrite length_app, app_assoc.
Qed.

Lemma wp_store_hp k o Q h0 ext t :
  Q (Ok ()) (State (hp h0 (list_insert k o ext)) t) ->
  wp (store (length h0 + k)%nat o) Q (State (hp h0 ext) t).
Proof.
  unfold wp, store, hp. simpl.
  change (list_insert k o ext) with (<[k := o]> ext).
  rewrite insert_app_r_alt by lia.
  by replace (length h0 + k - length h0)%nat with k by lia.
Qed.

Lemma wp_load_arr l a Q s :
  heap s !! l = Some (Arr a) -> Q (Ok a) s -> wp (load_arr l) Q s.
Proof.
  intros Hl HQ. unfold load_arr. apply wp_bind.
  eapply wp_load; [exact Hl|]. exact HQ.
Qed.

Lemma wp_load_dict l d Q s :
  heap s !! l = Some (Dict d) -> Q (Ok d) s -> wp (load_dict l) Q s.
Proof.
  intros Hl HQ. unfold load_dict. apply wp_bind.
  eapply wp_load; [exact Hl|]. exact HQ.
Qed.

(** ** Sums *)

Lemma rsum_ext n f g :
  (forall i, (i < n)%nat -> f i = g i) -> rsum n f = rsum n g.
Proof.
  induction n as [|n IH]; intros Hfg; simpl; [reflexivity|].
  rewrite IH by (intros; apply Hfg; lia).
  rewrite Hfg by lia. reflexivity.
Qed.

Lemma rsum_plus n f g :
  rsum n (fun i => f i + g i) = rsum n f + rsum n g.
Proof. induction n as [|n IH]; simpl; [lra|]. rewrite IH. lra. Qed.

Lemma rsum_scale n c f :
  rsum n (fun i => f i * c) = rsum n f * c.
Proof. induction n as [|n IH]; simpl; [lra|]. rewrite IH. lra. Qed.

Lemma rsum_const n c : rsum n (fun _ => c) = INR n * c.
Proof.
  induction n as [|n IH]; [simpl; lra|].
  rewrite S_INR. simpl. rewrite IH. lra.
Qed.

Lemma rsum_nonneg n f :
  (forall i, (i < n)%nat -> 0 <= f i) -> 0 <= rsum n f.
Proof.
  induction n as [|n IH]; intros Hf; simpl; [lra|].
  assert (0 <= rsum n f) by (apply IH; intros; apply Hf; lia).
  assert (0 <= f n) by (apply Hf; lia). lra.
Qed.

Lemma rsum_pos n f :
  (0 < n)%nat -> (forall i, (i < n)%nat -> 0 < f i) -> 0 < rsum n f.
Proof.
  intros Hn Hf. destruct n as [|n]; [lia|]. simpl.
  assert (0 <= rsum n f) by (apply rsum_nonneg; intros; apply Rlt_le, Hf; lia).
  assert (0 < f n) by (apply Hf; lia). lra.
Qed.

Lemma rsum_ge_term n f k :
  (k < n)%nat -> (forall i, (i < n)%nat -> 0 <= f i) -> f k <= rsum n f.
Proof.
  induction n as [|n IH]; intros Hk Hf; [lia|]. simpl.
  destruct (decide (k = n)) as [->|Hne].
  - assert (0 <= rsum n f) by (apply rsum_nonneg; intros; apply Hf; lia). lra.
  - assert (f k <= rsum n f) by (apply IH; [lia|intros; apply Hf; lia]).
    assert (0 <= f n) by (apply Hf; lia). lra.
Qed.

Lemma rsum_swap n m (f : nat -> nat -> R) :
  rsum n (fun i => rsum m (fun j => f i j)) =
  rsum m (fun j => rsum n (fun i => f i j)).
Proof.
  induction n as [|n IH]; simpl.
  - symmetry. rewrite (rsum_const m 0). lra.
  - rewrite IH, <- rsum_plus. reflexivity.
Qed.

(** The sum of an indicator of one index below the bound is 1. *)
Lemma rsum_indicator n k :
  (k < n)%nat -> rsum n (fun j => if (j =? k)%nat then 1 else 0) = 1.
Proof.
  induction n as [|n IH]; intros Hk; [lia|]. simpl.
  destruct (decide (k = n)) as [->|Hne].
  - rewrite Nat.eqb_refl.
    rewrite (rsum_ext n _ (fun _ => 0)).
    + rewrite rsum_const. lra.
    + intros i Hi. destruct (Nat.eqb_spec i n); [lia|reflexivity].
  - rewrite IH by lia. destruct (Nat.eqb_spec n k); [lia|lra].
Qed.

(** ** Broadcasting *)

Lemma bdim_refl n : bdim n n = Some n.
Proof. unfold bdim. by rewrite Nat.eqb_refl. Qed.

Lemma bdim_1_r n : bdim n 1 = Some n.
Proof.
  unfold bdim. destruct (Nat.eqb_spec n 1) as [->|]; [reflexivity|].
  reflexivity.
Qed.

Lemma bidx_lt d i : (i < d)%nat -> bidx d i = i.
Proof. unfold bidx. destruct (Nat.eqb_spec d 1); [lia|reflexivity]. Qed.

Lemma broadcast2_mat_vec op n m fa fb :
  broadcast2 op (Mat n m fa) (Vec m fb) =
  Some (Mat n m (fun i j => op (fa (bidx n i) (bidx m j)) (fb (bidx m j)))).
Proof. unfold broadcast2. simpl. by rewrite bdim_1_r, bdim_refl. Qed.

Lemma broadcast2_mat_col op n m fa fb :
  broadcast2 op (Mat n m fa) (Mat n 1 fb) =
  Some (Mat n m (fun i j => op (fa (bidx n i) (bidx m j)) (fb (bidx n i) O))).
Proof. unfold broadcast2. simpl. by rewrite bdim_1_r, bdim_refl. Qed.

Lemma broadcast2_mat_mat op n m fa fb :
  broadcast2 op (Mat n m fa) (Mat n m fb) =
  Some (Mat n m (fun i j => op (fa (bidx n i) (bidx m j)) (fb (bidx n i) (bidx m j)))).
Proof. unfold broadcast2. simpl. by rewrite !bdim_refl. Qed.

(** ** Rules for the numpy operations

    Each rule reads its operands in the store and leaves the allocation or
    the overwrite of the result. *)

Section OpRules.
Variable s : state.

Lemma wp_np_dot (Q' : outcome loc -> state -> Prop) a b n d m fa fb :
  heap s !! a = Some (Arr (Mat n d fa)) ->
  heap s !! b = Some (Arr (Mat d m fb)) ->
  wp (alloc_arr (Mat n m (matmul d fa fb))) Q' s ->
  wp (np_dot a b) Q' s.
Proof.
  intros Ha Hb HQ. unfold np_dot.
  apply wp_bind. eapply wp_load_arr; [exact Ha|]. simpl.
  apply wp_bind. eapply wp_load_arr; [exact Hb|]. simpl.
  by rewrite Nat.eqb_refl.
Qed.

Lemma wp_np_binop (Q' : outcome loc -> state -> Prop) op a b fa fb r :
  heap s !! a = Some (Arr fa) ->
  heap s !! b = Some (Arr fb) ->
  broadcast2 op fa fb = Some r ->
  wp (alloc_arr r) Q' s ->
  wp (np_binop op a b) Q' s.
Proof.
  intros Ha Hb Hr HQ. unfold np_binop.
  apply wp_bind. eapply wp_load_arr; [exact Ha|]. simpl.
  apply wp_bind. eapply wp_load_arr; [exact Hb|]. simpl.
  by rewrite Hr.
Qed.

Lemma wp_np_ibinop (Q' : outcome () -> state -> Prop) op a b fa fb r :
  heap s !! a = Some (Arr fa) ->
  heap s !! b = Some (Arr fb) ->
  broadcast2 op fa fb = Some r ->
  same_shape fa r = true ->
  wp (store_arr a r) Q' s ->
  wp (np_ibinop op a b) Q' s.
Proof.
  intros Ha Hb Hr Hs HQ. unfold np_ibinop.
  apply wp_bind. eapply wp_load_arr; [exact Ha|]. simpl.
  apply wp_bind. eapply wp_load_arr; [exact Hb|]. simpl.
  by rewrite Hr, Hs.
Qed.

Lemma wp_np_map (Q' : outcome loc -> state -> Prop) f a fa :
  heap s !! a = Some (Arr fa) ->
  wp (alloc_arr (amap f fa)) Q' s ->
  wp (np_map f a) Q' s.
Proof.
  intros Ha HQ. unfold np_map.
  apply wp_bind. eapply wp_load_arr; [exact Ha|]. exact HQ.
Qed.

Lemma wp_np_imap (Q' : outcome () -> state -> Prop) f a fa :
  heap s !! a = Some (Arr fa) ->
  wp (store_arr a (amap f fa)) Q' s ->
  wp (np_imap f a) Q' s.
Proof.
  intros Ha HQ. unfold np_imap.
  apply wp_bind. eapply wp_load_arr; [exact Ha|]. exact HQ.
Qed.

Lemma wp_np_sum (Q' : outcome R -> state -> Prop) a fa :
  heap s !! a = Some (Arr fa) ->
  Q' (Ok (asum fa)) s ->
  wp (np_sum a) Q' s.
Proof.
  intros Ha HQ. unfold np_sum.
  apply wp_bind. eapply wp_load_arr; [exact Ha|]. exact HQ.
Qed.

Lemma wp_np_sum_axis1_keepdims (Q' : outcome loc -> state -> Prop) a n m f :
  heap s !! a = Some (Arr (Mat n m f)) ->
  wp (alloc_arr (Mat n 1 (fun i _ => rsum m (fun j => f i j)))) Q' s ->
  wp (np_sum_axis1_keepdims a) Q' s.
Proof.
  intros Ha HQ. unfold np_sum_axis1_keepdims.
  apply wp_bind. eapply wp_load_arr; [exact Ha|]. exact HQ.
Qed.

Lemma wp_np_sum_axis0 (Q' : outcome loc -> state -> Prop) a n m f :
  heap s !! a = Some (Arr (Mat n m f)) ->
  wp (alloc_arr (Vec m (fun j => rsum n (fun i => f i j)))) Q' s ->
  wp (np_sum_axis0 a) Q' s.
Proof.
  intros Ha HQ. unfold np_sum_axis0.
  apply wp_bind. eapply wp_load_arr; [exact Ha|]. exact HQ.
Qed.

Lemma wp_np_T (Q' : outcome loc -> state -> Prop) a n m f :
  heap s !! a = Some (Arr (Mat n m f)) ->
  wp (alloc_arr (Mat m n (fun i j => f j i))) Q' s ->
  wp (np_T a) Q' s.
Proof.
  intros Ha HQ. unfold np_T.
  apply wp_bind. eapply wp_load_arr; [exact Ha|]. exact HQ.
Qed.

Lemma wp_shape2 (Q' : outcome (nat * nat) -> state -> Prop) a n m f :
  heap s !! a = Some (Arr (Mat n m f)) ->
  Q' (Ok (n, m)) s ->
  wp (shape2 a) Q' s.
Proof.
  intros Ha HQ. unfold shape2.
  apply wp_bind. eapply wp_load_arr; [exact Ha|]. exact HQ.
Qed.

Lemma wp_shape0 (Q' : outcome nat -> state -> Prop) a n m f :
  heap s !! a = Some (Arr (Mat n m f)) ->
  Q' (Ok n) s ->
  wp (shape0 a) Q' s.
Proof.
  intros Ha HQ. unfold shape0.
  apply wp_bind. eapply wp_load_arr; [exact Ha|]. exact HQ.
Qed.

Lemma wp_fancy_get (Q' : outcome loc -> state -> Prop) a rows cols n m f ps k :
  heap s !! a = Some (Arr (Mat n m f)) ->
  resolve_index n m rows cols = Some ps ->
  length ps = k ->
  wp (alloc_arr (Vec k (gather ps f))) Q' s ->
  wp (fancy_get a rows cols) Q' s.
Proof.
  intros Ha Hps <- HQ. unfold fancy_get.
  apply wp_bind. eapply wp_load_arr; [exact Ha|]. simpl.
  by rewrite Hps.
Qed.

Lemma wp_fancy_get_fail (Q' : outcome loc -> state -> Prop) a rows cols n m f :
  heap s !! a = Some (Arr (Mat n m f)) ->
  resolve_index n m rows cols = None ->
  Q' (Raise IndexError) s ->
  wp (fancy_get a rows cols) Q' s.
Proof.
  intros Ha Hps HQ. unfold fancy_get.
  apply wp_bind. eapply wp_load_arr; [exact Ha|]. simpl.
  by rewrite Hps.
Qed.

Lemma wp_fancy_set (Q' : outcome () -> state -> Prop) a rows cols v n m f ps fv k :
  heap s !! a = Some (Arr (Mat n m f)) ->
  heap s !! v = Some (Arr (Vec k fv)) ->
  resolve_index n m rows cols = Some ps ->
  length ps = k ->
  wp (store_arr a (Mat n m (scatter ps 0 (fun i => fv (bidx k i)) f))) Q' s ->
  wp (fancy_set a rows cols v) Q' s.
Proof.
  intros Ha Hv Hps <- HQ. unfold fancy_set.
  apply wp_bind. eapply wp_load_arr; [exact Ha|]. simpl.
  apply wp_bind. eapply wp_load_arr; [exact Hv|]. simpl.
  by rewrite Hps, Nat.eqb_refl.
Qed.

Lemma wp_setitem_where_le0 (Q' : outcome () -> state -> Prop) a b c n m fa fb :
  heap s !! a = Some (Arr (Mat n m fa)) ->
  heap s !! b = Some (Arr (Mat n m fb)) ->
  wp (store_arr a (Mat n m (fun i j => if Rle_dec (fb i j) 0 then c else fa i j))) Q' s ->
  wp (setitem_where_le0 a b c) Q' s.
Proof.
  intros Ha Hb HQ. unfold setitem_where_le0.
  apply wp_bind. eapply wp_load_arr; [exact Ha|]. simpl.
  apply wp_bind. eapply wp_load_arr; [exact Hb|]. simpl.
  by rewrite !Nat.eqb_refl.
Qed.

Lemma wp_getitem (Q' : outcome loc -> state -> Prop) d k m l :
  heap s !! d = Some (Dict m) ->
  m !! k = Some l ->
  Q' (Ok l) s ->
  wp (getitem d k) Q' s.
Proof.
  intros Hd Hk HQ. unfold getitem.
  apply wp_bind. eapply wp_load_dict; [exact Hd|]. simpl.
  by rewrite Hk.
Qed.

Lemma wp_setitem (Q' : outcome () -> state -> Prop) d k v m :
  heap s !! d = Some (Dict m) ->
  wp (store d (Dict (<[k := v]> m))) Q' s ->
  wp (setitem d k v) Q' s.
Proof.
  intros Hd HQ. unfold setitem.
  apply wp_bind. eapply wp_load_dict; [exact Hd|]. exact HQ.
Qed.
End OpRules.

Lemma arr_at_heap s l a : arr_at s l = Some a -> heap s !! l = Some (Arr a).
Proof.
  unfold arr_at. destruct (heap s !! l) as [[b|d]|]; intros E; by inversion E.
Qed.

Lemma dict_at_heap s l d : dict_at s l = Some d -> heap s !! l = Some (Dict d).
Proof.
  unfold dict_at. destruct (heap s !! l) as [[b|d']|]; intros E; by inversion E.
Qed.

(** ** Symbolic execution *)

Ltac wp_simpl :=
  cbn beta iota zeta delta [after length app Nat.add insert list_insert fst snd
                            heap tape amap].

Ltac solve_lookup :=
  cbn [heap];
  first
    [ rewrite hp_lookup_new; reflexivity
    | apply hp_lookup_old; eassumption ].

Ltac solve_bcast :=
  first [ apply broadcast2_mat_vec | apply broadcast2_mat_col
        | apply broadcast2_mat_mat ].

Ltac wp_op :=
  lazymatch goal with
  | |- wp (mbind _ _) _ _ => apply wp_bind
  | |- wp (mret _) _ _ => apply wp_ret
  | |- wp (raise _) _ _ => apply wp_raise
  | |- wp (alloc_arr _) _ _ => apply wp_alloc_hp
  | |- wp (alloc _) _ _ => apply wp_alloc_hp
  | |- wp new_dict _ _ => apply wp_alloc_hp
  | |- wp (store_arr _ _) _ _ => apply wp_store_hp
  | |- wp (store _ _) _ _ => apply wp_store_hp
  | |- wp (np_dot _ _) _ _ => eapply wp_np_dot; [solve_lookup | solve_lookup | ]
  | |- wp (np_binop _ _ _) _ _ =>
      eapply wp_np_binop; [solve_lookup | solve_lookup | solve_bcast | ]
  | |- wp (np_ibinop _ _ _) _ _ =>
      eapply wp_np_ibinop;
      [solve_lookup | solve_lookup | solve_bcast
      | cbn [same_shape]; rewrite !Nat.eqb_refl; reflexivity | ]
  | |- wp (np_map _ _) _ _ => eapply wp_np_map; [solve_lookup | ]
  | |- wp (np_imap _ _) _ _ => eapply wp_np_imap; [solve_lookup | ]
  | |- wp (np_sum _) _ _ => eapply wp_np_sum; [solve_lookup | ]
  | |- wp (np_sum_axis1_keepdims _) _ _ =>
      eapply wp_np_sum_axis1_keepdims; [solve_lookup | ]
  | |- wp (np_sum_axis0 _) _ _ => eapply wp_np_sum_axis0; [solve_lookup | ]
  | |- wp (np_T _) _ _ => eapply wp_np_T; [solve_lookup | ]
  | |- wp (shape2 _) _ _ => eapply wp_shape2; [solve_lookup | ]
  | |- wp (shape0 _) _ _ => eapply wp_shape0; [solve_lookup | ]
  | |- wp (setitem_where_le0 _ _ _) _ _ =>
      eapply wp_setitem_where_le0; [solve_lookup | solve_lookup | ]
  | |- wp (getitem _ _) _ _ =>
      eapply wp_getitem; [solve_lookup | eassumption | ]
  | |- wp (setitem _ _ _) _ _ => eapply wp_setitem; [solve_lookup | ]
  end.

Ltac wp_unfold :=
  unfold np_add, np_mul, np_div, np_iadd, np_maximum0, np_exp, np_log, np_neg,
    scalar_mul, isub_scalar, idiv_scalar.

Ltac wp_run := wp_unfold; repeat (wp_op; wp_simpl).


(** ** Integer-array indexing *)

Lemma norm_index_nat n i : (i < n)%nat -> norm_index n (Z.of_nat i) = Some i.
Proof.
  intros Hi. unfold norm_index.
  destruct (Z.leb_spec 0 (Z.of_nat i)); [|lia].
  destruct (Z.ltb_spec (Z.of_nat i) (Z.of_nat n)); [|lia].
  simpl. by rewrite Nat2Z.id.
Qed.

Lemma norm_index_wrap m k :
  (- Z.of_nat m <= k < Z.of_nat m)%Z ->
  norm_index m k = Some (Z.to_nat (k mod Z.of_nat m)).
Proof.
  intros Hk. unfold norm_index.
  destruct (Z.leb_spec 0 k); destruct (Z.ltb_spec k (Z.of_nat m)); simpl; try lia.
  - by rewrite Z.mod_small by lia.
  - destruct (Z.leb_spec (- Z.of_nat m) k); destruct (Z.ltb_spec k 0); simpl; try lia.
    f_equal. f_equal.
    rewrite <- (Z.mod_add k 1 (Z.of_nat m)) by lia.
    rewrite Z.mod_small by lia. lia.
Qed.

Lemma norm_index_out m k :
  ~ (- Z.of_nat m <= k < Z.of_nat m)%Z -> norm_index m k = None.
Proof.
  intros Hk. unfold norm_index.
  destruct (Z.leb_spec 0 k); destruct (Z.ltb_spec k (Z.of_nat m)); simpl; try lia;
  destruct (Z.leb_spec (- Z.of_nat m) k); destruct (Z.ltb_spec k 0); simpl; try lia;
  reflexivity.
Qed.

Lemma length_py_range n : length (py_range n) = n.
Proof. unfold py_range. by rewrite length_fmap, length_seq. Qed.

Lemma resolve_pair_ok n m i k :
  (i < n)%nat -> (- Z.of_nat m <= k < Z.of_nat m)%Z ->
  resolve_pair n m (Z.of_nat i, k) = Some (i, col_of m k).
Proof.
  intros Hi Hk. unfold resolve_pair. simpl.
  rewrite norm_index_nat by lia. simpl.
  rewrite norm_index_wrap by exact Hk. reflexivity.
Qed.

Lemma mapM_resolve n m (y : list Z) a :
  (a + length y <= n)%nat ->
  Forall (fun k => - Z.of_nat m <= k < Z.of_nat m)%Z y ->
  mapM (resolve_pair n m) (zip (Z.of_nat <$> seq a (length y)) y) =
  Some (zip (seq a (length y)) (col_of m <$> y)).
Proof.
  revert a. induction y as [|k y IH]; intros a Ha Hy; [reflexivity|].
  inversion Hy as [|? ? Hk Hy']; subst. simpl in *.
  rewrite resolve_pair_ok by (lia || assumption). simpl.
  change (list_fmap nat Z Z.of_nat) with (fmap (M:=list) Z.of_nat).
  rewrite IH by (lia || assumption). reflexivity.
Qed.

Lemma resolve_index_ok n m (y : list Z) :
  length y = n ->
  Forall (fun k => - Z.of_nat m <= k < Z.of_nat m)%Z y ->
  resolve_index n m (py_range n) y = Some (zip (seq 0 n) (col_of m <$> y)).
Proof.
  intros Hn Hy. unfold resolve_index, bcast_index.
  rewrite length_py_range, Hn, Nat.eqb_refl. simpl.
  unfold py_range. rewrite <- Hn. apply mapM_resolve; [lia|exact Hy].
Qed.

Lemma lookup_rows n (cs : list nat) a i :
  length cs = n -> (i < n)%nat ->
  zip (seq a n) cs !! i = Some ((a + i)%nat, cs !!! i).
Proof.
  intros Hn Hi.
  destruct (lookup_lt_is_Some_2 cs i) as [c Hc]; [lia|].
  rewrite (list_lookup_total_correct _ _ _ Hc).
  apply lookup_zip_with_Some. exists (a + i)%nat, c. split; [reflexivity|].
  split; [|exact Hc]. by apply lookup_seq.
Qed.

Lemma length_rows n (cs : list nat) a :
  length cs = n -> length (zip (seq a n) cs) = n.
Proof. intros Hn. rewrite length_zip_with, length_seq. lia. Qed.

Lemma scatter_rows n : forall (cs : list nat) a k v f i j,
  length cs = n ->
  scatter (zip (seq a n) cs) k v f i j =
  if decide (a <= i < a + n)%nat
  then (if (j =? cs !!! (i - a)%nat)%nat then v (k + (i - a))%nat else f i j)
  else f i j.
Proof.
  induction n as [|n IH]; intros cs a k v f i j Hn.
  - destruct cs; [|discriminate]. simpl. case_decide; [lia|reflexivity].
  - destruct cs as [|c cs]; [discriminate|]. simpl in Hn.
    cbn [seq zip zip_with scatter]. rewrite IH by lia.
    unfold upd2.
    destruct (decide (i = a)) as [->|Hne].
    + rewrite Nat.eqb_refl, Nat.sub_diag. simpl.
      rewrite decide_False by lia. rewrite decide_True by lia.
      rewrite Nat.add_0_r. reflexivity.
    + destruct (Nat.eqb_spec i a); [lia|]. simpl.
      destruct (decide (a <= i < a + S n)%nat) as [Hin|Hout].
      * rewrite decide_True by lia.
        replace (i - a)%nat with (S (i - S a)) by lia.
        replace (k + S (i - S a))%nat with (S k + (i - S a))%nat by lia.
        reflexivity.
      * rewrite decide_False by lia. reflexivity.
Qed.

(** Give the entries of the array about to be allocated or written a name,
    and keep only their defining equation. *)
Ltac wp_name :=
  cbn [amap];
  lazymatch goal with
  | |- wp (_ (Mat _ _ ?f)) _ _ =>
      let F := fresh "F" in
      let HF := fresh "HF" in
      set (F := f);
      assert (HF : forall i j, F i j = f i j) by reflexivity;
      cbv beta in HF; clearbody F
  | |- wp (_ _ (Mat _ _ ?f)) _ _ =>
      let F := fresh "F" in
      let HF := fresh "HF" in
      set (F := f);
      assert (HF : forall i j, F i j = f i j) by reflexivity;
      cbv beta in HF; clearbody F
  | |- wp (_ (Vec _ ?f)) _ _ =>
      let F := fresh "V" in
      let HF := fresh "HV" in
      set (F := f);
      assert (HF : forall i, F i = f i) by reflexivity;
      cbv beta in HF; clearbody F
  | |- wp (_ _ (Vec _ ?f)) _ _ =>
      let F := fresh "V" in
      let HF := fresh "HV" in
      set (F := f);
      assert (HF : forall i, F i = f i) by reflexivity;
      cbv beta in HF; clearbody F
  end.

Ltac wp_mem :=
  lazymatch goal with
  | |- wp (alloc_arr _) _ _ => wp_name; apply wp_alloc_hp
  | |- wp (store_arr _ _) _ _ => wp_name; apply wp_store_hp
  | |- wp (fancy_get _ _ _) _ _ =>
      eapply wp_fancy_get;
      [solve_lookup | apply resolve_index_ok; assumption
      | apply length_rows; rewrite length_fmap; assumption | ]
  | |- wp (fancy_set _ _ _ _) _ _ =>
      eapply wp_fancy_set;
      [solve_lookup | solve_lookup | apply resolve_index_ok; assumption
      | apply length_rows; rewrite length_fmap; assumption | ]
  | |- wp (fancy_isub _ _ _ _) _ _ => unfold fancy_isub
  | _ => wp_op
  end.

Ltac wp_exec := repeat (wp_unfold; wp_mem; wp_simpl).

(** ** The two runs of [two_layer_net] on well-shaped inputs *)

Lemma label_lt p y i :
  indexable p y -> (i < nN p)%nat -> (label p y i < nC p)%nat.
Proof.
  intros [Hlen Hlab] Hi. unfold label, col_of.
  assert (Hin : y !!! i ∈ y) by (apply (list_elem_of_lookup_total_2 y i); lia).
  rewrite Forall_forall in Hlab. specialize (Hlab _ Hin).
  assert (0 <= (y !!! i) mod Z.of_nat (nC p) < Z.of_nat (nC p))%Z
    by (apply Z.mod_pos_bound; lia).
  lia.
Qed.

Lemma label_fmap p (y : list Z) i :
  (i < length y)%nat -> (col_of (nC p) <$> y) !!! i = label p y i.
Proof.
  intros Hi. unfold label. by rewrite (list_lookup_total_fmap (col_of (nC p)) y i Hi).
Qed.

Lemma wp_start {A} (m : M A) Q h0 t :
  wp m Q (State (hp h0 []) t) -> wp m Q (State h0 t).
Proof. by rewrite <- hp_nil. Qed.

Ltac find_obj :=
  unfold mat_at, vec_at, arr_at, dict_at; cbn [heap];
  rewrite ?hp_lookup_new; cbn [lookup list_lookup].

Section Runs.
Variables (s : state) (X model : loc) (p : net).
Hypothesis Hc : consistent s X model p.

Lemma two_layer_net_infer reg :
  wp (two_layer_net X model None reg) (inferred p s) s.
Proof.
  destruct s as [h0 t0].
  destruct Hc as (d & lW1 & lb1 & lW2 & lb2 & Hd & ? & ? & ? & ?
                  & HX & HW1 & Hb1 & HW2 & Hb2).
  apply dict_at_heap in Hd. apply arr_at_heap in HX, HW1, Hb1, HW2, Hb2.
  cbn [heap] in *.
  apply wp_start. unfold two_layer_net.
  wp_exec.
  unfold inferred; cbn beta zeta iota delta [heap tape].
  split; [reflexivity|].
  split; [eexists; split; [reflexivity|]; split; [reflexivity|];
          repeat (constructor; [eexists; reflexivity|]); constructor|].
  split; [reflexivity|].
  find_obj. eexists; split; [reflexivity|].
  intros i j Hi Hj. unfold spec_scores, spec_hidden, spec_pre.
  rewrite HF3, !bidx_lt by lia. rewrite HF2. unfold matmul. f_equal.
  apply rsum_ext. intros k Hk.
  rewrite HF1, HF0, !bidx_lt by lia. rewrite HF. reflexivity.
Qed.

Variable y : list Z.
Hypothesis Hy : indexable p y.

Lemma two_layer_net_train reg :
  wp (two_layer_net X model (Some y) reg) (trained p y reg s) s.
Proof.
  pose proof (fun i => label_lt p y i Hy) as Hlt.
  destruct s as [h0 t0].
  destruct Hc as (d & lW1 & lb1 & lW2 & lb2 & Hd & ? & ? & ? & ?
                  & HX & HW1 & Hb1 & HW2 & Hb2).
  apply dict_at_heap in Hd. apply arr_at_heap in HX, HW1, Hb1, HW2, Hb2.
  destruct Hy as [Hlen Hlab].
  cbn [heap] in *.
  apply wp_start. unfold two_layer_net.
  wp_exec.
  (* the forward pass *)
  assert (Ehid : forall i k, (i < nN p)%nat -> (k < nH p)%nat ->
                             F1 i k = spec_hidden p i k).
  { intros i k Hi Hk. unfold spec_hidden, spec_pre.
    rewrite HF1, HF0, !bidx_lt by lia. rewrite HF. reflexivity. }
  assert (Esc : forall i j, (i < nN p)%nat -> (j < nC p)%nat ->
                            F3 i j = spec_scores p i j).
  { intros i j Hi Hj. unfold spec_scores.
    rewrite HF3, !bidx_lt by lia. rewrite HF2. unfold matmul. f_equal.
    apply rsum_ext. intros k Hk. by rewrite Ehid. }
  (* softmax *)
  assert (Epr : forall i j, (i < nN p)%nat -> (j < nC p)%nat ->
                            F6 i j = spec_probs p i j).
  { intros i j Hi Hj. unfold spec_probs.
    rewrite HF6, !bidx_lt by lia. rewrite HF4, HF5, Esc by lia. f_equal.
    apply rsum_ext. intros c Hc'. by rewrite HF4, Esc. }
  assert (Epick : forall i, (i < nN p)%nat ->
              gather (zip (seq 0 (nN p)) (col_of (nC p) <$> y)) F6 i =
              F6 i (label p y i)).
  { intros i Hi. unfold gather.
    rewrite (lookup_rows (nN p)) by (rewrite ?length_fmap; lia).
    rewrite label_fmap by lia. reflexivity. }
  (* dScores *)
  assert (Eds : forall i j, (i < nN p)%nat -> (j < nC p)%nat ->
                            F10 i j = spec_dscores p y i j).
  { intros i j Hi Hj. unfold spec_dscores.
    rewrite HF10, HF9.
    rewrite (scatter_rows (nN p)) by (rewrite length_fmap; lia).
    rewrite decide_True by lia. rewrite Nat.sub_0_r, label_fmap by lia.
    rewrite bidx_lt by lia. cbn [Nat.add].
    destruct (Nat.eqb_spec j (label p y i)) as [->|Hne].
    - rewrite HV3, HV2, Epick, Epr by auto. reflexivity.
    - rewrite Epr by lia. f_equal. lra. }
  assert (Edh : forall i k, (i < nN p)%nat -> (k < nH p)%nat ->
                            F15 i k = spec_dhidden p y i k).
  { intros i k Hi Hk. unfold spec_dhidden.
    rewrite HF15, Ehid by lia.
    destruct (Rle_dec (spec_hidden p i k) 0); [reflexivity|].
    rewrite HF14. unfold matmul. apply rsum_ext. intros j Hj.
    rewrite HF13, Eds by lia. reflexivity. }
  unfold trained; cbn beta zeta iota delta [heap tape].
  split.
  { (* the loss *)
    do 2 f_equal. unfold spec_loss, spec_data_loss, spec_reg_loss, sumsq.
    cbn [asum].
    rewrite (rsum_ext (nN p) V1 (fun i => - ln (spec_probs p i (label p y i)))).
    2:{ intros i Hi. rewrite HV1, HV0, HV, Epick, Epr by auto. reflexivity. }
    rewrite (rsum_ext (nD p) _ (fun i => rsum (nH p) (fun j => nW1 p i j * nW1 p i j))).
    2:{ intros i Hi. apply rsum_ext. intros j Hj.
        rewrite HF7, !bidx_lt by lia. reflexivity. }
    rewrite (rsum_ext (nH p) (fun i => rsum (nC p) (fun j => F8 i j))
               (fun i => rsum (nC p) (fun j => nW2 p i j * nW2 p i j))).
    2:{ intros i Hi. apply rsum_ext. intros j Hj.
        rewrite HF8, !bidx_lt by lia. reflexivity. }
    lra. }
  split; [eexists; split; reflexivity|].
  split; [reflexivity|].
  find_obj.
  split; [reflexivity|].
  split; [eexists; split; [reflexivity|exact Esc]|].
  split; [eexists; split; [reflexivity|exact Eds]|].
  split; [eexists; split; [reflexivity|exact Edh]|].
  split.
  { eexists; split; [reflexivity|]. intros i k Hi Hk.
    unfold spec_dW1, spec_dW1_data.
    rewrite HF21, !bidx_lt by lia. rewrite HF17, HF20. unfold matmul.
    f_equal. apply rsum_ext. intros a Ha. rewrite HF16, Edh by lia.
    reflexivity. }
  split.
  { eexists; split; [reflexivity|]. intros k Hk. unfold spec_db1.
    rewrite HV5. apply rsum_ext. intros i Hi. by rewrite Edh. }
  split.
  { eexists; split; [reflexivity|]. intros k j Hk Hj.
    unfold spec_dW2, spec_dW2_data.
    rewrite HF19, !bidx_lt by lia. rewrite HF12, HF18. unfold matmul.
    f_equal. apply rsum_ext. intros i Hi. rewrite HF11, Ehid, Eds by lia.
    reflexivity. }
  eexists; split; [reflexivity|]. intros j Hj. unfold spec_db2.
  rewrite HV4. apply rsum_ext. intros i Hi. by rewrite Eds.
Qed.
End Runs.

(** ** Runs on arbitrary inputs *)

Lemma bind_run {A B} (m : M A) (f : A -> M B) s :
  (m ≫= f) s = match m s with
               | (Ok a, s') => f a s'
               | (Raise e, s') => (Raise e, s')
               end.
Proof. reflexivity. Qed.

Lemma load_arr_cases l s :
  (exists a, load_arr l s = (Ok a, s)) \/ (exists e, load_arr l s = (Raise e, s)).
Proof.
  unfold load_arr. rewrite bind_run. unfold load.
  destruct (heap s !! l) as [[a|d]|]; eauto.
Qed.

Lemma load_dict_cases l s :
  (exists d, load_dict l s = (Ok d, s)) \/ (exists e, load_dict l s = (Raise e, s)).
Proof.
  unfold load_dict. rewrite bind_run. unfold load.
  destruct (heap s !! l) as [[a|d]|]; eauto.
Qed.

Ltac crush_op :=
  intros s;
  repeat (rewrite bind_run;
          lazymatch goal with
          | |- context [load_arr ?l s] =>
              destruct (load_arr_cases l s) as [[? ->]|[? ->]]
          | |- context [load_dict ?l s] =>
              destruct (load_dict_cases l s) as [[? ->]|[? ->]]
          end;
          cbn beta iota);
  unfold alloc_arr, store_arr, alloc, store, raise, mret, M_ret;
  repeat (cbn beta iota;
          lazymatch goal with
          | |- context [match ?x with _ => _ end] => destruct x eqn:?
          end);
  cbn beta iota; eauto.

Lemma np_dot_allocs a b : allocs (np_dot a b).
Proof. unfold np_dot. crush_op. Qed.

Lemma np_binop_allocs op a b : allocs (np_binop op a b).
Proof. unfold np_binop. crush_op. Qed.

Lemma np_map_allocs f a : allocs (np_map f a).
Proof. unfold np_map. crush_op. Qed.

Lemma np_sum_axis1_keepdims_allocs a : allocs (np_sum_axis1_keepdims a).
Proof. unfold np_sum_axis1_keepdims. crush_op. Qed.

Lemma np_sum_axis0_allocs a : allocs (np_sum_axis0 a).
Proof. unfold np_sum_axis0. crush_op. Qed.

Lemma np_T_allocs a : allocs (np_T a).
Proof. unfold np_T. crush_op. Qed.

Lemma fancy_get_allocs a rows cols : allocs (fancy_get a rows cols).
Proof. unfold fancy_get. crush_op. Qed.

Lemma getitem_reads d k : reads (getitem d k).
Proof. unfold getitem. crush_op. Qed.

Lemma shape2_reads a : reads (shape2 a).
Proof. unfold shape2. crush_op. Qed.

Lemma shape0_reads a : reads (shape0 a).
Proof. unfold shape0. crush_op. Qed.

Lemma np_sum_reads a : reads (np_sum a).
Proof. unfold np_sum. crush_op. Qed.

Lemma np_imap_writes f a : writes (np_imap f a) a.
Proof. unfold np_imap. crush_op. Qed.

Lemma np_ibinop_writes op a b : writes (np_ibinop op a b) a.
Proof. unfold np_ibinop. crush_op. Qed.

Lemma fancy_set_writes a rows cols v : writes (fancy_set a rows cols v) a.
Proof. unfold fancy_set. crush_op. Qed.

Lemma setitem_where_le0_writes a b c : writes (setitem_where_le0 a b c) a.
Proof. unfold setitem_where_le0. crush_op. Qed.

Create HintDb ops discriminated.
#[global] Hint Resolve np_dot_allocs np_binop_allocs np_map_allocs
  np_sum_axis1_keepdims_allocs np_sum_axis0_allocs np_T_allocs
  fancy_get_allocs getitem_reads shape2_reads shape0_reads np_sum_reads
  np_imap_writes np_ibinop_writes fancy_set_writes setitem_where_le0_writes
  : ops.

Lemma wp_allocs m Q h0 ext t :
  allocs m ->
  (forall e, Q (Raise e) (State (hp h0 ext) t)) ->
  (forall a, Q (Ok (length h0 + length ext)%nat) (State (hp h0 (ext ++ [Arr a])) t)) ->
  wp m Q (State (hp h0 ext) t).
Proof.
  intros Hm He Ha. unfold wp.
  destruct (Hm (State (hp h0 ext) t)) as [[e ->]|[a ->]]; cbn [fst snd heap tape].
  - apply He.
  - unfold hp in *. rewrite length_app, <- app_assoc. apply Ha.
Qed.

Lemma wp_reads {A} (m : M A) Q s :
  reads m -> (forall r, Q r s) -> wp m Q s.
Proof. intros Hm HQ. unfold wp. rewrite Hm. apply HQ. Qed.

Lemma wp_writes m k Q h0 ext t :
  writes m (length h0 + k)%nat ->
  (forall e, Q (Raise e) (State (hp h0 ext) t)) ->
  (forall a, Q (Ok ()) (State (hp h0 (list_insert k (Arr a) ext)) t)) ->
  wp m Q (State (hp h0 ext) t).
Proof.
  intros Hm He Ha. unfold wp.
  destruct (Hm (State (hp h0 ext) t)) as [[e ->]|[a ->]]; cbn [fst snd heap tape].
  - apply He.
  - specialize (Ha a). unfold hp in *.
    change (list_insert k (Arr a) ext) with (<[k := Arr a]> ext) in Ha.
    rewrite insert_app_r_alt by lia.
    by replace (length h0 + k - length h0)%nat with k by lia.
Qed.

(** One step of a run about whose operands nothing is known; [fin] closes
    the goals of the runs that stop at an exception. *)
Ltac wp_any fin :=
  wp_unfold;
  lazymatch goal with
  | |- wp (mbind _ _) _ _ => apply wp_bind
  | |- wp (mret _) _ _ => apply wp_ret
  | |- wp new_dict _ _ => apply wp_alloc_hp
  | |- wp (setitem _ _ _) _ _ =>
      eapply wp_setitem; [solve_lookup | apply wp_store_hp]
  | |- wp (fancy_isub _ _ _ _) _ _ => unfold fancy_isub
  | |- wp _ _ _ =>
      first
        [ apply wp_allocs;
          [solve [auto with ops] | intros ?e; wp_simpl; fin | intros ?a]
        | apply wp_reads;
          [solve [auto with ops]
          | intros [?v|?e];
            [try lazymatch goal with v : (nat * nat)%type |- _ => destruct v end
            | wp_simpl; fin]]
        | eapply wp_writes;
          [solve [eauto with ops] | intros ?e; wp_simpl; fin | intros ?a] ]
  end;
  wp_simpl.


Lemma hp_length h0 ext : length (hp h0 ext) = (length h0 + length ext)%nat.
Proof. unfold hp. apply length_app. Qed.

Lemma two_layer_net_footprint X model y reg s :
  wp (two_layer_net X model y reg) (footprint y s) s.
Proof.
  destruct s as [h0 t0]. apply wp_start. unfold two_layer_net.
  assert (Hraise : forall e ext,
            footprint y (State h0 t0) (Raise e) (State (hp h0 ext) t0)).
  { intros e ext. split; [by exists ext|]. split; reflexivity. }
  repeat (wp_any ltac:(apply Hraise)).
  destruct y as [y|].
  - repeat (wp_any ltac:(apply Hraise)).
    unfold footprint; cbn beta zeta iota delta [heap tape].
    split; [by eexists|]. split; [reflexivity|]. split; [discriminate|].
    split; [reflexivity|]. split; [by rewrite hp_length|].
    find_obj. repeat split; eauto.
  - wp_any ltac:(apply Hraise).
    unfold footprint; cbn beta zeta iota delta [heap tape].
    split; [by eexists|]. split; [reflexivity|]. split; [reflexivity|].
    split; [reflexivity|]. split; [by rewrite hp_length|].
    find_obj. eauto.
Qed.

(** ** A label that numpy rejects *)

Lemma mapM_cons_None {A B} (f : A -> option B) x l :
  mapM f l = None -> mapM f (x :: l) = None.
Proof. intros Hl. cbn. rewrite Hl. by destruct (f x). Qed.

Lemma resolve_pair_bad n m r k :
  ~ (- Z.of_nat m <= k < Z.of_nat m)%Z -> resolve_pair n m (r, k) = None.
Proof.
  intros Hk. unfold resolve_pair. cbn.
  rewrite (norm_index_out m k Hk). by destruct (norm_index n r).
Qed.

Lemma mapM_resolve_bad n m (y : list Z) a :
  Exists (fun k => ~ (- Z.of_nat m <= k < Z.of_nat m)%Z) y ->
  mapM (resolve_pair n m) (zip (Z.of_nat <$> seq a (length y)) y) = None.
Proof.
  intros Hy. revert a. induction Hy as [k y Hk|k y Hy IH]; intros a.
  - cbn. by rewrite resolve_pair_bad.
  - cbn [length seq fmap list_fmap zip zip_with].
    apply mapM_cons_None. apply IH.
Qed.

Lemma resolve_index_bad n m (y : list Z) :
  length y = n ->
  Exists (fun k => ~ (- Z.of_nat m <= k < Z.of_nat m)%Z) y ->
  resolve_index n m (py_range n) y = None.
Proof.
  intros Hn Hy. unfold resolve_index, bcast_index.
  rewrite length_py_range, Hn, Nat.eqb_refl. cbn.
  unfold py_range. rewrite <- Hn. by rewrite mapM_resolve_bad.
Qed.

Lemma two_layer_net_bad_label s X model p y reg :
  consistent s X model p ->
  length y = nN p ->
  Exists (fun k => ~ (- Z.of_nat (nC p) <= k < Z.of_nat (nC p))%Z) y ->
  wp (two_layer_net X model (Some y) reg) (fun r _ => r = Raise IndexError) s.
Proof.
  intros Hc Hlen Hbad.
  destruct s as [h0 t0].
  destruct Hc as (d & lW1 & lb1 & lW2 & lb2 & Hd & ? & ? & ? & ?
                  & HX & HW1 & Hb1 & HW2 & Hb2).
  apply dict_at_heap in Hd. apply arr_at_heap in HX, HW1, Hb1, HW2, Hb2.
  cbn [heap] in *.
  apply wp_start. unfold two_layer_net.
  wp_exec.
  eapply wp_fancy_get_fail; [solve_lookup | by apply resolve_index_bad | ].
  reflexivity.
Qed.

(** * The claims *)

Lemma wp_result {A} (m : M A) Q s :
  wp m Q s -> exists r s', m s = (r, s') /\ Q r s'.
Proof.
  unfold wp. destruct (m s) as [r s']. intros HQ. exists r, s'. auto.
Qed.

Lemma ex_consistent : consistent ex_store 5%nat 0%nat ex_net.
Proof.
  exists ex_model, 1%nat, 2%nat, 3%nat, 4%nat. repeat split; reflexivity.
Qed.

Lemma valid_indexable p y : valid_labels p y -> indexable p y.
Proof.
  intros [Hlen Hlab]. split; [exact Hlen|].
  eapply Forall_impl; [exact Hlab|]. intros k Hk. simpl in Hk. lia.
Qed.

(** A label in [0, C) selects its own column. *)
Lemma label_valid p y i :
  valid_labels p y -> (i < nN p)%nat -> label p y i = Z.to_nat (y !!! i).
Proof.
  intros [Hlen Hlab] Hi. unfold label, col_of.
  assert (Hin : y !!! i ∈ y) by (apply (list_elem_of_lookup_total_2 y i); lia).
  rewrite Forall_forall in Hlab. specialize (Hlab _ Hin). simpl in Hlab.
  by rewrite Z.mod_small by lia.
Qed.

Lemma mat_at_ext s l n m f g :
  mat_at s l n m f ->
  (forall i j, (i < n)%nat -> (j < m)%nat -> f i j = g i j) ->
  mat_at s l n m g.
Proof.
  intros (h & Hl & Hf) Hfg. exists h. split; [exact Hl|].
  intros i j Hi Hj. rewrite Hf, Hfg by lia. reflexivity.
Qed.

(** C3: on a batch of shape (N,D) and parameters of consistent shapes, the
    call computes scores = max(0, X.W1 + b1).W2 + b2, the biases added to
    every row, as an (N,C) matrix: it is what the call returns without
    labels, and the fifth array the call allocates with labels. *)
Theorem forward_pass_scores s X model p reg :
  consistent s X model p ->
  let scores i j :=
    rsum (nH p) (fun k =>
      Rmax 0 (rsum (nD p) (fun d => nX p i d * nW1 p d k) + nb1 p k) * nW2 p k j)
    + nb2 p j in
  (exists l s',
     two_layer_net X model None reg s = (Ok (RScores l), s') /\
     mat_at s' l (nN p) (nC p) scores) /\
  (forall y, indexable p y ->
     exists loss g s',
       two_layer_net X model (Some y) reg s = (Ok (RLossGrads loss g), s') /\
       mat_at s' (length (heap s) + 4) (nN p) (nC p) scores).
Proof.
  intros Hc scores. split.
  - destruct (wp_result _ _ _ (two_layer_net_infer s X model p Hc reg))
      as (r & s' & Hrun & -> & _ & _ & Hsc).
    eauto.
  - intros y Hy.
    destruct (wp_result _ _ _ (two_layer_net_train s X model p Hc y Hy reg))
      as (r & s' & Hrun & -> & _ & _ & _ & Hsc & _).
    eauto.
Qed.

Lemma forward_pass_scores_witness :
  consistent ex_store 5%nat 0%nat ex_net /\
  exists l s',
    two_layer_net 5%nat 0%nat None 0 ex_store = (Ok (RScores l), s') /\
    mat_at s' l 1 2 (spec_scores ex_net).
Proof.
  split; [exact ex_consistent|].
  exact (proj1 (forward_pass_scores ex_store 5%nat 0%nat ex_net 0 ex_consistent)).
Defined.

(** C4: without labels the call returns the (N,C) scores matrix and nothing
    else: the result is never a loss with gradients, the store gains the
    five arrays of the forward pass and no dictionary, and the outcome is
    the same for every value of reg. *)
Theorem inference_returns_scores_only s X model reg :
  (forall reg', two_layer_net X model None reg' s = two_layer_net X model None reg s) /\
  (forall loss g, (two_layer_net X model None reg s).1 <> Ok (RLossGrads loss g)) /\
  (forall p, consistent s X model p ->
     exists l s' ext,
       two_layer_net X model None reg s = (Ok (RScores l), s') /\
       mat_at s' l (nN p) (nC p) (spec_scores p) /\
       heap s' = heap s ++ ext /\ length ext = 5%nat /\
       Forall (fun o => exists a, o = Arr a) ext).
Proof.
  split; [reflexivity|]. split.
  - intros loss g Hr.
    pose proof (two_layer_net_footprint X model None reg s) as Hf.
    unfold wp in Hf. rewrite Hr in Hf.
    destruct Hf as (_ & _ & Hne & _). by apply Hne.
  - intros p Hc.
    destruct (wp_result _ _ _ (two_layer_net_infer s X model p Hc reg))
      as (r & s' & Hrun & -> & (ext & Hext & Hlen & Harr) & _ & Hsc).
    exists (length (heap s) + 4)%nat, s', ext. auto.
Qed.

Lemma inference_returns_scores_only_witness :
  consistent ex_store 5%nat 0%nat ex_net /\
  exists l s' ext,
    two_layer_net 5%nat 0%nat None 0.1 ex_store = (Ok (RScores l), s') /\
    mat_at s' l 1 2 (spec_scores ex_net) /\
    heap s' = heap ex_store ++ ext /\ length ext = 5%nat /\
    Forall (fun o => exists a, o = Arr a) ext.
Proof.
  split; [exact ex_consistent|].
  exact (proj2 (proj2 (inference_returns_scores_only ex_store 5%nat 0%nat 0.1))
           ex_net ex_consistent).
Defined.

Lemma ex_valid_labels : valid_labels ex_net [1%Z].
Proof. split; [reflexivity|]. constructor; [simpl; lia|constructor]. Qed.

Lemma spec_loss_valid p y reg :
  valid_labels p y ->
  spec_loss p y reg =
  rsum (nN p) (fun i => - ln (spec_probs p i (Z.to_nat (y !!! i)))) / INR (nN p)
  + 0.5 * reg * sumsq (nD p) (nH p) (nW1 p)
  + 0.5 * reg * sumsq (nH p) (nC p) (nW2 p).
Proof.
  intros Hy. unfold spec_loss, spec_data_loss, spec_reg_loss.
  rewrite (rsum_ext (nN p) _
             (fun i => - ln (spec_probs p i (Z.to_nat (y !!! i))))).
  - lra.
  - intros i Hi. by rewrite label_valid.
Qed.

(** C1: with labels, the loss returned is the mean over the N samples of
    -log(P[i, y[i]]) plus 0.5*reg*(sum of squares of W1) plus
    0.5*reg*(sum of squares of W2), where P[i,j] is exp(scores[i,j]) divided
    by the sum of the exponentials of row i, with no maximum subtracted; the
    regularization term does not depend on the biases. *)
Theorem training_loss s X model p y reg :
  consistent s X model p ->
  valid_labels p y ->
  (0 < nN p)%nat ->
  (exists g s',
     two_layer_net X model (Some y) reg s =
     (Ok (RLossGrads
            (rsum (nN p) (fun i => - ln (spec_probs p i (Z.to_nat (y !!! i))))
               / INR (nN p)
             + 0.5 * reg * sumsq (nD p) (nH p) (nW1 p)
             + 0.5 * reg * sumsq (nH p) (nC p) (nW2 p)) g), s')) /\
  (forall i j,
     spec_probs p i j =
     exp (spec_scores p i j) / rsum (nC p) (fun c => exp (spec_scores p i c))) /\
  (forall b1' b2',
     spec_reg_loss (Net (nN p) (nD p) (nH p) (nC p) (nX p) (nW1 p) b1' (nW2 p) b2') reg
     = 0.5 * reg * sumsq (nD p) (nH p) (nW1 p)
       + 0.5 * reg * sumsq (nH p) (nC p) (nW2 p)).
Proof.
  intros Hc Hy HN. split; [|split; reflexivity].
  destruct (wp_result _ _ _
              (two_layer_net_train s X model p Hc y (valid_indexable p y Hy) reg))
    as (r & s' & Hrun & -> & _).
  rewrite (spec_loss_valid p y reg Hy) in Hrun. eauto.
Qed.

Lemma training_loss_witness :
  consistent ex_store 5%nat 0%nat ex_net /\ valid_labels ex_net [1%Z] /\
  (0 < nN ex_net)%nat /\
  exists g s',
    two_layer_net 5%nat 0%nat (Some [1%Z]) 0.1 ex_store =
    (Ok (RLossGrads
           (rsum 1 (fun i => - ln (spec_probs ex_net i (Z.to_nat ([1%Z] !!! i))))
              / INR 1
            + 0.5 * 0.1 * sumsq 1 1 (nW1 ex_net)
            + 0.5 * 0.1 * sumsq 1 2 (nW2 ex_net)) g), s').
Proof.
  split; [exact ex_consistent|]. split; [exact ex_valid_labels|].
  split; [simpl; lia|].
  exact (proj1 (training_loss ex_store 5%nat 0%nat ex_net [1%Z] 0.1
                  ex_consistent ex_valid_labels (Nat.lt_0_succ 0))).
Defined.

Lemma relu_gate x : Rmax 0 x <= 0 <-> x <= 0.
Proof.
  unfold Rmax. destruct (Rle_dec 0 x); lra.
Qed.

(** C2: with labels, the gradients returned are the analytic ones.
    dScores is P with 1 subtracted at column y[i] of row i, all divided by
    N; dW2 = hidden^T . dScores + reg*W2; db2 = column sums of dScores;
    dHidden = dScores . W2^T, zeroed where the hidden activation is <= 0,
    which is where the pre-activation is <= 0; dW1 = X^T . dHidden + reg*W1;
    db1 = column sums of dHidden. *)
Theorem training_gradients s X model p y reg :
  consistent s X model p ->
  valid_labels p y ->
  (0 < nN p)%nat ->
  let dscores i j :=
    (spec_probs p i j - (if (j =? Z.to_nat (y !!! i))%nat then 1 else 0)) / INR (nN p) in
  let dhidden i k :=
    if Rle_dec (spec_hidden p i k) 0 then 0
    else rsum (nC p) (fun j => dscores i j * nW2 p k j) in
  (exists loss g s' d lW1 lb1 lW2 lb2 lds ldh,
     two_layer_net X model (Some y) reg s = (Ok (RLossGrads loss g), s') /\
     dict_at s' g = Some d /\
     d !! "W1" = Some lW1 /\ d !! "b1" = Some lb1 /\
     d !! "W2" = Some lW2 /\ d !! "b2" = Some lb2 /\
     mat_at s' lds (nN p) (nC p) dscores /\
     mat_at s' lW2 (nH p) (nC p)
       (fun k j => rsum (nN p) (fun i => spec_hidden p i k * dscores i j)
                   + reg * nW2 p k j) /\
     vec_at s' lb2 (nC p) (fun j => rsum (nN p) (fun i => dscores i j)) /\
     mat_at s' ldh (nN p) (nH p) dhidden /\
     mat_at s' lW1 (nD p) (nH p)
       (fun d k => rsum (nN p) (fun i => nX p i d * dhidden i k)
                   + reg * nW1 p d k) /\
     vec_at s' lb1 (nH p) (fun k => rsum (nN p) (fun i => dhidden i k))) /\
  (forall i k, spec_hidden p i k <= 0 <-> spec_pre p i k <= 0).
Proof.
  intros Hc Hy HN dscores dhidden.
  split; [|intros i k; apply relu_gate].
  destruct (wp_result _ _ _
              (two_layer_net_train s X model p Hc y (valid_indexable p y Hy) reg))
    as (r & s' & Hrun & -> & _ & _ & Hd & _ & Hds & Hdh & HW1 & Hb1 & HW2 & Hb2).
  assert (Eds : forall i j, (i < nN p)%nat -> spec_dscores p y i j = dscores i j).
  { intros i j Hi. unfold spec_dscores, dscores. by rewrite label_valid. }
  assert (Edh : forall i k, (i < nN p)%nat -> spec_dhidden p y i k = dhidden i k).
  { intros i k Hi. unfold spec_dhidden, dhidden.
    destruct (Rle_dec (spec_hidden p i k) 0); [reflexivity|].
    apply rsum_ext. intros j Hj. by rewrite Eds. }
  do 3 eexists. eexists. do 6 eexists.
  split; [exact Hrun|]. split; [exact Hd|].
  repeat (split; [reflexivity|]).
  split; [eapply mat_at_ext; [exact Hds|]; intros; by apply Eds|].
  split.
  { eapply mat_at_ext; [exact HW2|]. intros k j Hk Hj.
    unfold spec_dW2, spec_dW2_data. f_equal.
    apply rsum_ext. intros i Hi. by rewrite Eds. }
  split.
  { destruct Hb2 as (f & Hl & Hf). exists f. split; [exact Hl|].
    intros j Hj. rewrite Hf by lia. unfold spec_db2.
    apply rsum_ext. intros i Hi. by rewrite Eds. }
  split; [eapply mat_at_ext; [exact Hdh|]; intros; by apply Edh|].
  split.
  { eapply mat_at_ext; [exact HW1|]. intros a k Ha Hk.
    unfold spec_dW1, spec_dW1_data. f_equal.
    apply rsum_ext. intros i Hi. by rewrite Edh. }
  destruct Hb1 as (f & Hl & Hf). exists f. split; [exact Hl|].
  intros k Hk. rewrite Hf by lia. unfold spec_db1.
  apply rsum_ext. intros i Hi. by rewrite Edh.
Qed.

Lemma training_gradients_witness :
  consistent ex_store 5%nat 0%nat ex_net /\ valid_labels ex_net [1%Z] /\
  (0 < nN ex_net)%nat /\
  exists loss g s' lW1,
    two_layer_net 5%nat 0%nat (Some [1%Z]) 0.1 ex_store
    = (Ok (RLossGrads loss g), s') /\
    mat_at s' lW1 1 1
      (fun d k => rsum 1 (fun i => nX ex_net i d * spec_dhidden ex_net [1%Z] i k)
                  + 0.1 * nW1 ex_net d k).
Proof.
  split; [exact ex_consistent|]. split; [exact ex_valid_labels|].
  split; [simpl; lia|].
  destruct (proj1 (training_gradients ex_store 5%nat 0%nat ex_net [1%Z] 0.1
                     ex_consistent ex_valid_labels (Nat.lt_0_succ 0)))
    as (loss & g & s' & d & lW1 & lb1 & lW2 & lb2 & lds & ldh & Hrun & _ & _
        & _ & _ & _ & _ & _ & _ & _ & HW1 & _).
  exists loss, g, s', lW1. split; [exact Hrun|exact HW1].
Defined.

(** ** Regularization, sign of the loss, bias gradient *)

Lemma sumsq_nonneg n m f : 0 <= sumsq n m f.
Proof.
  unfold sumsq. apply rsum_nonneg. intros i _.
  apply rsum_nonneg. intros j _. nra.
Qed.

Lemma sumsq_pos n m f i j :
  (i < n)%nat -> (j < m)%nat -> f i j <> 0 -> 0 < sumsq n m f.
Proof.
  intros Hi Hj Hf. unfold sumsq.
  eapply Rlt_le_trans; [|apply (rsum_ge_term n _ i Hi)].
  - eapply Rlt_le_trans; [|apply (rsum_ge_term m _ j Hj)].
    + nra.
    + intros j' _. nra.
  - intros i' _. apply rsum_nonneg. intros j' _. nra.
Qed.

Lemma ex_sumsq_W1 : sumsq 1 1 (nW1 ex_net) = 0.
Proof. unfold sumsq. simpl. lra. Qed.

Lemma ex_sumsq_W2 : sumsq 1 2 (nW2 ex_net) = 0.
Proof. unfold sumsq. simpl. lra. Qed.

(** C6 as stated fails: with all weights zero the loss at reg = 1 is the
    loss at reg = 0, not a larger one. *)
Lemma reg_not_strict_counterexample :
  consistent ex_store 5%nat 0%nat ex_net /\ valid_labels ex_net [1%Z] /\ 0 < 1 /\
  exists loss0 g0 s0 loss1 g1 s1,
    two_layer_net 5%nat 0%nat (Some [1%Z]) 0 ex_store = (Ok (RLossGrads loss0 g0), s0) /\
    two_layer_net 5%nat 0%nat (Some [1%Z]) 1 ex_store = (Ok (RLossGrads loss1 g1), s1) /\
    ~ loss0 < loss1.
Proof.
  split; [exact ex_consistent|]. split; [exact ex_valid_labels|].
  split; [lra|].
  pose proof (valid_indexable _ _ ex_valid_labels) as Hy.
  destruct (wp_result _ _ _
              (two_layer_net_train ex_store 5%nat 0%nat ex_net ex_consistent [1%Z] Hy 0))
    as (r0 & s0 & Hrun0 & -> & _).
  destruct (wp_result _ _ _
              (two_layer_net_train ex_store 5%nat 0%nat ex_net ex_consistent [1%Z] Hy 1))
    as (r1 & s1 & Hrun1 & -> & _).
  do 6 eexists. split; [exact Hrun0|]. split; [exact Hrun1|].
  unfold spec_loss, spec_reg_loss.
  change (nD ex_net) with 1%nat. change (nH ex_net) with 1%nat.
  change (nC ex_net) with 2%nat.
  rewrite ex_sumsq_W1, ex_sumsq_W2. lra.
Qed.

(** C6, amended: over the real numbers, with X, the parameters and y fixed,
    the loss at reg is the
    loss at reg = 0 plus 0.5*reg*(|W1|^2 + |W2|^2); a larger reg never gives
    a smaller loss, and gives a larger one when some weight is not zero; the
    data loss, dScores, db1, db2 and the parts of dW1 and dW2 that come from
    dScores are the same for every reg. *)
Theorem reg_only_effect s X model p y :
  consistent s X model p ->
  valid_labels p y ->
  (0 < nN p)%nat ->
  let norms := sumsq (nD p) (nH p) (nW1 p) + sumsq (nH p) (nC p) (nW2 p) in
  exists data ds g1 g2 b1 b2,
    (forall reg,
       exists g s' d lW1 lb1 lW2 lb2,
         two_layer_net X model (Some y) reg s
         = (Ok (RLossGrads (data + 0.5 * reg * norms) g), s') /\
         dict_at s' g = Some d /\
         d !! "W1" = Some lW1 /\ d !! "b1" = Some lb1 /\
         d !! "W2" = Some lW2 /\ d !! "b2" = Some lb2 /\
         mat_at s' (length (heap s) + 7) (nN p) (nC p) ds /\
         mat_at s' lW1 (nD p) (nH p) (fun i j => g1 i j + reg * nW1 p i j) /\
         vec_at s' lb1 (nH p) b1 /\
         mat_at s' lW2 (nH p) (nC p) (fun i j => g2 i j + reg * nW2 p i j) /\
         vec_at s' lb2 (nC p) b2) /\
    (forall reg reg', reg <= reg' ->
       data + 0.5 * reg * norms <= data + 0.5 * reg' * norms) /\
    (forall reg reg', reg < reg' ->
       (exists i j, (i < nD p)%nat /\ (j < nH p)%nat /\ nW1 p i j <> 0) \/
       (exists i j, (i < nH p)%nat /\ (j < nC p)%nat /\ nW2 p i j <> 0) ->
       data + 0.5 * reg * norms < data + 0.5 * reg' * norms).
Proof.
  intros Hc Hy HN norms.
  exists (spec_data_loss p y), (spec_dscores p y), (spec_dW1_data p y),
    (spec_dW2_data p y), (spec_db1 p y), (spec_db2 p y).
  assert (Hn1 := sumsq_nonneg (nD p) (nH p) (nW1 p)).
  assert (Hn2 := sumsq_nonneg (nH p) (nC p) (nW2 p)).
  split; [|split].
  - intros reg.
    destruct (wp_result _ _ _
                (two_layer_net_train s X model p Hc y (valid_indexable p y Hy) reg))
      as (r & s' & Hrun & -> & _ & _ & Hd & _ & Hds & _ & HW1 & Hb1 & HW2 & Hb2).
    replace (spec_loss p y reg) with (spec_data_loss p y + 0.5 * reg * norms)
      in Hrun by (unfold spec_loss, spec_reg_loss, norms; lra).
    do 7 eexists. split; [exact Hrun|]. split; [exact Hd|].
    repeat (split; [reflexivity|]).
    repeat split; assumption.
  - intros reg reg' Hle. unfold norms. nra.
  - intros reg reg' Hlt Hw.
    assert (0 < norms).
    { unfold norms. destruct Hw as [(i & j & Hi & Hj & Hw)|(i & j & Hi & Hj & Hw)].
      - pose proof (sumsq_pos _ _ _ i j Hi Hj Hw). lra.
      - pose proof (sumsq_pos _ _ _ i j Hi Hj Hw). lra. }
    nra.
Qed.

Lemma ex2_consistent_labels :
  consistent ex_store2 5%nat 0%nat ex_net2 /\ valid_labels ex_net2 [2%Z; 0%Z].
Proof.
  split.
  - exists (<["b2" := 4%nat]> (<["W2" := 3%nat]> (<["b1" := 2%nat]> (<["W1" := 1%nat]> ∅)))),
      1%nat, 2%nat, 3%nat, 4%nat.
    repeat split; reflexivity.
  - split; [reflexivity|]. repeat (constructor; [simpl; lia|]). constructor.
Qed.

Lemma ex2_norms :
  sumsq (nD ex_net2) (nH ex_net2) (nW1 ex_net2)
  + sumsq (nH ex_net2) (nC ex_net2) (nW2 ex_net2) = 4.
Proof. unfold sumsq. simpl. lra. Qed.

Lemma ex2_W1_nonzero :
  exists i j, (i < nD ex_net2)%nat /\ (j < nH ex_net2)%nat /\ nW1 ex_net2 i j <> 0.
Proof. exists 0%nat, 0%nat. simpl. repeat split; (lia || lra). Qed.

Lemma reg_only_effect_witness :
  consistent ex_store2 5%nat 0%nat ex_net2 /\ valid_labels ex_net2 [2%Z; 0%Z] /\
  (0 < nN ex_net2)%nat /\
  exists data,
    (forall reg, exists g s',
       two_layer_net 5%nat 0%nat (Some [2%Z; 0%Z]) reg ex_store2
       = (Ok (RLossGrads (data + 0.5 * reg * 4) g), s')) /\
    0 <= 1 /\ 0 < 1 /\
    (exists i j, (i < nD ex_net2)%nat /\ (j < nH ex_net2)%nat /\ nW1 ex_net2 i j <> 0) /\
    data + 0.5 * 0 * 4 <= data + 0.5 * 1 * 4 /\
    data + 0.5 * 0 * 4 < data + 0.5 * 1 * 4.
Proof.
  assert (HN : (0 < nN ex_net2)%nat) by (simpl; lia).
  assert (Hle : 0 <= 1) by lra.
  assert (Hlt : 0 < 1) by lra.
  split; [exact (proj1 ex2_consistent_labels)|].
  split; [exact (proj2 ex2_consistent_labels)|].
  split; [exact HN|].
  destruct (reg_only_effect ex_store2 5%nat 0%nat ex_net2 [2%Z; 0%Z]
              (proj1 ex2_consistent_labels) (proj2 ex2_consistent_labels) HN)
    as (data & ds & g1 & g2 & b1 & b2 & Hruns & Hmono & Hstrict).
  rewrite ex2_norms in Hruns, Hmono, Hstrict.
  exists data. split.
  - intros reg.
    destruct (Hruns reg) as (g & s' & d & lW1 & lb1 & lW2 & lb2 & Hrun & _).
    exists g, s'. exact Hrun.
  - split; [exact Hle|]. split; [exact Hlt|]. split; [exact ex2_W1_nonzero|].
    split; [exact (Hmono 0 1 Hle)|].
    exact (Hstrict 0 1 Hlt (or_introl ex2_W1_nonzero)).
Defined.

Lemma spec_probs_row_pos p i :
  (0 < nC p)%nat -> 0 < rsum (nC p) (fun c => exp (spec_scores p i c)).
Proof. intros HC. apply rsum_pos; [exact HC|]. intros c _. apply exp_pos. Qed.

Lemma spec_probs_bounds p i j :
  (j < nC p)%nat -> 0 < spec_probs p i j <= 1.
Proof.
  intros Hj. unfold spec_probs.
  assert (Hz : 0 < rsum (nC p) (fun c => exp (spec_scores p i c)))
    by (apply spec_probs_row_pos; lia).
  assert (He : exp (spec_scores p i j) <= rsum (nC p) (fun c => exp (spec_scores p i c))).
  { apply (rsum_ge_term (nC p) (fun c => exp (spec_scores p i c)) j Hj).
    intros c _. apply Rlt_le, exp_pos. }
  pose proof (exp_pos (spec_scores p i j)) as Hp.
  split.
  - apply Rdiv_lt_0_compat; assumption.
  - apply (Rmult_le_reg_r (rsum (nC p) (fun c => exp (spec_scores p i c)))); [exact Hz|].
    unfold Rdiv. rewrite Rmult_assoc, Rinv_l by lra. lra.
Qed.

Lemma spec_probs_row_sum p i :
  (0 < nC p)%nat -> rsum (nC p) (fun j => spec_probs p i j) = 1.
Proof.
  intros HC. unfold spec_probs, Rdiv. rewrite rsum_scale.
  apply Rinv_r. pose proof (spec_probs_row_pos p i HC). lra.
Qed.

Lemma neg_ln_nonneg x : 0 < x <= 1 -> 0 <= - ln x.
Proof.
  intros [Hpos Hle]. destruct (Rle_lt_or_eq_dec _ _ Hle) as [Hlt| ->].
  - pose proof (ln_increasing x 1 Hpos Hlt) as Hln. rewrite ln_1 in Hln. lra.
  - rewrite ln_1. lra.
Qed.

Lemma valid_label_lt p y i :
  valid_labels p y -> (i < nN p)%nat -> (Z.to_nat (y !!! i) < nC p)%nat.
Proof.
  intros Hy Hi. rewrite <- (label_valid p y i Hy Hi).
  apply label_lt; [by apply valid_indexable|exact Hi].
Qed.

(** C7: on consistent shapes, labels in [0,C), at least one sample and
    reg >= 0, the loss returned is >= 0: every probability is in (0,1], so
    every -log(P[i,y[i]]) is >= 0, and the regularization term is >= 0. *)
Theorem loss_nonneg s X model p y reg :
  consistent s X model p ->
  valid_labels p y ->
  (0 < nN p)%nat ->
  0 <= reg ->
  (exists loss g s',
     two_layer_net X model (Some y) reg s = (Ok (RLossGrads loss g), s') /\
     0 <= loss) /\
  (forall i, (i < nN p)%nat ->
     0 < spec_probs p i (Z.to_nat (y !!! i)) <= 1 /\
     0 <= - ln (spec_probs p i (Z.to_nat (y !!! i)))) /\
  0 <= 0.5 * reg * sumsq (nD p) (nH p) (nW1 p)
       + 0.5 * reg * sumsq (nH p) (nC p) (nW2 p).
Proof.
  intros Hc Hy HN Hreg.
  assert (Hterm : forall i, (i < nN p)%nat ->
            0 < spec_probs p i (Z.to_nat (y !!! i)) <= 1 /\
            0 <= - ln (spec_probs p i (Z.to_nat (y !!! i)))).
  { intros i Hi.
    pose proof (spec_probs_bounds p i _ (valid_label_lt p y i Hy Hi)) as Hb.
    split; [exact Hb|]. by apply neg_ln_nonneg. }
  assert (Hr : 0 <= 0.5 * reg * sumsq (nD p) (nH p) (nW1 p)
                    + 0.5 * reg * sumsq (nH p) (nC p) (nW2 p)).
  { pose proof (sumsq_nonneg (nD p) (nH p) (nW1 p)).
    pose proof (sumsq_nonneg (nH p) (nC p) (nW2 p)). nra. }
  split; [|split; assumption].
  destruct (wp_result _ _ _
              (two_layer_net_train s X model p Hc y (valid_indexable p y Hy) reg))
    as (r & s' & Hrun & -> & _).
  do 3 eexists. split; [exact Hrun|].
  rewrite (spec_loss_valid p y reg Hy).
  assert (0 <= rsum (nN p) (fun i => - ln (spec_probs p i (Z.to_nat (y !!! i))))
               / INR (nN p)).
  { apply Rmult_le_pos.
    - apply rsum_nonneg. intros i Hi. by apply Hterm.
    - apply Rlt_le, Rinv_0_lt_compat, lt_0_INR. exact HN. }
  lra.
Qed.

Lemma loss_nonneg_witness :
  consistent ex_store 5%nat 0%nat ex_net /\ valid_labels ex_net [1%Z] /\
  (0 < nN ex_net)%nat /\ 0 <= 0.1 /\
  exists loss g s',
    two_layer_net 5%nat 0%nat (Some [1%Z]) 0.1 ex_store
    = (Ok (RLossGrads loss g), s') /\ 0 <= loss.
Proof.
  assert (Hreg : 0 <= 0.1) by lra.
  split; [exact ex_consistent|]. split; [exact ex_valid_labels|].
  split; [simpl; lia|]. split; [exact Hreg|].
  exact (proj1 (loss_nonneg ex_store 5%nat 0%nat ex_net [1%Z] 0.1
                  ex_consistent ex_valid_labels (Nat.lt_0_succ 0) Hreg)).
Defined.

Lemma spec_dscores_row_sum p y i :
  valid_labels p y -> (i < nN p)%nat ->
  rsum (nC p) (fun j => spec_dscores p y i j) = 0.
Proof.
  intros Hy Hi.
  assert (Hl : (label p y i < nC p)%nat)
    by (apply label_lt; [by apply valid_indexable|exact Hi]).
  unfold spec_dscores, Rdiv. rewrite rsum_scale.
  rewrite (rsum_ext (nC p) _
             (fun j => spec_probs p i j + - (if (j =? label p y i)%nat then 1 else 0)))
    by (intros; lra).
  rewrite rsum_plus, spec_probs_row_sum by lia.
  rewrite (rsum_ext (nC p) (fun j => - (if (j =? label p y i)%nat then 1 else 0))
             (fun j => (if (j =? label p y i)%nat then 1 else 0) * -1))
    by (intros; lra).
  rewrite rsum_scale, rsum_indicator by exact Hl. lra.
Qed.

(** C10: on consistent shapes and labels in [0,C), the entries of the
    gradient returned for b2 sum to zero: every row of P sums to 1, every
    row of dScores sums to zero, and db2 is the vector of column sums of
    dScores. *)
Theorem bias_gradient_sums_to_zero s X model p y reg :
  consistent s X model p ->
  valid_labels p y ->
  (exists loss g s' d lb2 db2,
     two_layer_net X model (Some y) reg s = (Ok (RLossGrads loss g), s') /\
     dict_at s' g = Some d /\ d !! "b2" = Some lb2 /\
     arr_at s' lb2 = Some (Vec (nC p) db2) /\
     rsum (nC p) db2 = 0) /\
  (forall i, (i < nN p)%nat -> rsum (nC p) (fun j => spec_probs p i j) = 1) /\
  (forall i, (i < nN p)%nat -> rsum (nC p) (fun j => spec_dscores p y i j) = 0).
Proof.
  intros Hc Hy.
  assert (Hrow : forall i, (i < nN p)%nat ->
                   rsum (nC p) (fun j => spec_dscores p y i j) = 0)
    by (intros; by apply spec_dscores_row_sum).
  split; [|split; [|exact Hrow]].
  - destruct (wp_result _ _ _
                (two_layer_net_train s X model p Hc y (valid_indexable p y Hy) reg))
      as (r & s' & Hrun & -> & _ & _ & Hd & _ & _ & _ & _ & _ & _ & Hb2).
    destruct Hb2 as (db2 & Hl & Hf).
    do 6 eexists. split; [exact Hrun|]. split; [exact Hd|].
    split; [reflexivity|]. split; [exact Hl|].
    rewrite (rsum_ext (nC p) db2 (spec_db2 p y)) by exact Hf.
    unfold spec_db2. rewrite <- rsum_swap.
    rewrite (rsum_ext (nN p) _ (fun _ => 0)) by exact Hrow.
    rewrite rsum_const. lra.
  - intros i Hi. apply spec_probs_row_sum.
    pose proof (valid_label_lt p y i Hy Hi). lia.
Qed.

Lemma bias_gradient_sums_to_zero_witness :
  consistent ex_store 5%nat 0%nat ex_net /\ valid_labels ex_net [1%Z] /\
  exists loss g s' d lb2 db2,
    two_layer_net 5%nat 0%nat (Some [1%Z]) 0.1 ex_store
    = (Ok (RLossGrads loss g), s') /\
    dict_at s' g = Some d /\ d !! "b2" = Some lb2 /\
    arr_at s' lb2 = Some (Vec 2 db2) /\
    rsum 2 db2 = 0.
Proof.
  split; [exact ex_consistent|]. split; [exact ex_valid_labels|].
  exact (proj1 (bias_gradient_sums_to_zero ex_store 5%nat 0%nat ex_net [1%Z] 0.1
                  ex_consistent ex_valid_labels)).
Defined.

(** ** Labels out of range *)

(** C8 as stated fails: the label -1 is outside [0,C), and the call does not
    fail; numpy counts a negative index from the last column. *)
Lemma negative_label_accepted_counterexample :
  consistent ex_store 5%nat 0%nat ex_net /\
  length [(-1)%Z] = nN ex_net /\
  Exists (fun k => ~ (0 <= k < Z.of_nat (nC ex_net))%Z) [(-1)%Z] /\
  (two_layer_net 5%nat 0%nat (Some [(-1)%Z]) 0 ex_store).1 <> Raise IndexError.
Proof.
  split; [exact ex_consistent|]. split; [reflexivity|].
  split; [apply Exists_cons_hd; simpl; lia|].
  assert (Hy : indexable ex_net [(-1)%Z]).
  { split; [reflexivity|]. constructor; [simpl; lia|constructor]. }
  destruct (wp_result _ _ _
              (two_layer_net_train ex_store 5%nat 0%nat ex_net ex_consistent _ Hy 0))
    as (r & s' & Hrun & -> & _).
  rewrite Hrun. discriminate.
Qed.

(** C8, amended: with consistent shapes and one label per sample, the
    labels being 64-bit signed integers, the call fails with an
    out-of-range indexing error exactly when some label is outside [-C, C).
    Labels in [-C, C) are all accepted, a label k in [-C, 0) selecting
    column C + k. *)
Theorem label_out_of_range s X model p y reg :
  consistent s X model p ->
  length y = nN p ->
  Forall int64 y ->
  ((two_layer_net X model (Some y) reg s).1 = Raise IndexError <->
   Exists (fun k => ~ (- Z.of_nat (nC p) <= k < Z.of_nat (nC p))%Z) y) /\
  (Forall (fun k => - Z.of_nat (nC p) <= k < Z.of_nat (nC p))%Z y ->
   exists loss g s',
     two_layer_net X model (Some y) reg s = (Ok (RLossGrads loss g), s') /\
     ((0 < nN p)%nat ->
      loss = rsum (nN p) (fun i => - ln (spec_probs p i (col_of (nC p) (y !!! i))))
               / INR (nN p)
             + spec_reg_loss p reg)) /\
  (forall k, (- Z.of_nat (nC p) <= k < 0)%Z ->
     col_of (nC p) k = Z.to_nat (Z.of_nat (nC p) + k)).
Proof.
  intros Hc Hlen _.
  assert (Hok : Forall (fun k => - Z.of_nat (nC p) <= k < Z.of_nat (nC p))%Z y ->
                exists loss g s',
                  two_layer_net X model (Some y) reg s
                  = (Ok (RLossGrads loss g), s') /\
                  ((0 < nN p)%nat ->
                   loss = rsum (nN p)
                            (fun i => - ln (spec_probs p i (col_of (nC p) (y !!! i))))
                            / INR (nN p)
                          + spec_reg_loss p reg)).
  { intros Hy.
    destruct (wp_result _ _ _
                (two_layer_net_train s X model p Hc y (conj Hlen Hy) reg))
      as (r & s' & Hrun & -> & _).
    do 3 eexists. split; [exact Hrun|]. reflexivity. }
  split; [|split; [exact Hok|]].
  - split.
    + intros Hr.
      destruct (decide (Exists (fun k => ~ (- Z.of_nat (nC p) <= k < Z.of_nat (nC p))%Z) y))
        as [He|Hne]; [exact He|].
      exfalso.
      assert (Hy : Forall (fun k => - Z.of_nat (nC p) <= k < Z.of_nat (nC p))%Z y).
      { apply Forall_forall. intros k Hk.
        destruct (decide (- Z.of_nat (nC p) <= k < Z.of_nat (nC p))%Z) as [|Hbad];
          [assumption|].
        exfalso. apply Hne. apply Exists_exists. eauto. }
      destruct (Hok Hy) as (loss & g & s' & Hrun & _).
      rewrite Hrun in Hr. discriminate.
    + intros He.
      pose proof (two_layer_net_bad_label s X model p y reg Hc Hlen He) as Hw.
      exact Hw.
  - intros k Hk. unfold col_of. f_equal.
    rewrite <- (Z.mod_add k 1 (Z.of_nat (nC p))) by lia.
    rewrite Z.mod_small by lia. lia.
Qed.

Lemma label_out_of_range_witness :
  consistent ex_store 5%nat 0%nat ex_net /\
  length [(-1)%Z] = nN ex_net /\
  Forall int64 [(-1)%Z] /\
  ((two_layer_net 5%nat 0%nat (Some [(-1)%Z]) 0 ex_store).1 = Raise IndexError <->
   Exists (fun k => ~ (- Z.of_nat (nC ex_net) <= k < Z.of_nat (nC ex_net))%Z) [(-1)%Z]).
Proof.
  assert (H64 : Forall int64 [(-1)%Z])
    by (constructor; [unfold int64; lia|constructor]).
  split; [exact ex_consistent|]. split; [reflexivity|]. split; [exact H64|].
  exact (proj1 (label_out_of_range ex_store 5%nat 0%nat ex_net [(-1)%Z] 0
                  ex_consistent eq_refl H64)).
Defined.

(** ** The store around a call *)

(** C9: a call never changes an object that existed before it, so the
    parameter dictionary and the arrays W1, b1, W2, b2 (and X) are what they
    were, whatever the operands and whether or not the call fails; with
    labels, the gradient dictionary and the four arrays under its keys W1,
    b1, W2, b2 sit at places that held no object before the call. *)
Theorem two_layer_net_never_mutates X model y reg s :
  (forall l o,
     heap s !! l = Some o ->
     heap (two_layer_net X model y reg s).2 !! l = Some o) /\
  (forall loss g,
     (two_layer_net X model y reg s).1 = Ok (RLossGrads loss g) ->
     exists d,
       dict_at (two_layer_net X model y reg s).2 g = Some d /\
       dom d = {[ "W1"; "b1"; "W2"; "b2" ]} /\
       heap s !! g = None /\
       forall k l, d !! k = Some l ->
         heap s !! l = None /\
         exists a, arr_at (two_layer_net X model y reg s).2 l = Some a).
Proof.
  pose proof (two_layer_net_footprint X model y reg s) as Hf.
  unfold wp in Hf.
  destruct (two_layer_net X model y reg s) as [r s'].
  cbn [fst snd] in *.
  destruct Hf as ((ext & Hext) & _ & Hr).
  split.
  - intros l o Hl. rewrite Hext. by apply lookup_app_l_Some.
  - intros loss g ->.
    destruct Hr as (_ & -> & _ & Hd & H1 & H2 & H3 & H4).
    eexists. split; [exact Hd|].
    split; [rewrite !dom_insert_L, dom_empty_L; set_solver|].
    split; [apply lookup_ge_None; lia|].
    intros k l Hk.
    repeat (rewrite lookup_insert in Hk; case_decide;
            [inversion Hk; subst; split; [apply lookup_ge_None; lia|assumption]|]).
    by rewrite lookup_empty in Hk.
Qed.

Lemma two_layer_net_never_mutates_witness :
  heap ex_store !! 1%nat = Some (Arr (Mat 1 1 (nW1 ex_net))) /\
  heap (two_layer_net 5%nat 0%nat (Some [1%Z]) 0.1 ex_store).2 !! 1%nat
  = Some (Arr (Mat 1 1 (nW1 ex_net))).
Proof.
  split; [reflexivity|].
  exact (proj1 (two_layer_net_never_mutates 5%nat 0%nat (Some [1%Z]) 0.1 ex_store)
           1%nat _ eq_refl).
Defined.

(** ** The initializer *)

Lemma wp_np_random_randn n m (Q : outcome loc -> state -> Prop) h0 ext t :
  (0 <= n)%Z -> (0 <= m)%Z ->
  wp (alloc_arr (Mat (Z.to_nat n) (Z.to_nat m)
                   (fun i j => t (i * Z.to_nat m + j)%nat)))
     Q (State (hp h0 ext) (fun k => t (Z.to_nat n * Z.to_nat m + k)%nat)) ->
  wp (np_random_randn n m) Q (State (hp h0 ext) t).
Proof.
  intros Hn Hm HQ. unfold np_random_randn.
  destruct (Z.ltb_spec n 0); [lia|]. destruct (Z.ltb_spec m 0); [lia|].
  cbn [orb]. apply wp_bind. exact HQ.
Qed.

Lemma wp_np_zeros n (Q : outcome loc -> state -> Prop) s :
  (0 <= n)%Z ->
  wp (alloc_arr (Vec (Z.to_nat n) (fun _ => 0))) Q s ->
  wp (np_zeros n) Q s.
Proof.
  intros Hn HQ. unfold np_zeros. destruct (Z.ltb_spec n 0); [lia|]. exact HQ.
Qed.

Lemma row_major_inj m i j i' j' :
  (j < m)%nat -> (j' < m)%nat -> (i * m + j = i' * m + j')%nat -> i = i' /\ j = j'.
Proof.
  intros Hj Hj' E. apply (Nat.div_mod_unique m); [exact Hj|exact Hj'|lia].
Qed.

Lemma row_major_lt n m i j :
  (i < n)%nat -> (j < m)%nat -> (i * m + j < n * m)%nat.
Proof. intros Hi Hj. nia. Qed.

(** C5: for positive D, H, C the initializer returns a dictionary with
    exactly the keys W1, b1, W2, b2, holding arrays of shapes (D,H), (H,),
    (H,C), (C,); b1 and b2 are zero everywhere, and every entry of W1 and W2
    is 0.00001 times a number of the random source, each entry its own: the
    D*H entries of W1 take the first D*H numbers row by row, the H*C entries
    of W2 the next H*C, and the source is left after them. *)
Theorem init_two_layer_model_spec (D H C : Z) (s : state) :
  (0 < D)%Z -> (0 < H)%Z -> (0 < C)%Z ->
  let d := Z.to_nat D in
  let h := Z.to_nat H in
  let c := Z.to_nat C in
  exists model s' m lW1 lb1 lW2 lb2 fW1 fb1 fW2 fb2,
    init_two_layer_model D H C s = (Ok model, s') /\
    dict_at s' model = Some m /\
    dom m = {[ "W1"; "b1"; "W2"; "b2" ]} /\
    m !! "W1" = Some lW1 /\ m !! "b1" = Some lb1 /\
    m !! "W2" = Some lW2 /\ m !! "b2" = Some lb2 /\
    arr_at s' lW1 = Some (Mat d h fW1) /\
    arr_at s' lb1 = Some (Vec h fb1) /\
    arr_at s' lW2 = Some (Mat h c fW2) /\
    arr_at s' lb2 = Some (Vec c fb2) /\
    (forall k, fb1 k = 0) /\ (forall k, fb2 k = 0) /\
    (forall i j, fW1 i j = 0.00001 * tape s (i * h + j)%nat) /\
    (forall i j, fW2 i j = 0.00001 * tape s (d * h + (i * c + j))%nat) /\
    (forall i j i' j', (j < h)%nat -> (j' < h)%nat ->
       (i * h + j = i' * h + j')%nat -> i = i' /\ j = j') /\
    (forall i j i' j', (j < c)%nat -> (j' < c)%nat ->
       (d * h + (i * c + j) = d * h + (i' * c + j'))%nat -> i = i' /\ j = j') /\
    (forall i j i' j', (i < d)%nat -> (j < h)%nat ->
       (i * h + j)%nat <> (d * h + (i' * c + j'))%nat) /\
    (forall k, tape s' k = tape s (d * h + h * c + k)%nat) /\
    extends s s'.
Proof.
  intros HD HH HC d h c.
  assert (Hrun : wp (init_two_layer_model D H C)
            (fun r s' =>
               exists fW1 fb1 fW2 fb2,
                 r = Ok (length (heap s)) /\
                 heap s' = heap s ++
                   [Dict (<["b2" := (length (heap s) + 6)%nat]>
                         (<["W2" := (length (heap s) + 5)%nat]>
                         (<["b1" := (length (heap s) + 3)%nat]>
                         (<["W1" := (length (heap s) + 2)%nat]> ∅))));
                    Arr (Mat d h (fun i j => tape s (i * h + j)%nat));
                    Arr (Mat d h fW1); Arr (Vec h fb1);
                    Arr (Mat h c (fun i j => tape s (d * h + (i * c + j))%nat));
                    Arr (Mat h c fW2); Arr (Vec c fb2)] /\
                 (forall k, fb1 k = 0) /\ (forall k, fb2 k = 0) /\
                 (forall i j, fW1 i j = 0.00001 * tape s (i * h + j)%nat) /\
                 (forall i j, fW2 i j = 0.00001 * tape s (d * h + (i * c + j))%nat) /\
                 (forall k, tape s' k = tape s (d * h + h * c + k)%nat)) s).
  { destruct s as [h0 t0]. cbn [heap tape]. apply wp_start.
    unfold init_two_layer_model.
    repeat (first [ apply wp_np_random_randn; [lia|lia|]; apply wp_alloc_hp
                  | apply wp_np_zeros; [lia|]
                  | wp_unfold; wp_mem ];
            wp_simpl).
    exists F, V, F0, V0.
    split; [by rewrite Nat.add_0_r|].
    split; [reflexivity|].
    split; [intros k; by rewrite HV|]. split; [intros k; by rewrite HV0|].
    split; [exact HF|]. split; [exact HF0|].
    intros k. f_equal. fold d h c. lia. }
  apply wp_result in Hrun.
  destruct Hrun as (r & s' & Hinit & fW1 & fb1 & fW2 & fb2 & -> & Hheap
                    & Hb1 & Hb2 & HW1 & HW2 & Htape).
  exists (length (heap s)), s'. eexists.
  exists (length (heap s) + 2)%nat, (length (heap s) + 3)%nat,
    (length (heap s) + 5)%nat, (length (heap s) + 6)%nat, fW1, fb1, fW2, fb2.
  pose proof (f_equal (drop (length (heap s))) Hheap) as Hext.
  rewrite drop_app_length in Hext.
  assert (Hl : forall k, heap s' !! (length (heap s) + k)%nat
                         = drop (length (heap s)) (heap s') !! k)
    by (intros k; by rewrite lookup_drop).
  rewrite Hext in Hl.
  split; [exact Hinit|].
  split; [unfold dict_at; rewrite <- (Nat.add_0_r (length (heap s))), Hl; reflexivity|].
  split; [rewrite !dom_insert_L, dom_empty_L; set_solver|].
  repeat (split; [reflexivity|]).
  repeat (split; [unfold arr_at; rewrite Hl; reflexivity|]).
  repeat (split; [assumption|]).
  split; [intros i j i' j' Hj Hj' E; by apply (row_major_inj h)|].
  split; [intros i j i' j' Hj Hj' E; apply (row_major_inj c); [lia|lia|lia]|].
  split; [intros i j i' j' Hi Hj; pose proof (row_major_lt d h i j Hi Hj); lia|].
  split; [exact Htape|]. eexists; exact Hheap.
Qed.

Lemma init_two_layer_model_spec_witness :
  (0 < 2)%Z /\ (0 < 3)%Z /\ (0 < 1)%Z /\
  exists model s',
    init_two_layer_model 2 3 1 ex_store = (Ok model, s') /\
    exists m, dict_at s' model = Some m /\ dom m = {[ "W1"; "b1"; "W2"; "b2" ]}.
Proof.
  split; [lia|]. split; [lia|]. split; [lia|].
  destruct (init_two_layer_model_spec 2 3 1 ex_store eq_refl eq_refl eq_refl)
    as (model & s' & m & lW1 & lb1 & lW2 & lb2 & fW1 & fb1 & fW2 & fb2
        & Hrun & Hd & Hdom & _).
  exists model, s'. split; [exact Hrun|]. exists m. split; [exact Hd|exact Hdom].
Defined.

(** ** The small batch, worked out *)

Lemma ex_scores i j : spec_scores ex_net i j = 0.
Proof.
  unfold spec_scores, spec_hidden, spec_pre. simpl. rewrite Rmax_left by lra. lra.
Qed.

Lemma ex_probs i j : spec_probs ex_net i j = 1 / 2.
Proof.
  unfold spec_probs. simpl. rewrite !ex_scores, exp_0. lra.
Qed.

(** On the small batch every class has probability 1/2, so without
    regularization the loss is ln 2. *)
Example ex_loss :
  exists g s',
    two_layer_net 5%nat 0%nat (Some [1%Z]) 0 ex_store = (Ok (RLossGrads (ln 2) g), s').
Proof.
  pose proof (valid_indexable _ _ ex_valid_labels) as Hy.
  destruct (wp_result _ _ _
              (two_layer_net_train ex_store 5%nat 0%nat ex_net ex_consistent [1%Z] Hy 0))
    as (r & s' & Hrun & -> & _).
  replace (spec_loss ex_net [1%Z] 0) with (ln 2) in Hrun; [eauto|].
  unfold spec_loss, spec_data_loss, spec_reg_loss. simpl.
  rewrite ex_probs.
  replace (1 / 2) with (/ 2) by lra. rewrite ln_Rinv by lra. lra.
Qed.

(** With the label -1 the second (last) column is selected. *)
Example ex_label_wraps : label ex_net [(-1)%Z] 0 = 1%nat.
Proof. reflexivity. Qed.

Example ex_db2 j : (j < 2)%nat ->
  spec_db2 ex_net [1%Z] j = if (j =? 1)%nat then - (1 / 2) else 1 / 2.
Proof.
  intros Hj. unfold spec_db2, spec_dscores. simpl. rewrite ex_probs.
  change (label ex_net [1%Z] 0) with 1%nat.
  destruct j as [|[|]]; simpl; lra || lia.
Qed.

(** * Further properties of the two functions *)

(** ** Calls that fail *)

Lemma getitem_run s d m k :
  dict_at s d = Some m ->
  getitem d k s = match m !! k with
                  | Some l => (Ok l, s)
                  | None => (Raise KeyError, s)
                  end.
Proof.
  intros Hd. apply dict_at_heap in Hd.
  unfold getitem, load_dict. rewrite !bind_run. unfold load. rewrite Hd.
  cbn. by destruct (m !! k).
Qed.

(** X1: when the parameter dictionary lacks one of the keys W1, b1, W2, b2,
    the call raises KeyError, with or without labels, before anything is
    allocated: the store is left exactly as it was. *)
Theorem missing_key_raises s X model d y reg :
  dict_at s model = Some d ->
  d !! "W1" = None \/ d !! "b1" = None \/ d !! "W2" = None \/ d !! "b2" = None ->
  two_layer_net X model y reg s = (Raise KeyError, s).
Proof.
  intros Hd Hmiss. unfold two_layer_net.
  rewrite bind_run, (getitem_run s model d "W1" Hd).
  destruct (d !! "W1") as [l1|]; [|reflexivity].
  rewrite bind_run, (getitem_run s model d "b1" Hd).
  destruct (d !! "b1") as [l2|]; [|reflexivity].
  rewrite bind_run, (getitem_run s model d "W2" Hd).
  destruct (d !! "W2") as [l3|]; [|reflexivity].
  rewrite bind_run, (getitem_run s model d "b2" Hd).
  destruct (d !! "b2") as [l4|]; [|reflexivity].
  destruct Hmiss as [?|[?|[?|?]]]; discriminate.
Qed.

Lemma missing_key_raises_witness :
  dict_at (State [Dict (delete "W2" ex_model)] (fun _ => 0)) 0
  = Some (delete "W2" ex_model) /\
  two_layer_net 1%nat 0%nat None 0 (State [Dict (delete "W2" ex_model)] (fun _ => 0))
  = (Raise KeyError, State [Dict (delete "W2" ex_model)] (fun _ => 0)).
Proof.
  split; [reflexivity|].
  apply (missing_key_raises (State [Dict (delete "W2" ex_model)] (fun _ => 0))
           1%nat 0%nat (delete "W2" ex_model) None 0 eq_refl).
  right; right; left. reflexivity.
Defined.

(** X2: a batch that is not 2-dimensional makes the unpacking of X.shape
    fail with ValueError, after the four parameters were looked up and
    before anything is allocated. *)
Theorem batch_not_2d_raises s X model lW1 lb1 lW2 lb2 n v y reg :
  has_params s model lW1 lb1 lW2 lb2 ->
  arr_at s X = Some (Vec n v) ->
  two_layer_net X model y reg s = (Raise ValueError, s).
Proof.
  intros (d & Hd & H1 & H2 & H3 & H4) HX. unfold two_layer_net.
  rewrite bind_run, (getitem_run s model d "W1" Hd), H1.
  rewrite bind_run, (getitem_run s model d "b1" Hd), H2.
  rewrite bind_run, (getitem_run s model d "W2" Hd), H3.
  rewrite bind_run, (getitem_run s model d "b2" Hd), H4.
  apply arr_at_heap in HX.
  rewrite bind_run. unfold shape2, load_arr. rewrite !bind_run. unfold load.
  rewrite HX. reflexivity.
Qed.

Lemma ex_has_params : has_params ex_store 0 1 2 3 4.
Proof. exists ex_model. repeat split; reflexivity. Qed.

Lemma batch_not_2d_raises_witness :
  has_params ex_store 0 1 2 3 4 /\
  arr_at ex_store 2 = Some (Vec 1 (nb1 ex_net)) /\
  two_layer_net 2%nat 0%nat None 0 ex_store = (Raise ValueError, ex_store).
Proof.
  split; [exact ex_has_params|]. split; [reflexivity|].
  exact (batch_not_2d_raises ex_store 2%nat 0%nat 1%nat 2%nat 3%nat 4%nat _ _
           None 0 ex_has_params eq_refl).
Defined.

Lemma wp_np_dot_fail (Q : outcome loc -> state -> Prop) s a b n d d' m fa fb :
  heap s !! a = Some (Arr (Mat n d fa)) ->
  heap s !! b = Some (Arr (Mat d' m fb)) ->
  d <> d' ->
  Q (Raise ValueError) s ->
  wp (np_dot a b) Q s.
Proof.
  intros Ha Hb Hne HQ. unfold np_dot.
  apply wp_bind. eapply wp_load_arr; [exact Ha|]. simpl.
  apply wp_bind. eapply wp_load_arr; [exact Hb|]. simpl.
  destruct (Nat.eqb_spec d d'); [contradiction|exact HQ].
Qed.

Lemma wp_np_binop_fail (Q : outcome loc -> state -> Prop) s op a b fa fb :
  heap s !! a = Some (Arr fa) ->
  heap s !! b = Some (Arr fb) ->
  broadcast2 op fa fb = None ->
  Q (Raise ValueError) s ->
  wp (np_binop op a b) Q s.
Proof.
  intros Ha Hb Hr HQ. unfold np_binop.
  apply wp_bind. eapply wp_load_arr; [exact Ha|]. simpl.
  apply wp_bind. eapply wp_load_arr; [exact Hb|]. simpl.
  by rewrite Hr.
Qed.

Lemma bdim_None a b : a <> b -> a <> 1%nat -> b <> 1%nat -> bdim a b = None.
Proof.
  intros H1 H2 H3. unfold bdim.
  destruct (Nat.eqb_spec a b); [contradiction|].
  destruct (Nat.eqb_spec a 1); [contradiction|].
  destruct (Nat.eqb_spec b 1); [contradiction|reflexivity].
Qed.

Lemma broadcast2_mat_vec_None op n m k fa fb :
  m <> k -> m <> 1%nat -> k <> 1%nat ->
  broadcast2 op (Mat n m fa) (Vec k fb) = None.
Proof.
  intros H1 H2 H3. unfold broadcast2. simpl.
  rewrite (bdim_None m k H1 H2 H3). by destruct (bdim n 1).
Qed.

(** X3: when the number of columns of X differs from the number of rows of
    W1, np.dot(X, W1) raises ValueError and the store is left as it was. *)
Theorem first_layer_mismatch_raises s X model lW1 lb1 lW2 lb2 N D D' H fX fW1 y reg :
  has_params s model lW1 lb1 lW2 lb2 ->
  arr_at s X = Some (Mat N D fX) ->
  arr_at s lW1 = Some (Mat D' H fW1) ->
  D <> D' ->
  two_layer_net X model y reg s = (Raise ValueError, s).
Proof.
  intros (d & Hd & H1 & H2 & H3 & H4) HX HW1 Hne.
  apply dict_at_heap in Hd. apply arr_at_heap in HX, HW1.
  enough (Hw : wp (two_layer_net X model y reg)
                 (fun r s' => r = Raise ValueError /\ s' = s) s).
  { apply wp_result in Hw. destruct Hw as (r & s' & Hrun & -> & ->). exact Hrun. }
  destruct s as [h0 t0]. cbn [heap] in *.
  apply wp_start. unfold two_layer_net. wp_exec.
  eapply wp_np_dot_fail; [solve_lookup|solve_lookup|exact Hne|].
  split; [reflexivity|]. by rewrite <- hp_nil.
Qed.

Lemma first_layer_mismatch_raises_witness :
  has_params ex_store 0 1 2 3 4 /\
  arr_at ex_store 3 = Some (Mat 1 2 (nW2 ex_net)) /\
  arr_at ex_store 1 = Some (Mat 1 1 (nW1 ex_net)) /\
  2%nat <> 1%nat /\
  two_layer_net 3%nat 0%nat None 0 ex_store = (Raise ValueError, ex_store).
Proof.
  assert (Hne : 2%nat <> 1%nat) by lia.
  split; [exact ex_has_params|]. split; [reflexivity|]. split; [reflexivity|].
  split; [exact Hne|].
  exact (first_layer_mismatch_raises ex_store 3%nat 0%nat 1%nat 2%nat 3%nat 4%nat
           _ _ _ _ _ _ None 0 ex_has_params eq_refl eq_refl Hne).
Defined.

(** X4: a bias b1 whose length is neither H nor 1 cannot be broadcast over
    the (N,H) product X.W1 (H other than 1): the addition raises
    ValueError. *)
Theorem first_bias_mismatch_raises s X model lW1 lb1 lW2 lb2 N D H K fX fW1 fb1 y reg :
  has_params s model lW1 lb1 lW2 lb2 ->
  arr_at s X = Some (Mat N D fX) ->
  arr_at s lW1 = Some (Mat D H fW1) ->
  arr_at s lb1 = Some (Vec K fb1) ->
  H <> K -> H <> 1%nat -> K <> 1%nat ->
  (two_layer_net X model y reg s).1 = Raise ValueError.
Proof.
  intros (d & Hd & H1 & H2 & H3 & H4) HX HW1 Hb1 Hne Hh Hk.
  apply dict_at_heap in Hd. apply arr_at_heap in HX, HW1, Hb1.
  change (wp (two_layer_net X model y reg) (fun r _ => r = Raise ValueError) s).
  destruct s as [h0 t0]. cbn [heap] in *.
  apply wp_start. unfold two_layer_net. wp_exec.
  eapply wp_np_binop_fail;
    [solve_lookup|solve_lookup|by apply broadcast2_mat_vec_None|].
  reflexivity.
Qed.

(** X5: when the number of rows of W2 differs from the hidden size H,
    np.dot(hidden, W2) raises ValueError. *)
Theorem second_layer_mismatch_raises s X model lW1 lb1 lW2 lb2 N D H H' C
    fX fW1 fb1 fW2 y reg :
  has_params s model lW1 lb1 lW2 lb2 ->
  arr_at s X = Some (Mat N D fX) ->
  arr_at s lW1 = Some (Mat D H fW1) ->
  arr_at s lb1 = Some (Vec H fb1) ->
  arr_at s lW2 = Some (Mat H' C fW2) ->
  H <> H' ->
  (two_layer_net X model y reg s).1 = Raise ValueError.
Proof.
  intros (d & Hd & H1 & H2 & H3 & H4) HX HW1 Hb1 HW2 Hne.
  apply dict_at_heap in Hd. apply arr_at_heap in HX, HW1, Hb1, HW2.
  change (wp (two_layer_net X model y reg) (fun r _ => r = Raise ValueError) s).
  destruct s as [h0 t0]. cbn [heap] in *.
  apply wp_start. unfold two_layer_net. wp_exec.
  eapply wp_np_dot_fail; [solve_lookup|solve_lookup|exact Hne|].
  reflexivity.
Qed.

Lemma ex2_consistent : consistent ex_store2 5%nat 0%nat ex_net2.
Proof.
  exists (<["b2" := 4%nat]> (<["W2" := 3%nat]> (<["b1" := 2%nat]> (<["W1" := 1%nat]> ∅)))),
    1%nat, 2%nat, 3%nat, 4%nat.
  repeat split; reflexivity.
Qed.

Lemma first_bias_mismatch_raises_witness :
  has_params ex_store2 6 1 4 3 4 /\
  arr_at ex_store2 5 = Some (Mat 2 1 (nX ex_net2)) /\
  arr_at ex_store2 1 = Some (Mat 1 2 (nW1 ex_net2)) /\
  arr_at ex_store2 4 = Some (Vec 3 (nb2 ex_net2)) /\
  2%nat <> 3%nat /\ 2%nat <> 1%nat /\ 3%nat <> 1%nat /\
  (two_layer_net 5%nat 6%nat None 0 ex_store2).1 = Raise ValueError.
Proof.
  assert (Hp : has_params ex_store2 6 1 4 3 4)
    by (eexists; repeat split; reflexivity).
  assert (H1 : 2%nat <> 3%nat) by lia.
  assert (H2 : 2%nat <> 1%nat) by lia.
  assert (H3 : 3%nat <> 1%nat) by lia.
  repeat (split; [first [exact Hp | reflexivity | assumption]|]).
  exact (first_bias_mismatch_raises ex_store2 5%nat 6%nat 1%nat 4%nat 3%nat 4%nat
           _ _ _ _ _ _ _ None 0 Hp eq_refl eq_refl eq_refl H1 H2 H3).
Defined.

Lemma second_layer_mismatch_raises_witness :
  has_params ex_store2 7 1 2 8 4 /\
  arr_at ex_store2 5 = Some (Mat 2 1 (nX ex_net2)) /\
  arr_at ex_store2 1 = Some (Mat 1 2 (nW1 ex_net2)) /\
  arr_at ex_store2 2 = Some (Vec 2 (nb1 ex_net2)) /\
  arr_at ex_store2 8 = Some (Mat 3 3 (fun _ _ => 0)) /\
  2%nat <> 3%nat /\
  (two_layer_net 5%nat 7%nat None 0 ex_store2).1 = Raise ValueError.
Proof.
  assert (Hp : has_params ex_store2 7 1 2 8 4)
    by (eexists; repeat split; reflexivity).
  assert (H1 : 2%nat <> 3%nat) by lia.
  repeat (split; [first [exact Hp | reflexivity | assumption]|]).
  exact (second_layer_mismatch_raises ex_store2 5%nat 7%nat 1%nat 2%nat 8%nat 4%nat
           _ _ _ _ _ _ _ _ _ None 0 Hp eq_refl eq_refl eq_refl eq_refl H1).
Defined.

(** ** Label vectors of the wrong length *)

Lemma resolve_index_length_None n m (y : list Z) :
  length y <> n -> length y <> 1%nat -> n <> 1%nat ->
  resolve_index n m (py_range n) y = None.
Proof.
  intros H1 H2 H3. unfold resolve_index, bcast_index.
  rewrite length_py_range.
  destruct (Nat.eqb_spec n (length y)); [congruence|].
  destruct (Nat.eqb_spec (length y) 1); [contradiction|].
  destruct (Nat.eqb_spec n 1); [contradiction|reflexivity].
Qed.

(** X6: with consistent shapes, a label vector whose length is neither N
    nor 1 (N other than 1) cannot be paired with the row indices
    range(N): the call raises IndexError. *)
Theorem label_length_mismatch_raises s X model p y reg :
  consistent s X model p ->
  length y <> nN p -> length y <> 1%nat -> nN p <> 1%nat ->
  (two_layer_net X model (Some y) reg s).1 = Raise IndexError.
Proof.
  intros Hc H1 H2 H3.
  change (wp (two_layer_net X model (Some y) reg) (fun r _ => r = Raise IndexError) s).
  destruct s as [h0 t0].
  destruct Hc as (d & lW1 & lb1 & lW2 & lb2 & Hd & ? & ? & ? & ?
                  & HX & HW1 & Hb1 & HW2 & Hb2).
  apply dict_at_heap in Hd. apply arr_at_heap in HX, HW1, Hb1, HW2, Hb2.
  cbn [heap] in *.
  apply wp_start. unfold two_layer_net.
  wp_exec.
  eapply wp_fancy_get_fail;
    [solve_lookup | by apply resolve_index_length_None | ].
  reflexivity.
Qed.

Lemma label_length_mismatch_raises_witness :
  consistent ex_store2 5%nat 0%nat ex_net2 /\
  length [0%Z; 1%Z; 2%Z] <> nN ex_net2 /\ length [0%Z; 1%Z; 2%Z] <> 1%nat /\
  nN ex_net2 <> 1%nat /\
  (two_layer_net 5%nat 0%nat (Some [0%Z; 1%Z; 2%Z]) 0 ex_store2).1 = Raise IndexError.
Proof.
  assert (H1 : length [0%Z; 1%Z; 2%Z] <> nN ex_net2) by (simpl; lia).
  assert (H2 : length [0%Z; 1%Z; 2%Z] <> 1%nat) by (simpl; lia).
  assert (H3 : nN ex_net2 <> 1%nat) by (simpl; lia).
  repeat (split; [first [exact ex2_consistent | assumption]|]).
  exact (label_length_mismatch_raises ex_store2 5%nat 0%nat ex_net2 _ 0
           ex2_consistent H1 H2 H3).
Defined.

(** ** The random source *)

(** X7: a call to two_layer_net never draws from the random source,
    whatever its operands and its outcome. *)
Theorem two_layer_net_keeps_random_source X model y reg s :
  tape (two_layer_net X model y reg s).2 = tape s.
Proof.
  pose proof (two_layer_net_footprint X model y reg s) as Hf.
  unfold wp in Hf. by destruct Hf as (_ & Ht & _).
Qed.

(** ** The initializer on sizes that are not positive *)

Ltac wp_init :=
  repeat (first [ apply wp_np_random_randn; [lia|lia|]; apply wp_alloc_hp
                | apply wp_np_zeros; [lia|]
                | wp_unfold; wp_mem ];
          wp_simpl).

(** What the initializer leaves behind when no size is negative. *)
Lemma init_two_layer_model_run (D H C : Z) (s : state) :
  (0 <= D)%Z -> (0 <= H)%Z -> (0 <= C)%Z ->
  exists s' fW1 fb1 fW2 fb2,
    init_two_layer_model D H C s = (Ok (length (heap s)), s') /\
    heap s' = heap s ++
      [Dict (<["b2" := (length (heap s) + 6)%nat]>
            (<["W2" := (length (heap s) + 5)%nat]>
            (<["b1" := (length (heap s) + 3)%nat]>
            (<["W1" := (length (heap s) + 2)%nat]> ∅))));
       Arr (Mat (Z.to_nat D) (Z.to_nat H)
              (fun i j => tape s (i * Z.to_nat H + j)%nat));
       Arr (Mat (Z.to_nat D) (Z.to_nat H) fW1); Arr (Vec (Z.to_nat H) fb1);
       Arr (Mat (Z.to_nat H) (Z.to_nat C)
              (fun i j => tape s (Z.to_nat D * Z.to_nat H + (i * Z.to_nat C + j))%nat));
       Arr (Mat (Z.to_nat H) (Z.to_nat C) fW2); Arr (Vec (Z.to_nat C) fb2)] /\
    (forall k, fb1 k = 0) /\ (forall k, fb2 k = 0) /\
    (forall i j, fW1 i j = 0.00001 * tape s (i * Z.to_nat H + j)%nat) /\
    (forall i j, fW2 i j =
       0.00001 * tape s (Z.to_nat D * Z.to_nat H + (i * Z.to_nat C + j))%nat) /\
    (forall k, tape s' k =
       tape s (Z.to_nat D * Z.to_nat H + Z.to_nat H * Z.to_nat C + k)%nat).
Proof.
  intros HD HH HC.
  enough (Hrun : wp (init_two_layer_model D H C)
            (fun r s' =>
               exists fW1 fb1 fW2 fb2,
                 r = Ok (length (heap s)) /\
                 heap s' = heap s ++
                   [Dict (<["b2" := (length (heap s) + 6)%nat]>
                         (<["W2" := (length (heap s) + 5)%nat]>
                         (<["b1" := (length (heap s) + 3)%nat]>
                         (<["W1" := (length (heap s) + 2)%nat]> ∅))));
                    Arr (Mat (Z.to_nat D) (Z.to_nat H)
                           (fun i j => tape s (i * Z.to_nat H + j)%nat));
                    Arr (Mat (Z.to_nat D) (Z.to_nat H) fW1);
                    Arr (Vec (Z.to_nat H) fb1);
                    Arr (Mat (Z.to_nat H) (Z.to_nat C)
                           (fun i j => tape s (Z.to_nat D * Z.to_nat H
                                               + (i * Z.to_nat C + j))%nat));
                    Arr (Mat (Z.to_nat H) (Z.to_nat C) fW2);
                    Arr (Vec (Z.to_nat C) fb2)] /\
                 (forall k, fb1 k = 0) /\ (forall k, fb2 k = 0) /\
                 (forall i j, fW1 i j = 0.00001 * tape s (i * Z.to_nat H + j)%nat) /\
                 (forall i j, fW2 i j =
                    0.00001 * tape s (Z.to_nat D * Z.to_nat H
                                      + (i * Z.to_nat C + j))%nat) /\
                 (forall k, tape s' k =
                    tape s (Z.to_nat D * Z.to_nat H + Z.to_nat H * Z.to_nat C + k)%nat)) s).
  { apply wp_result in Hrun.
    destruct Hrun as (r & s' & Hinit & fW1 & fb1 & fW2 & fb2 & -> & Hrest).
    exists s', fW1, fb1, fW2, fb2. split; [exact Hinit|exact Hrest]. }
  destruct s as [h0 t0]. cbn [heap tape]. apply wp_start.
  unfold init_two_layer_model. wp_init.
  exists F, V, F0, V0.
  split; [by rewrite Nat.add_0_r|].
  split; [reflexivity|].
  split; [intros k; by rewrite HV|]. split; [intros k; by rewrite HV0|].
  split; [exact HF|]. split; [exact HF0|].
  intros k. f_equal. lia.
Qed.



(** ** The initializer followed by a call *)

Lemma lookup_after h0 ext (s' : state) k :
  heap s' = h0 ++ ext -> heap s' !! (length h0 + k)%nat = ext !! k.
Proof. intros ->. apply hp_lookup_new. Qed.

Lemma init_consistent (D H C : Z) s X N fX :
  (0 <= D)%Z -> (0 <= H)%Z -> (0 <= C)%Z ->
  arr_at s X = Some (Mat N (Z.to_nat D) fX) ->
  exists model s' p,
    init_two_layer_model D H C s = (Ok model, s') /\
    consistent s' X model p /\
    nN p = N /\ nD p = Z.to_nat D /\ nH p = Z.to_nat H /\ nC p = Z.to_nat C /\
    nX p = fX /\
    (forall k, nb1 p k = 0) /\ (forall k, nb2 p k = 0) /\
    (forall i j, nW1 p i j = 0.00001 * tape s (i * Z.to_nat H + j)%nat) /\
    (forall i j, nW2 p i j =
       0.00001 * tape s (Z.to_nat D * Z.to_nat H + (i * Z.to_nat C + j))%nat).
Proof.
  intros HD HH HC HX.
  destruct (init_two_layer_model_run D H C s HD HH HC)
    as (s' & fW1 & fb1 & fW2 & fb2 & Hrun & Hheap & Hb1 & Hb2 & HW1 & HW2 & _).
  exists (length (heap s)), s',
    (Net N (Z.to_nat D) (Z.to_nat H) (Z.to_nat C) fX fW1 fb1 fW2 fb2).
  split; [exact Hrun|]. split; [|by repeat split].
  pose proof (fun k => lookup_after _ _ s' k Hheap) as Hl.
  eexists _, (length (heap s) + 2)%nat, (length (heap s) + 3)%nat,
    (length (heap s) + 5)%nat, (length (heap s) + 6)%nat.
  split.
  { unfold dict_at. rewrite <- (Nat.add_0_r (length (heap s))), Hl. reflexivity. }
  repeat (split; [reflexivity|]).
  split.
  { apply arr_at_heap in HX. unfold arr_at. rewrite Hheap.
    by rewrite (lookup_app_l_Some _ _ _ _ HX). }
  cbn [nD nH nC nW1 nb1 nW2 nb2].
  repeat split; unfold arr_at; rewrite Hl; reflexivity.
Qed.

(** X9: the dictionary the initializer returns for sizes D, H, C fits any
    batch with D columns: an inference call on it succeeds and returns the
    (N,C) matrix of scores max(0, X.W1).W2, the biases being zero and the
    weights 0.00001 times the numbers drawn. *)
Theorem init_then_infer (D H C : Z) s X N fX reg :
  (0 <= D)%Z -> (0 <= H)%Z -> (0 <= C)%Z ->
  arr_at s X = Some (Mat N (Z.to_nat D) fX) ->
  let d := Z.to_nat D in
  let h := Z.to_nat H in
  let c := Z.to_nat C in
  exists model s1 l s2,
    init_two_layer_model D H C s = (Ok model, s1) /\
    two_layer_net X model None reg s1 = (Ok (RScores l), s2) /\
    mat_at s2 l N c
      (fun i j =>
         rsum h (fun k =>
           Rmax 0 (rsum d (fun a => fX i a * (0.00001 * tape s (a * h + k)%nat)))
           * (0.00001 * tape s (d * h + (k * c + j))%nat))).
Proof.
  intros HD HH HC HX d h c.
  destruct (init_consistent D H C s X N fX HD HH HC HX)
    as (model & s1 & p & Hinit & Hc & EN & ED & EH & EC & EX & Hb1 & Hb2 & HW1 & HW2).
  destruct (wp_result _ _ _ (two_layer_net_infer s1 X model p Hc reg))
    as (r & s2 & Hrun & -> & _ & _ & Hsc).
  exists model, s1, (length (heap s1) + 4)%nat, s2.
  split; [exact Hinit|]. split; [exact Hrun|].
  rewrite EN, EC in Hsc. eapply mat_at_ext; [exact Hsc|].
  intros i j Hi Hj. unfold spec_scores, spec_hidden, spec_pre.
  rewrite Hb2, EH, ED, EX. fold d h c.
  rewrite Rplus_0_r. apply rsum_ext. intros k Hk.
  rewrite Hb1, HW2, Rplus_0_r. f_equal. f_equal.
  apply rsum_ext. intros a Ha. by rewrite HW1.
Qed.

Lemma init_then_infer_witness :
  (0 <= 1)%Z /\ (0 <= 4)%Z /\ (0 <= 3)%Z /\
  arr_at ex_store2 5 = Some (Mat 2 (Z.to_nat 1) (nX ex_net2)) /\
  exists model s1 l s2,
    init_two_layer_model 1 4 3 ex_store2 = (Ok model, s1) /\
    two_layer_net 5%nat model None 0 s1 = (Ok (RScores l), s2) /\
    mat_at s2 l 2 3
      (fun i j =>
         rsum 4 (fun k =>
           Rmax 0 (rsum 1 (fun a => nX ex_net2 i a
                                    * (0.00001 * tape ex_store2 (a * 4 + k)%nat)))
           * (0.00001 * tape ex_store2 (1 * 4 + (k * 3 + j))%nat))).
Proof.
  assert (H1 : (0 <= 1)%Z) by lia.
  assert (H4 : (0 <= 4)%Z) by lia.
  assert (H3 : (0 <= 3)%Z) by lia.
  repeat (split; [first [assumption | reflexivity]|]).
  exact (init_then_infer 1 4 3 ex_store2 5%nat 2%nat (nX ex_net2) 0
           H1 H4 H3 eq_refl).
Defined.

(** ** Shapes of the gradients *)

(** X10: with consistent shapes and admissible labels, the gradient
    dictionary has exactly the keys W1, b1, W2, b2, and under each key an
    array of the same shape as the parameter array under that key. *)
Theorem gradient_shape_parity s X model p y reg :
  consistent s X model p ->
  indexable p y ->
  exists loss g s' dm dg,
    two_layer_net X model (Some y) reg s = (Ok (RLossGrads loss g), s') /\
    dict_at s model = Some dm /\
    dict_at s' g = Some dg /\
    dom dg = {[ "W1"; "b1"; "W2"; "b2" ]} /\
    forall k, k ∈ dom dg ->
      exists lp lg ap ag,
        dm !! k = Some lp /\ dg !! k = Some lg /\
        arr_at s lp = Some ap /\ arr_at s' lg = Some ag /\
        shape_of ag = shape_of ap.
Proof.
  intros Hc Hy.
  destruct (wp_result _ _ _ (two_layer_net_train s X model p Hc y Hy reg))
    as (r & s' & Hrun & -> & _ & _ & Hd & _ & _ & _ & HW1 & Hb1 & HW2 & Hb2).
  destruct Hc as (dm & lW1 & lb1 & lW2 & lb2 & Hdm & K1 & K2 & K3 & K4
                  & _ & AW1 & Ab1 & AW2 & Ab2).
  destruct HW1 as (g1 & GW1 & _). destruct Hb1 as (g2 & Gb1 & _).
  destruct HW2 as (g3 & GW2 & _). destruct Hb2 as (g4 & Gb2 & _).
  do 5 eexists. split; [exact Hrun|]. split; [exact Hdm|]. split; [exact Hd|].
  split; [rewrite !dom_insert_L, dom_empty_L; set_solver|].
  intros k Hk. rewrite !dom_insert_L, dom_empty_L in Hk.
  assert (Hcases : k = "W1" \/ k = "b1" \/ k = "W2" \/ k = "b2")
    by (set_unfold in Hk; tauto).
  destruct Hcases as [-> | [-> | [-> | ->]]].
  - exists lW1. do 3 eexists. split; [exact K1|]. split; [reflexivity|].
    split; [exact AW1|]. split; [exact GW1|reflexivity].
  - exists lb1. do 3 eexists. split; [exact K2|]. split; [reflexivity|].
    split; [exact Ab1|]. split; [exact Gb1|reflexivity].
  - exists lW2. do 3 eexists. split; [exact K3|]. split; [reflexivity|].
    split; [exact AW2|]. split; [exact GW2|reflexivity].
  - exists lb2. do 3 eexists. split; [exact K4|]. split; [reflexivity|].
    split; [exact Ab2|]. split; [exact Gb2|reflexivity].
Qed.

Lemma ex2_indexable : indexable ex_net2 [2%Z; (-1)%Z].
Proof.
  split; [reflexivity|]. repeat (constructor; [simpl; lia|]). constructor.
Qed.

Lemma gradient_shape_parity_witness :
  consistent ex_store2 5%nat 0%nat ex_net2 /\ indexable ex_net2 [2%Z; (-1)%Z] /\
  exists loss g s' dm dg,
    two_layer_net 5%nat 0%nat (Some [2%Z; (-1)%Z]) 0.5 ex_store2
    = (Ok (RLossGrads loss g), s') /\
    dict_at ex_store2 0 = Some dm /\
    dict_at s' g = Some dg /\
    dom dg = {[ "W1"; "b1"; "W2"; "b2" ]} /\
    forall k, k ∈ dom dg ->
      exists lp lg ap ag,
        dm !! k = Some lp /\ dg !! k = Some lg /\
        arr_at ex_store2 lp = Some ap /\ arr_at s' lg = Some ag /\
        shape_of ag = shape_of ap.
Proof.
  split; [exact ex2_consistent|]. split; [exact ex2_indexable|].
  exact (gradient_shape_parity ex_store2 5%nat 0%nat ex_net2 [2%Z; (-1)%Z] 0.5
           ex2_consistent ex2_indexable).
Defined.

(** ** Particular parameter values *)

Lemma rsum_zero n f : (forall i, (i < n)%nat -> f i = 0) -> rsum n f = 0.
Proof.
  intros Hf. rewrite (rsum_ext n f (fun _ => 0) Hf), rsum_const. lra.
Qed.

(** X11: when W2 and b2 are zero all scores are zero, every class gets
    probability 1/C, and the loss returned is ln C plus the regularization
    of W1, whatever the batch and the labels. *)
Theorem zero_output_layer_loss s X model p y reg :
  consistent s X model p ->
  indexable p y ->
  (0 < nN p)%nat ->
  (forall k j, (k < nH p)%nat -> (j < nC p)%nat -> nW2 p k j = 0) ->
  (forall j, (j < nC p)%nat -> nb2 p j = 0) ->
  exists g s',
    two_layer_net X model (Some y) reg s
    = (Ok (RLossGrads (ln (INR (nC p))
                       + 0.5 * reg * sumsq (nD p) (nH p) (nW1 p)) g), s').
Proof.
  intros Hc Hy HN HW2 Hb2.
  destruct (wp_result _ _ _ (two_layer_net_train s X model p Hc y Hy reg))
    as (r & s' & Hrun & -> & _).
  exists (length (heap s) + 13)%nat, s'. rewrite Hrun. do 3 f_equal.
  assert (HC : (0 < nC p)%nat) by (pose proof (label_lt p y 0 Hy HN); lia).
  assert (Hsc : forall i j, (j < nC p)%nat -> spec_scores p i j = 0).
  { intros i j Hj. unfold spec_scores.
    rewrite Hb2 by exact Hj. rewrite rsum_zero; [lra|].
    intros k Hk. rewrite HW2 by assumption. lra. }
  assert (Hpr : forall i j, (j < nC p)%nat -> spec_probs p i j = / INR (nC p)).
  { intros i j Hj. unfold spec_probs.
    rewrite (rsum_ext (nC p) _ (fun _ => 1))
      by (intros c Hc'; by rewrite Hsc, exp_0).
    rewrite Hsc, exp_0, rsum_const by exact Hj.
    assert (0 < INR (nC p)) by (by apply lt_0_INR).
    field. lra. }
  unfold spec_loss, spec_data_loss, spec_reg_loss.
  rewrite (rsum_ext (nN p) _ (fun _ => ln (INR (nC p)))).
  2:{ intros i Hi. rewrite Hpr by (by apply label_lt).
      rewrite ln_Rinv by (by apply lt_0_INR). lra. }
  rewrite rsum_const.
  assert (Hs2 : sumsq (nH p) (nC p) (nW2 p) = 0).
  { unfold sumsq. apply rsum_zero. intros k Hk. apply rsum_zero.
    intros j Hj. rewrite HW2 by assumption. lra. }
  rewrite Hs2.
  assert (0 < INR (nN p)) by (by apply lt_0_INR).
  field. lra.
Qed.

Lemma zero_output_layer_loss_witness :
  consistent ex_store 5%nat 0%nat ex_net /\ indexable ex_net [1%Z] /\
  (0 < nN ex_net)%nat /\
  (forall k j, (k < nH ex_net)%nat -> (j < nC ex_net)%nat -> nW2 ex_net k j = 0) /\
  (forall j, (j < nC ex_net)%nat -> nb2 ex_net j = 0) /\
  exists g s',
    two_layer_net 5%nat 0%nat (Some [1%Z]) 0.1 ex_store
    = (Ok (RLossGrads (ln (INR (nC ex_net))
                       + 0.5 * 0.1 * sumsq (nD ex_net) (nH ex_net) (nW1 ex_net)) g), s').
Proof.
  assert (Hy : indexable ex_net [1%Z])
    by (split; [reflexivity|]; constructor; [simpl; lia|constructor]).
  assert (HW : forall k j, (k < nH ex_net)%nat -> (j < nC ex_net)%nat ->
                           nW2 ex_net k j = 0) by reflexivity.
  assert (Hb : forall j, (j < nC ex_net)%nat -> nb2 ex_net j = 0) by reflexivity.
  split; [exact ex_consistent|]. split; [exact Hy|].
  split; [simpl; lia|]. split; [exact HW|]. split; [exact Hb|].
  exact (zero_output_layer_loss ex_store 5%nat 0%nat ex_net [1%Z] 0.1
           ex_consistent Hy (Nat.lt_0_succ 0) HW Hb).
Defined.

(** X12: a hidden unit k whose pre-activation is <= 0 on every sample
    passes no gradient back: db1[k] is 0 and column k of dW1 is reg times
    column k of W1. *)
Theorem inactive_unit_gradient s X model p y reg k :
  consistent s X model p ->
  indexable p y ->
  (k < nH p)%nat ->
  (forall i, (i < nN p)%nat -> spec_pre p i k <= 0) ->
  exists loss g s' dg lW1 lb1 fW1 fb1,
    two_layer_net X model (Some y) reg s = (Ok (RLossGrads loss g), s') /\
    dict_at s' g = Some dg /\
    dg !! "W1" = Some lW1 /\ dg !! "b1" = Some lb1 /\
    arr_at s' lW1 = Some (Mat (nD p) (nH p) fW1) /\
    arr_at s' lb1 = Some (Vec (nH p) fb1) /\
    fb1 k = 0 /\
    forall d, (d < nD p)%nat -> fW1 d k = reg * nW1 p d k.
Proof.
  intros Hc Hy Hk Hpre.
  destruct (wp_result _ _ _ (two_layer_net_train s X model p Hc y Hy reg))
    as (r & s' & Hrun & -> & _ & _ & Hd & _ & _ & _ & HW1 & Hb1 & _).
  destruct HW1 as (fW1 & AW1 & EW1). destruct Hb1 as (fb1 & Ab1 & Eb1).
  assert (Hdh : forall i, (i < nN p)%nat -> spec_dhidden p y i k = 0).
  { intros i Hi. unfold spec_dhidden.
    destruct (Rle_dec (spec_hidden p i k) 0) as [|Hn]; [reflexivity|].
    exfalso. apply Hn. unfold spec_hidden. apply relu_gate. by apply Hpre. }
  do 8 eexists. split; [exact Hrun|]. split; [exact Hd|].
  split; [reflexivity|]. split; [reflexivity|].
  split; [exact AW1|]. split; [exact Ab1|].
  split.
  - rewrite Eb1 by exact Hk. unfold spec_db1. by apply rsum_zero.
  - intros d Hd'. rewrite EW1 by assumption. unfold spec_dW1, spec_dW1_data.
    rewrite rsum_zero; [lra|]. intros i Hi. rewrite Hdh by exact Hi. lra.
Qed.

Lemma ex2_unit1_inactive i : (i < nN ex_net2)%nat -> spec_pre ex_net2 i 1 <= 0.
Proof.
  intros Hi. unfold spec_pre. simpl.
  pose proof (pos_INR i). lra.
Qed.

Lemma inactive_unit_gradient_witness :
  consistent ex_store2 5%nat 0%nat ex_net2 /\ indexable ex_net2 [2%Z; (-1)%Z] /\
  (1 < nH ex_net2)%nat /\
  (forall i, (i < nN ex_net2)%nat -> spec_pre ex_net2 i 1 <= 0) /\
  exists loss g s' dg lW1 lb1 fW1 fb1,
    two_layer_net 5%nat 0%nat (Some [2%Z; (-1)%Z]) 0.5 ex_store2
    = (Ok (RLossGrads loss g), s') /\
    dict_at s' g = Some dg /\
    dg !! "W1" = Some lW1 /\ dg !! "b1" = Some lb1 /\
    arr_at s' lW1 = Some (Mat (nD ex_net2) (nH ex_net2) fW1) /\
    arr_at s' lb1 = Some (Vec (nH ex_net2) fb1) /\
    fb1 1%nat = 0 /\
    forall d, (d < nD ex_net2)%nat -> fW1 d 1%nat = 0.5 * nW1 ex_net2 d 1.
Proof.
  assert (Hk : (1 < nH ex_net2)%nat) by (simpl; lia).
  split; [exact ex2_consistent|]. split; [exact ex2_indexable|].
  split; [exact Hk|]. split; [exact ex2_unit1_inactive|].
  exact (inactive_unit_gradient ex_store2 5%nat 0%nat ex_net2 [2%Z; (-1)%Z] 0.5 1
           ex2_consistent ex2_indexable Hk ex2_unit1_inactive).
Defined.

(** ** A single label for the whole batch *)

Lemma bcast_index_single N k :
  bcast_index (py_range N) [k] = bcast_index (py_range N) (replicate N k).
Proof.
  unfold bcast_index. rewrite !length_py_range, length_replicate, Nat.eqb_refl.
  cbn [length hd Nat.eqb].
  destruct (Nat.eqb_spec N 1) as [->|Hne]; rewrite ?Nat.eqb_refl; reflexivity.
Qed.

Lemma resolve_index_single n m N k :
  resolve_index n m (py_range N) [k] = resolve_index n m (py_range N) (replicate N k).
Proof. unfold resolve_index. by rewrite bcast_index_single. Qed.

Lemma bind_cong {A B} (m1 m2 : M A) (f g : A -> M B) :
  (forall s, m1 s = m2 s) -> (forall a s, f a s = g a s) ->
  forall s, (m1 ≫= f) s = (m2 ≫= g) s.
Proof.
  intros Hm Hf s. rewrite !bind_run, Hm.
  destruct (m2 s) as [[a|e] s']; [apply Hf|reflexivity].
Qed.

Lemma fancy_get_single a N k s :
  fancy_get a (py_range N) [k] s = fancy_get a (py_range N) (replicate N k) s.
Proof.
  unfold fancy_get. apply bind_cong; [reflexivity|].
  intros [n v|n m f] s'; [reflexivity|]. by rewrite resolve_index_single.
Qed.

Lemma fancy_set_single a N k v s :
  fancy_set a (py_range N) [k] v s = fancy_set a (py_range N) (replicate N k) v s.
Proof.
  unfold fancy_set. apply bind_cong; [reflexivity|]. intros A s'.
  apply bind_cong; [reflexivity|]. intros V s''.
  destruct A as [n w|n m f]; [reflexivity|]. by rewrite resolve_index_single.
Qed.

Lemma fancy_isub_single a N k c s :
  fancy_isub a (py_range N) [k] c s = fancy_isub a (py_range N) (replicate N k) c s.
Proof.
  unfold fancy_isub. apply bind_cong; [apply fancy_get_single|]. intros t s'.
  apply bind_cong; [reflexivity|]. intros _ s''. apply fancy_set_single.
Qed.

Lemma bind_agree_reads {A B} (m : M A) (f g : A -> M B) s :
  reads m -> (forall a, f a s = g a s) -> (m ≫= f) s = (m ≫= g) s.
Proof.
  intros Hm Hfg. rewrite !bind_run. specialize (Hm s).
  destruct (m s) as [[a|e] s']; cbn in Hm; subst s'; [apply Hfg|reflexivity].
Qed.

Lemma bind_agree_allocs {B} (m : M loc) (f g : loc -> M B) s :
  allocs m ->
  (forall l a, f l (State (heap s ++ [Arr a]) (tape s))
               = g l (State (heap s ++ [Arr a]) (tape s))) ->
  (m ≫= f) s = (m ≫= g) s.
Proof.
  intros Hm Hfg. rewrite !bind_run.
  destruct (Hm s) as [[e ->]|[a ->]]; [reflexivity|apply Hfg].
Qed.

Lemma shape0_run s a n m f :
  heap s !! a = Some (Arr (Mat n m f)) -> shape0 a s = (Ok n, s).
Proof.
  intros Ha. unfold shape0, load_arr. rewrite !bind_run. unfold load.
  by rewrite Ha.
Qed.

(** X13: a label vector of length 1 is broadcast against the N row indices:
    the call returns exactly what it returns for that label repeated N
    times, the same outcome and the same store. *)
Theorem single_label_broadcast s X model N D fX k reg :
  arr_at s X = Some (Mat N D fX) ->
  two_layer_net X model (Some [k]) reg s
  = two_layer_net X model (Some (replicate N k)) reg s.
Proof.
  intros HX. apply arr_at_heap in HX. unfold two_layer_net. wp_unfold.
  repeat (lazymatch goal with
          | |- (shape0 _ ≫= _) _ = _ => fail
          | |- _ => idtac
          end;
          first
            [ apply bind_agree_reads; [solve [auto with ops]|];
              intros ?v;
              try lazymatch goal with v : (nat * nat)%type |- _ => destruct v end
            | apply bind_agree_allocs; [solve [auto with ops]|]; intros ?l ?a ];
          cbn beta iota).
  rewrite !bind_run.
  erewrite shape0_run by (cbn [heap]; repeat apply lookup_app_l_Some; exact HX).
  cbn beta iota zeta.
  repeat (apply bind_cong;
          [ intros ?s;
            first [ apply fancy_get_single | apply fancy_isub_single | reflexivity ]
          | intros ? ?s ]).
  reflexivity.
Qed.

Lemma single_label_broadcast_witness :
  arr_at ex_store2 5 = Some (Mat 2 1 (nX ex_net2)) /\
  two_layer_net 5%nat 0%nat (Some [1%Z]) 0.5 ex_store2
  = two_layer_net 5%nat 0%nat (Some [1%Z; 1%Z]) 0.5 ex_store2.
Proof.
  split; [reflexivity|].
  exact (single_label_broadcast ex_store2 5%nat 0%nat 2%nat 1%nat (nX ex_net2)
           1%Z 0.5 eq_refl).
Defined.

(** ** The gradients as derivatives of the loss *)

Lemma dlim_ext (f g : R -> R) x l :
  (forall t, f t = g t) -> derivable_pt_lim f x l -> derivable_pt_lim g x l.
Proof.
  intros Hfg Hf eps Heps. destruct (Hf eps Heps) as [delta Hd].
  exists delta. intros h Hh Hlt. rewrite <- !Hfg. by apply Hd.
Qed.

Lemma dlim_val (f : R -> R) x l l' :
  l = l' -> derivable_pt_lim f x l -> derivable_pt_lim f x l'.
Proof. by intros ->. Qed.

Lemma dlim_const c x : derivable_pt_lim (fun _ => c) x 0.
Proof. apply (derivable_pt_lim_const c x). Qed.

Lemma dlim_shift c x : derivable_pt_lim (fun t => c + t) x 1.
Proof.
  apply (dlim_val _ _ (0 + 1)); [lra|].
  apply (derivable_pt_lim_plus (fun _ => c) id); [apply dlim_const|].
  apply derivable_pt_lim_id.
Qed.

Lemma dlim_plus (f g : R -> R) x lf lg :
  derivable_pt_lim f x lf -> derivable_pt_lim g x lg ->
  derivable_pt_lim (fun t => f t + g t) x (lf + lg).
Proof. apply (derivable_pt_lim_plus f g). Qed.

Lemma dlim_scale (f : R -> R) c x l :
  derivable_pt_lim f x l -> derivable_pt_lim (fun t => f t * c) x (l * c).
Proof.
  intros Hf. apply (dlim_ext (fun t => c * f t)); [intros; lra|].
  apply (dlim_val _ _ (c * l)); [lra|].
  apply (derivable_pt_lim_scal f c x l Hf).
Qed.

Lemma dlim_rsum n (f : nat -> R -> R) (l : nat -> R) x :
  (forall i, (i < n)%nat -> derivable_pt_lim (f i) x (l i)) ->
  derivable_pt_lim (fun t => rsum n (fun i => f i t)) x (rsum n l).
Proof.
  induction n as [|n IH]; intros Hf; cbn [rsum].
  - apply dlim_const.
  - apply (dlim_plus (fun t => rsum n (fun i => f i t)) (f n)).
    + apply IH. intros i Hi. apply Hf. lia.
    + apply Hf. lia.
Qed.

Lemma dlim_exp (f : R -> R) x l :
  derivable_pt_lim f x l -> derivable_pt_lim (fun t => exp (f t)) x (exp (f x) * l).
Proof.
  intros Hf. apply (derivable_pt_lim_comp f exp x l (exp (f x)) Hf).
  apply derivable_pt_lim_exp.
Qed.

Lemma dlim_ln (f : R -> R) x l :
  0 < f x ->
  derivable_pt_lim f x l -> derivable_pt_lim (fun t => ln (f t)) x (/ f x * l).
Proof.
  intros Hpos Hf. apply (derivable_pt_lim_comp f ln x l (/ f x) Hf).
  by apply derivable_pt_lim_ln.
Qed.

Lemma ln_quot a b : 0 < a -> 0 < b -> ln (a / b) = ln a - ln b.
Proof.
  intros Ha Hb. unfold Rdiv.
  rewrite ln_mult by (try apply Rinv_0_lt_compat; assumption).
  rewrite ln_Rinv by assumption. lra.
Qed.

(** The sum that keeps one term. *)
Lemma rsum_pick n j (f : nat -> R) :
  (j < n)%nat -> rsum n (fun c => if (c =? j)%nat then f c else 0) = f j.
Proof.
  induction n as [|n IH]; intros Hj; [lia|]. cbn [rsum].
  destruct (decide (j = n)) as [->|Hne].
  - rewrite Nat.eqb_refl. rewrite rsum_zero; [lra|].
    intros c Hc. destruct (Nat.eqb_spec c n); [lia|reflexivity].
  - rewrite IH by lia. destruct (Nat.eqb_spec n j); [lia|lra].
Qed.

(** The cross-entropy of a softmax along a differentiable path of score
    vectors: its derivative is the sum over the classes of the derivative of
    the score times (probability - indicator of the label). *)
Lemma dlim_nll C (F : nat -> R -> R) (d : nat -> R) lab x :
  (lab < C)%nat ->
  (forall c, (c < C)%nat -> derivable_pt_lim (F c) x (d c)) ->
  derivable_pt_lim
    (fun t => - ln (exp (F lab t) / rsum C (fun c => exp (F c t)))) x
    (rsum C (fun c =>
       d c * (exp (F c x) / rsum C (fun c' => exp (F c' x))
              - (if (c =? lab)%nat then 1 else 0)))).
Proof.
  intros Hlab HF.
  assert (HZ : forall t, 0 < rsum C (fun c => exp (F c t))).
  { intros t. apply rsum_pos; [lia|]. intros c _. apply exp_pos. }
  apply (dlim_ext (fun t => - F lab t * 1 + ln (rsum C (fun c => exp (F c t))))).
  { intros t. rewrite ln_quot by (apply exp_pos || apply HZ).
    rewrite ln_exp. lra. }
  eapply dlim_val;
    [|apply dlim_plus;
      [apply (dlim_scale (fun t => - F lab t) 1);
       apply (derivable_pt_lim_opp (F lab) x (d lab)); by apply HF
      |apply (dlim_ln (fun t => rsum C (fun c => exp (F c t))));
       [apply HZ
       |apply (dlim_rsum C (fun c t => exp (F c t)) (fun c => exp (F c x) * d c));
        intros c Hc; apply dlim_exp; by apply HF]]].
  cbn beta.
  rewrite (rsum_ext C
             (fun c => d c * (exp (F c x) / rsum C (fun c' => exp (F c' x))
                              - (if (c =? lab)%nat then 1 else 0)))
             (fun c => exp (F c x) * d c * / rsum C (fun c' => exp (F c' x))
                       + (if (c =? lab)%nat then d c else 0) * -1)).
  2:{ intros c Hc. destruct (c =? lab)%nat; unfold Rdiv; lra. }
  rewrite rsum_plus, !rsum_scale, rsum_pick by exact Hlab.
  lra.
Qed.

(** The mean over a batch. *)
Lemma dlim_mean N (g : nat -> R -> R) (l : nat -> R) x :
  (forall i, (i < N)%nat -> derivable_pt_lim (g i) x (l i)) ->
  derivable_pt_lim (fun t => rsum N (fun i => g i t) / INR N) x
    (rsum N (fun i => l i / INR N)).
Proof.
  intros Hg. unfold Rdiv. rewrite rsum_scale.
  apply (dlim_scale (fun t => rsum N (fun i => g i t))).
  by apply dlim_rsum.
Qed.

(** The data loss along a path of networks with the same batch size, number
    of classes and labels, whose scores are differentiable. *)
Lemma dlim_data_loss (q : R -> net) N C y x (d : nat -> nat -> R) :
  (forall t, nN (q t) = N) -> (forall t, nC (q t) = C) ->
  (forall i, (i < N)%nat -> (col_of C (y !!! i) < C)%nat) ->
  (forall i c, (i < N)%nat -> (c < C)%nat ->
     derivable_pt_lim (fun t => spec_scores (q t) i c) x (d i c)) ->
  derivable_pt_lim (fun t => spec_data_loss (q t) y) x
    (rsum N (fun i => rsum C (fun c => d i c * spec_dscores (q x) y i c))).
Proof.
  intros HN HC Hlab Hd.
  apply (dlim_ext
           (fun t => rsum N (fun i =>
              - ln (exp (spec_scores (q t) i (col_of C (y !!! i)))
                    / rsum C (fun c => exp (spec_scores (q t) i c)))) / INR N)).
  { intros t. unfold spec_data_loss, spec_probs, label. by rewrite HN, HC. }
  eapply dlim_val;
    [|apply (dlim_mean N
               (fun i t => - ln (exp (spec_scores (q t) i (col_of C (y !!! i)))
                                 / rsum C (fun c => exp (spec_scores (q t) i c)))));
      intros i Hi;
      apply (dlim_nll C (fun c t => spec_scores (q t) i c) (d i));
      [by apply Hlab | intros c Hc; by apply Hd]].
  cbn beta. apply rsum_ext. intros i Hi.
  unfold Rdiv at 1. rewrite <- rsum_scale. apply rsum_ext. intros c Hc.
  unfold spec_dscores, spec_probs, label. rewrite HN, HC.
  rewrite (Nat.eqb_sym c). unfold Rdiv. lra.
Qed.

Lemma indexable_cols p y i :
  indexable p y -> (i < nN p)%nat -> (col_of (nC p) (y !!! i) < nC p)%nat.
Proof. intros Hy Hi. exact (label_lt p y i Hy Hi). Qed.

(** Two networks with the same sizes and the same scores have the same
    dScores. *)
Lemma spec_dscores_same q p y i c :
  nN q = nN p -> nC q = nC p ->
  (forall c', spec_scores q i c' = spec_scores p i c') ->
  spec_dscores q y i c = spec_dscores p y i c.
Proof.
  intros HN HC Hs. unfold spec_dscores, spec_probs, label.
  rewrite HN, HC, Hs. do 3 f_equal. apply rsum_ext. intros c' _. by rewrite Hs.
Qed.

Lemma bump1_0 f j c : bump1 f j 0 c = f c.
Proof. unfold bump1. destruct (c =? j)%nat; lra. Qed.

Lemma bump2_0 f k j a c : bump2 f k j 0 a c = f a c.
Proof. unfold bump2. destruct ((a =? k) && (c =? j))%nat; lra. Qed.

Lemma spec_scores_layer2_0 p k j j' i c :
  spec_scores (with_layer2 p (bump2 (nW2 p) k j 0) (bump1 (nb2 p) j' 0)) i c
  = spec_scores p i c.
Proof.
  unfold spec_scores. cbn [with_layer2 nH nW2 nb2]. rewrite bump1_0. f_equal.
  apply rsum_ext. intros a _. by rewrite bump2_0.
Qed.

Lemma pick_times j c a x :
  (if (c =? j)%nat then a else 0) * x = if (c =? j)%nat then a * x else 0.
Proof. destruct (c =? j)%nat; lra. Qed.

Lemma dlim_scores_b2 p j i c :
  derivable_pt_lim
    (fun t => spec_scores (with_layer2 p (nW2 p) (bump1 (nb2 p) j t)) i c) 0
    (if (c =? j)%nat then 1 else 0).
Proof.
  unfold spec_scores, bump1. cbn [with_layer2 nH nW2 nb2].
  destruct (c =? j)%nat.
  - apply (dlim_ext (fun t =>
             (rsum (nH p) (fun k => spec_hidden p i k * nW2 p k c) + nb2 p c) + t));
      [intros; unfold spec_hidden, spec_pre; cbn; lra|].
    apply dlim_shift.
  - apply (dlim_ext (fun _ =>
             rsum (nH p) (fun k => spec_hidden p i k * nW2 p k c) + nb2 p c));
      [intros; reflexivity|].
    apply dlim_const.
Qed.

(** X14: the entry j of the gradient returned for b2 is the derivative of
    the loss with respect to b2[j]: the loss of the network with b2[j] + t
    in place of b2[j], which is what the call returns on any store holding
    that network, is differentiable in t at 0 with that derivative. *)
Theorem b2_gradient_is_derivative s X model p y reg j :
  consistent s X model p ->
  indexable p y ->
  (0 < nN p)%nat ->
  (j < nC p)%nat ->
  let moved t := with_layer2 p (nW2 p) (bump1 (nb2 p) j t) in
  exists loss g s' dg lb2 fb2,
    two_layer_net X model (Some y) reg s = (Ok (RLossGrads loss g), s') /\
    dict_at s' g = Some dg /\ dg !! "b2" = Some lb2 /\
    arr_at s' lb2 = Some (Vec (nC p) fb2) /\
    (forall t s2 X2 model2,
       consistent s2 X2 model2 (moved t) ->
       exists g2 s2',
         two_layer_net X2 model2 (Some y) reg s2
         = (Ok (RLossGrads (spec_loss (moved t) y reg) g2), s2')) /\
    spec_loss (moved 0) y reg = loss /\
    derivable_pt_lim (fun t => spec_loss (moved t) y reg) 0 (fb2 j).
Proof.
  intros Hc Hy HN Hj moved.
  destruct (wp_result _ _ _ (two_layer_net_train s X model p Hc y Hy reg))
    as (r & s' & Hrun & -> & _ & _ & Hd & _ & _ & _ & _ & _ & _ & Hb2).
  destruct Hb2 as (fb2 & Ab2 & Eb2).
  assert (Hsame : forall i c, spec_scores (moved 0) i c = spec_scores p i c).
  { intros i c. unfold moved.
    rewrite <- (spec_scores_layer2_0 p 0 0 j i c). unfold spec_scores.
    cbn [with_layer2 nH nW2 nb2]. f_equal. apply rsum_ext. intros a _.
    by rewrite bump2_0. }
  do 6 eexists. split; [exact Hrun|]. split; [exact Hd|].
  split; [reflexivity|]. split; [exact Ab2|]. split; [|split].
  - intros t s2 X2 model2 Hc2.
    destruct (wp_result _ _ _
                (two_layer_net_train s2 X2 model2 (moved t) Hc2 y Hy reg))
      as (r2 & s2' & Hrun2 & -> & _).
    eauto.
  - unfold spec_loss. f_equal. unfold spec_data_loss.
    cbn [moved with_layer2 nN]. f_equal. apply rsum_ext. intros i Hi.
    unfold spec_probs, label. cbn [with_layer2 nC]. rewrite Hsame.
    do 3 f_equal. apply rsum_ext. intros c _. by rewrite Hsame.
  - unfold spec_loss.
    apply (dlim_val _ _ (rsum (nN p) (fun i => rsum (nC p) (fun c =>
              (if (c =? j)%nat then 1 else 0) * spec_dscores (moved 0) y i c)) + 0)).
    { rewrite Eb2 by exact Hj. unfold spec_db2. rewrite Rplus_0_r.
      apply rsum_ext. intros i Hi.
      rewrite (rsum_ext (nC p) _
                 (fun c => if (c =? j)%nat then spec_dscores (moved 0) y i c else 0))
        by (intros c _; rewrite pick_times; destruct (c =? j)%nat; lra).
      rewrite rsum_pick by exact Hj.
      apply spec_dscores_same; [reflexivity|reflexivity|]. intros c. apply Hsame. }
    apply (dlim_plus (fun t => spec_data_loss (moved t) y)
             (fun t => spec_reg_loss (moved t) reg)).
    + apply (dlim_data_loss moved (nN p) (nC p) y 0); try reflexivity.
      * intros i Hi. by apply indexable_cols.
      * intros i c _ _. apply dlim_scores_b2.
    + apply (dlim_ext (fun _ => spec_reg_loss p reg)); [intros; reflexivity|].
      apply dlim_const.
Qed.

Lemma b2_gradient_is_derivative_witness :
  consistent ex_store2 5%nat 0%nat ex_net2 /\ indexable ex_net2 [2%Z; (-1)%Z] /\
  (0 < nN ex_net2)%nat /\ (1 < nC ex_net2)%nat /\
  exists loss g s' dg lb2 fb2,
    two_layer_net 5%nat 0%nat (Some [2%Z; (-1)%Z]) 0.5 ex_store2
    = (Ok (RLossGrads loss g), s') /\
    dict_at s' g = Some dg /\ dg !! "b2" = Some lb2 /\
    arr_at s' lb2 = Some (Vec (nC ex_net2) fb2) /\
    derivable_pt_lim
      (fun t => spec_loss (with_layer2 ex_net2 (nW2 ex_net2) (bump1 (nb2 ex_net2) 1 t))
                  [2%Z; (-1)%Z] 0.5) 0 (fb2 1%nat).
Proof.
  assert (HN : (0 < nN ex_net2)%nat) by (simpl; lia).
  assert (Hj : (1 < nC ex_net2)%nat) by (simpl; lia).
  split; [exact ex2_consistent|]. split; [exact ex2_indexable|].
  split; [exact HN|]. split; [exact Hj|].
  destruct (b2_gradient_is_derivative ex_store2 5%nat 0%nat ex_net2 [2%Z; (-1)%Z]
              0.5 1%nat ex2_consistent ex2_indexable HN Hj)
    as (loss & g & s' & dg & lb2 & fb2 & Hrun & Hd & Hk & Ha & _ & _ & Hder).
  exists loss, g, s', dg, lb2, fb2. auto.
Defined.

Lemma rsum_pick2 n m k j (g : nat -> nat -> R) :
  (k < n)%nat -> (j < m)%nat ->
  rsum n (fun a => rsum m (fun c =>
    if ((a =? k) && (c =? j))%nat then g a c else 0)) = g k j.
Proof.
  intros Hk Hj.
  rewrite (rsum_ext n _ (fun a => if (a =? k)%nat then g a j else 0)).
  - exact (rsum_pick n k (fun a => g a j) Hk).
  - intros a Ha. destruct (a =? k)%nat; cbn [andb].
    + exact (rsum_pick m j (fun c => g a c) Hj).
    + by apply rsum_zero.
Qed.

Lemma dlim_square f : derivable_pt_lim (fun t => (f + t) * (f + t)) 0 (2 * f).
Proof.
  apply (dlim_val _ _ (1 * (f + 0) + (f + 0) * 1)); [lra|].
  apply (derivable_pt_lim_mult (fun t => f + t) (fun t => f + t)); apply dlim_shift.
Qed.

Lemma dlim_sumsq_bump n m f k j :
  (k < n)%nat -> (j < m)%nat ->
  derivable_pt_lim (fun t => sumsq n m (bump2 f k j t)) 0 (2 * f k j).
Proof.
  intros Hk Hj. unfold sumsq.
  rewrite <- (rsum_pick2 n m k j (fun a c => 2 * f a c) Hk Hj).
  apply (dlim_rsum n (fun a t => rsum m (fun c => bump2 f k j t a c * bump2 f k j t a c))).
  intros a Ha.
  apply (dlim_rsum m (fun c t => bump2 f k j t a c * bump2 f k j t a c)).
  intros c Hc. unfold bump2.
  destruct ((a =? k) && (c =? j))%nat; [apply dlim_square|apply dlim_const].
Qed.

Lemma dlim_scores_W2 p k j i c :
  (k < nH p)%nat ->
  derivable_pt_lim
    (fun t => spec_scores (with_layer2 p (bump2 (nW2 p) k j t) (nb2 p)) i c) 0
    (if (c =? j)%nat then spec_hidden p i k else 0).
Proof.
  intros Hk. unfold spec_scores. cbn [with_layer2 nH nW2 nb2].
  apply (dlim_val _ _
           (rsum (nH p) (fun a => if ((a =? k) && (c =? j))%nat
                                  then spec_hidden p i a else 0) + 0)).
  { rewrite Rplus_0_r. destruct (c =? j)%nat.
    - rewrite (rsum_ext (nH p) _ (fun a => if (a =? k)%nat then spec_hidden p i a else 0))
        by (intros a _; by rewrite andb_true_r).
      exact (rsum_pick (nH p) k (fun a => spec_hidden p i a) Hk).
    - apply rsum_zero. intros a _. by rewrite andb_false_r. }
  apply (dlim_plus
           (fun t => rsum (nH p) (fun a =>
              spec_hidden (with_layer2 p (bump2 (nW2 p) k j t) (nb2 p)) i a
              * bump2 (nW2 p) k j t a c))
           (fun _ => nb2 p c)); [|apply dlim_const].
  apply (dlim_rsum (nH p)
           (fun a t => spec_hidden (with_layer2 p (bump2 (nW2 p) k j t) (nb2 p)) i a
                       * bump2 (nW2 p) k j t a c)).
  intros a Ha. unfold bump2.
  destruct ((a =? k) && (c =? j))%nat.
  - apply (dlim_ext (fun t => (spec_hidden p i a * nW2 p a c) + t * spec_hidden p i a)).
    { intros t. unfold spec_hidden, spec_pre. cbn. lra. }
    apply (dlim_val _ _ (0 + 1 * spec_hidden p i a)); [lra|].
    apply dlim_plus; [apply dlim_const|].
    apply (dlim_scale (fun t => t)). apply (derivable_pt_lim_id 0).
  - apply (dlim_ext (fun _ => spec_hidden p i a * nW2 p a c));
      [intros; reflexivity|apply dlim_const].
Qed.

(** X15: the entry (k, j) of the gradient returned for W2 is the derivative
    of the loss, regularization included, with respect to W2[k, j]. *)
Theorem W2_gradient_is_derivative s X model p y reg k j :
  consistent s X model p ->
  indexable p y ->
  (0 < nN p)%nat ->
  (k < nH p)%nat -> (j < nC p)%nat ->
  let moved t := with_layer2 p (bump2 (nW2 p) k j t) (nb2 p) in
  exists loss g s' dg lW2 fW2,
    two_layer_net X model (Some y) reg s = (Ok (RLossGrads loss g), s') /\
    dict_at s' g = Some dg /\ dg !! "W2" = Some lW2 /\
    arr_at s' lW2 = Some (Mat (nH p) (nC p) fW2) /\
    (forall t s2 X2 model2,
       consistent s2 X2 model2 (moved t) ->
       exists g2 s2',
         two_layer_net X2 model2 (Some y) reg s2
         = (Ok (RLossGrads (spec_loss (moved t) y reg) g2), s2')) /\
    spec_loss (moved 0) y reg = loss /\
    derivable_pt_lim (fun t => spec_loss (moved t) y reg) 0 (fW2 k j).
Proof.
  intros Hc Hy HN Hk Hj moved.
  destruct (wp_result _ _ _ (two_layer_net_train s X model p Hc y Hy reg))
    as (r & s' & Hrun & -> & _ & _ & Hd & _ & _ & _ & _ & _ & HW2 & _).
  destruct HW2 as (fW2 & AW2 & EW2).
  assert (Hsame : forall i c, spec_scores (moved 0) i c = spec_scores p i c).
  { intros i c. unfold moved.
    rewrite <- (spec_scores_layer2_0 p k j 0 i c). unfold spec_scores.
    cbn [with_layer2 nH nW2 nb2]. by rewrite bump1_0. }
  assert (Hsq : sumsq (nH p) (nC p) (bump2 (nW2 p) k j 0) = sumsq (nH p) (nC p) (nW2 p)).
  { unfold sumsq. apply rsum_ext. intros a _. apply rsum_ext. intros c _.
    by rewrite bump2_0. }
  do 6 eexists. split; [exact Hrun|]. split; [exact Hd|].
  split; [reflexivity|]. split; [exact AW2|]. split; [|split].
  - intros t s2 X2 model2 Hc2.
    destruct (wp_result _ _ _
                (two_layer_net_train s2 X2 model2 (moved t) Hc2 y Hy reg))
      as (r2 & s2' & Hrun2 & -> & _).
    eauto.
  - unfold spec_loss. f_equal.
    + unfold spec_data_loss. cbn [moved with_layer2 nN]. f_equal.
      apply rsum_ext. intros i Hi.
      unfold spec_probs, label. cbn [with_layer2 nC]. rewrite Hsame.
      do 3 f_equal. apply rsum_ext. intros c _. by rewrite Hsame.
    + unfold spec_reg_loss. cbn [moved with_layer2 nD nH nC nW1 nW2].
      by rewrite Hsq.
  - unfold spec_loss.
    apply (dlim_val _ _
             (rsum (nN p) (fun i => rsum (nC p) (fun c =>
                (if (c =? j)%nat then spec_hidden p i k else 0)
                * spec_dscores (moved 0) y i c))
              + (0 + (0.5 * reg) * (2 * nW2 p k j)))).
    { rewrite EW2 by assumption. unfold spec_dW2, spec_dW2_data.
      f_equal; [|lra]. apply rsum_ext. intros i Hi.
      rewrite (rsum_ext (nC p) _
                 (fun c => if (c =? j)%nat
                           then spec_hidden p i k * spec_dscores (moved 0) y i c
                           else 0))
        by (intros c _; by rewrite pick_times).
      rewrite rsum_pick by exact Hj. f_equal.
      apply spec_dscores_same; [reflexivity|reflexivity|]. intros c. apply Hsame. }
    apply (dlim_plus (fun t => spec_data_loss (moved t) y)
             (fun t => spec_reg_loss (moved t) reg)).
    + apply (dlim_data_loss moved (nN p) (nC p) y 0); try reflexivity.
      * intros i Hi. by apply indexable_cols.
      * intros i c _ _. by apply dlim_scores_W2.
    + unfold spec_reg_loss. cbn [moved with_layer2 nD nH nC nW1 nW2].
      apply (dlim_plus (fun _ => 0.5 * reg * sumsq (nD p) (nH p) (nW1 p))
               (fun t => 0.5 * reg * sumsq (nH p) (nC p) (bump2 (nW2 p) k j t)));
        [apply dlim_const|].
      apply (derivable_pt_lim_scal
               (fun t => sumsq (nH p) (nC p) (bump2 (nW2 p) k j t)) (0.5 * reg)).
      by apply dlim_sumsq_bump.
Qed.

Lemma W2_gradient_is_derivative_witness :
  consistent ex_store2 5%nat 0%nat ex_net2 /\ indexable ex_net2 [2%Z; (-1)%Z] /\
  (0 < nN ex_net2)%nat /\ (0 < nH ex_net2)%nat /\ (1 < nC ex_net2)%nat /\
  exists loss g s' dg lW2 fW2,
    two_layer_net 5%nat 0%nat (Some [2%Z; (-1)%Z]) 0.5 ex_store2
    = (Ok (RLossGrads loss g), s') /\
    dict_at s' g = Some dg /\ dg !! "W2" = Some lW2 /\
    arr_at s' lW2 = Some (Mat (nH ex_net2) (nC ex_net2) fW2) /\
    derivable_pt_lim
      (fun t => spec_loss (with_layer2 ex_net2 (bump2 (nW2 ex_net2) 0 1 t) (nb2 ex_net2))
                  [2%Z; (-1)%Z] 0.5) 0 (fW2 0%nat 1%nat).
Proof.
  assert (HN : (0 < nN ex_net2)%nat) by (simpl; lia).
  assert (Hk : (0 < nH ex_net2)%nat) by (simpl; lia).
  assert (Hj : (1 < nC ex_net2)%nat) by (simpl; lia).
  split; [exact ex2_consistent|]. split; [exact ex2_indexable|].
  split; [exact HN|]. split; [exact Hk|]. split; [exact Hj|].
  destruct (W2_gradient_is_derivative ex_store2 5%nat 0%nat ex_net2 [2%Z; (-1)%Z]
              0.5 0%nat 1%nat ex2_consistent ex2_indexable HN Hk Hj)
    as (loss & g & s' & dg & lW2 & fW2 & Hrun & Hd & Hkey & Ha & _ & _ & Hder).
  exists loss, g, s', dg, lW2, fW2. auto.
Defined.

(** *** The first layer, away from the kink of the ReLU *)

Lemma dlim_local (f g : R -> R) x l (delta : R) :
  0 < delta ->
  (forall t, Rabs (t - x) < delta -> f t = g t) ->
  derivable_pt_lim f x l -> derivable_pt_lim g x l.
Proof.
  intros Hdelta Hfg Hf eps Heps. destruct (Hf eps Heps) as [d Hd].
  assert (Hmin : 0 < Rmin d delta) by (apply Rmin_pos; [apply cond_pos|exact Hdelta]).
  exists (mkposreal _ Hmin). intros h Hh Hlt. cbn in Hlt.
  rewrite <- (Hfg (x + h)), <- (Hfg x).
  - apply Hd; [exact Hh|]. eapply Rlt_le_trans; [exact Hlt|apply Rmin_l].
  - replace (x - x) with 0 by lra. by rewrite Rabs_R0.
  - replace (x + h - x) with h by lra.
    eapply Rlt_le_trans; [exact Hlt|apply Rmin_r].
Qed.

Lemma small_product a b t :
  0 < a -> Rabs t < a / (Rabs b + 1) -> Rabs (b * t) < a.
Proof.
  intros Ha Ht. pose proof (Rabs_pos b) as Hb. pose proof (Rabs_pos t) as Hp.
  rewrite Rabs_mult.
  assert (Hq : Rabs t * (Rabs b + 1) < a).
  { apply (Rmult_lt_reg_r (/ (Rabs b + 1))).
    - apply Rinv_0_lt_compat. lra.
    - rewrite Rmult_assoc, Rinv_r by lra. unfold Rdiv in Ht. lra. }
  nra.
Qed.

(** The ReLU of a + b*t, for a other than 0, is differentiable at t = 0. *)
Lemma dlim_relu a b :
  a <> 0 ->
  derivable_pt_lim (fun t => Rmax 0 (a + b * t)) 0 (if Rle_dec a 0 then 0 else b).
Proof.
  intros Ha. destruct (Rle_dec a 0) as [Hle|Hgt].
  - assert (Hneg : 0 < - a) by lra.
    apply (dlim_local (fun _ => 0) _ 0 0 (- a / (Rabs b + 1))).
    + apply Rdiv_lt_0_compat; [lra|]. pose proof (Rabs_pos b). lra.
    + intros t Ht. rewrite Rminus_0_r in Ht.
      pose proof (small_product _ b t Hneg Ht) as Hs.
      apply Rabs_def2 in Hs. rewrite Rmax_left by lra. reflexivity.
    + apply dlim_const.
  - assert (Hpos : 0 < a) by lra.
    apply (dlim_local (fun t => a + t * b) _ 0 b (a / (Rabs b + 1))).
    + apply Rdiv_lt_0_compat; [lra|]. pose proof (Rabs_pos b). lra.
    + intros t Ht. rewrite Rminus_0_r in Ht.
      pose proof (small_product _ b t Hpos Ht) as Hs.
      apply Rabs_def2 in Hs. rewrite Rmax_right by lra. lra.
    + apply (dlim_val _ _ (0 + 1 * b)); [lra|].
      apply dlim_plus; [apply dlim_const|].
      apply (dlim_scale (fun t => t)). apply (derivable_pt_lim_id 0).
Qed.

Lemma dlim_hidden_path H (pre W : nat -> R) k b K :
  (k < H)%nat -> pre k <> 0 ->
  derivable_pt_lim
    (fun t => rsum H (fun a =>
       Rmax 0 (pre a + (if (a =? k)%nat then b * t else 0)) * W a) + K) 0
    ((if Rle_dec (pre k) 0 then 0 else b) * W k).
Proof.
  intros Hk Hpre.
  apply (dlim_val _ _
           (rsum H (fun a => if (a =? k)%nat
                             then (if Rle_dec (pre a) 0 then 0 else b) * W a
                             else 0) + 0)).
  { rewrite Rplus_0_r.
    exact (rsum_pick H k (fun a => (if Rle_dec (pre a) 0 then 0 else b) * W a) Hk). }
  apply (dlim_plus
           (fun t => rsum H (fun a =>
              Rmax 0 (pre a + (if (a =? k)%nat then b * t else 0)) * W a))
           (fun _ => K)); [|apply dlim_const].
  apply (dlim_rsum H
           (fun a t => Rmax 0 (pre a + (if (a =? k)%nat then b * t else 0)) * W a)).
  intros a Ha. destruct (Nat.eqb_spec a k) as [->|Hne].
  - apply (dlim_scale (fun t => Rmax 0 (pre k + b * t))). by apply dlim_relu.
  - apply dlim_const.
Qed.

(** The data loss of the network whose pre-activations of unit k are moved
    by b[i]*t, the other units and the second layer as they are. *)
Lemma dlim_data_loss_layer1 p y k (b : nat -> R)
    (W1' : R -> nat -> nat -> R) (b1' : R -> nat -> R) :
  indexable p y ->
  (k < nH p)%nat ->
  (forall i, (i < nN p)%nat -> spec_pre p i k <> 0) ->
  (forall t i a,
     spec_pre (with_layer1 p (W1' t) (b1' t)) i a
     = spec_pre p i a + (if (a =? k)%nat then b i * t else 0)) ->
  derivable_pt_lim (fun t => spec_data_loss (with_layer1 p (W1' t) (b1' t)) y) 0
    (rsum (nN p) (fun i => b i * spec_dhidden p y i k)) /\
  spec_data_loss (with_layer1 p (W1' 0) (b1' 0)) y = spec_data_loss p y.
Proof.
  intros Hy Hk Hpre Hmove.
  assert (Hform : forall t i c,
            spec_scores (with_layer1 p (W1' t) (b1' t)) i c
            = rsum (nH p) (fun a =>
                Rmax 0 (spec_pre p i a + (if (a =? k)%nat then b i * t else 0))
                * nW2 p a c) + nb2 p c).
  { intros t i c. unfold spec_scores, spec_hidden. cbn [with_layer1 nH nW2 nb2].
    f_equal. apply rsum_ext. intros a _. by rewrite Hmove. }
  assert (Hsame : forall i c,
            spec_scores (with_layer1 p (W1' 0) (b1' 0)) i c = spec_scores p i c).
  { intros i c. rewrite Hform. unfold spec_scores, spec_hidden. f_equal.
    apply rsum_ext. intros a _. do 2 f_equal. destruct (a =? k)%nat; lra. }
  split.
  - eapply dlim_val;
      [|apply (dlim_data_loss (fun t => with_layer1 p (W1' t) (b1' t))
                 (nN p) (nC p) y 0
                 (fun i c => (if Rle_dec (spec_pre p i k) 0 then 0 else b i)
                             * nW2 p k c));
        [reflexivity | reflexivity
        | intros i Hi; by apply indexable_cols
        | intros i c Hi Hc;
          apply (dlim_ext _ _ _ _ (fun t => eq_sym (Hform t i c)));
          apply (dlim_hidden_path (nH p) (fun a => spec_pre p i a)
                   (fun a => nW2 p a c) k (b i) (nb2 p c) Hk (Hpre i Hi))]].
    cbn beta. apply rsum_ext. intros i Hi.
    rewrite (rsum_ext (nC p) _
               (fun c => (if Rle_dec (spec_pre p i k) 0 then 0 else b i)
                         * nW2 p k c * spec_dscores p y i c)).
    2:{ intros c Hc. f_equal.
        apply spec_dscores_same; [reflexivity|reflexivity|]. intros c'. apply Hsame. }
    unfold spec_dhidden, spec_hidden.
    destruct (Rle_dec (spec_pre p i k) 0) as [Hle|Hgt];
      destruct (Rle_dec (Rmax 0 (spec_pre p i k)) 0) as [Hle'|Hgt'].
    + rewrite rsum_zero; [lra|]. intros; lra.
    + exfalso. apply Hgt'. by apply relu_gate.
    + exfalso. apply Hgt. by apply relu_gate.
    + rewrite (Rmult_comm (b i)), <- rsum_scale.
      apply rsum_ext. intros c Hc. lra.
  - unfold spec_data_loss. cbn [with_layer1 nN]. f_equal.
    apply rsum_ext. intros i Hi.
    unfold spec_probs, label. cbn [with_layer1 nC]. rewrite Hsame.
    do 3 f_equal. apply rsum_ext. intros c _. by rewrite Hsame.
Qed.

Lemma spec_pre_bump_b1 p k t i a :
  spec_pre (with_layer1 p (nW1 p) (bump1 (nb1 p) k t)) i a
  = spec_pre p i a + (if (a =? k)%nat then 1 * t else 0).
Proof.
  unfold spec_pre, bump1. cbn [with_layer1 nD nX nW1 nb1].
  destruct (a =? k)%nat; lra.
Qed.

Lemma spec_pre_bump_W1 p d0 k t i a :
  (d0 < nD p)%nat ->
  spec_pre (with_layer1 p (bump2 (nW1 p) d0 k t) (nb1 p)) i a
  = spec_pre p i a + (if (a =? k)%nat then nX p i d0 * t else 0).
Proof.
  intros Hd. unfold spec_pre, bump2. cbn [with_layer1 nD nX nW1 nb1].
  rewrite (rsum_ext (nD p) _
             (fun d => nX p i d * nW1 p d a
                       + (if (d =? d0)%nat
                          then (if (a =? k)%nat then nX p i d * t else 0) else 0))).
  2:{ intros d _. destruct (d =? d0)%nat, (a =? k)%nat; cbn [andb]; lra. }
  rewrite rsum_plus.
  rewrite (rsum_pick (nD p) d0
             (fun d => if (a =? k)%nat then nX p i d * t else 0) Hd).
  lra.
Qed.

(** X16: for a hidden unit k whose pre-activation is not exactly 0 on any
    sample, the entry k of the gradient returned for b1 is the derivative of
    the loss with respect to b1[k]. *)
Theorem b1_gradient_is_derivative s X model p y reg k :
  consistent s X model p ->
  indexable p y ->
  (0 < nN p)%nat ->
  (k < nH p)%nat ->
  (forall i, (i < nN p)%nat -> spec_pre p i k <> 0) ->
  let moved t := with_layer1 p (nW1 p) (bump1 (nb1 p) k t) in
  exists loss g s' dg lb1 fb1,
    two_layer_net X model (Some y) reg s = (Ok (RLossGrads loss g), s') /\
    dict_at s' g = Some dg /\ dg !! "b1" = Some lb1 /\
    arr_at s' lb1 = Some (Vec (nH p) fb1) /\
    (forall t s2 X2 model2,
       consistent s2 X2 model2 (moved t) ->
       exists g2 s2',
         two_layer_net X2 model2 (Some y) reg s2
         = (Ok (RLossGrads (spec_loss (moved t) y reg) g2), s2')) /\
    spec_loss (moved 0) y reg = loss /\
    derivable_pt_lim (fun t => spec_loss (moved t) y reg) 0 (fb1 k).
Proof.
  intros Hc Hy HN Hk Hpre moved.
  destruct (wp_result _ _ _ (two_layer_net_train s X model p Hc y Hy reg))
    as (r & s' & Hrun & -> & _ & _ & Hd & _ & _ & _ & _ & Hb1 & _).
  destruct Hb1 as (fb1 & Ab1 & Eb1).
  destruct (dlim_data_loss_layer1 p y k (fun _ => 1)
              (fun _ => nW1 p) (fun t => bump1 (nb1 p) k t) Hy Hk Hpre
              (spec_pre_bump_b1 p k)) as [Hder H0].
  do 6 eexists. split; [exact Hrun|]. split; [exact Hd|].
  split; [reflexivity|]. split; [exact Ab1|]. split; [|split].
  - intros t s2 X2 model2 Hc2.
    destruct (wp_result _ _ _
                (two_layer_net_train s2 X2 model2 (moved t) Hc2 y Hy reg))
      as (r2 & s2' & Hrun2 & -> & _).
    eauto.
  - unfold spec_loss. f_equal. exact H0.
  - unfold spec_loss.
    apply (dlim_val _ _ (rsum (nN p) (fun i => 1 * spec_dhidden p y i k) + 0)).
    { rewrite Eb1 by exact Hk. unfold spec_db1. rewrite Rplus_0_r.
      apply rsum_ext. intros; lra. }
    apply (dlim_plus (fun t => spec_data_loss (moved t) y)
             (fun t => spec_reg_loss (moved t) reg)); [exact Hder|].
    apply (dlim_ext (fun _ => spec_reg_loss p reg)); [intros; reflexivity|].
    apply dlim_const.
Qed.

Lemma ex2_pre_nonzero k i :
  (k < nH ex_net2)%nat -> (i < nN ex_net2)%nat -> spec_pre ex_net2 i k <> 0.
Proof.
  intros Hk Hi. unfold spec_pre. simpl. pose proof (pos_INR i).
  destruct k as [|[|]]; simpl; lra.
Qed.

Lemma b1_gradient_is_derivative_witness :
  consistent ex_store2 5%nat 0%nat ex_net2 /\ indexable ex_net2 [2%Z; (-1)%Z] /\
  (0 < nN ex_net2)%nat /\ (0 < nH ex_net2)%nat /\
  (forall i, (i < nN ex_net2)%nat -> spec_pre ex_net2 i 0 <> 0) /\
  exists loss g s' dg lb1 fb1,
    two_layer_net 5%nat 0%nat (Some [2%Z; (-1)%Z]) 0.5 ex_store2
    = (Ok (RLossGrads loss g), s') /\
    dict_at s' g = Some dg /\ dg !! "b1" = Some lb1 /\
    arr_at s' lb1 = Some (Vec (nH ex_net2) fb1) /\
    derivable_pt_lim
      (fun t => spec_loss (with_layer1 ex_net2 (nW1 ex_net2) (bump1 (nb1 ex_net2) 0 t))
                  [2%Z; (-1)%Z] 0.5) 0 (fb1 0%nat).
Proof.
  assert (HN : (0 < nN ex_net2)%nat) by (simpl; lia).
  assert (Hk : (0 < nH ex_net2)%nat) by (simpl; lia).
  split; [exact ex2_consistent|]. split; [exact ex2_indexable|].
  split; [exact HN|]. split; [exact Hk|]. split; [exact (fun i => ex2_pre_nonzero 0 i Hk)|].
  destruct (b1_gradient_is_derivative ex_store2 5%nat 0%nat ex_net2 [2%Z; (-1)%Z]
              0.5 0%nat ex2_consistent ex2_indexable HN Hk (fun i => ex2_pre_nonzero 0 i Hk))
    as (loss & g & s' & dg & lb1 & fb1 & Hrun & Hd & Hkey & Ha & _ & _ & Hder).
  exists loss, g, s', dg, lb1, fb1. auto.
Defined.

(** X17: for a hidden unit k whose pre-activation is not exactly 0 on any
    sample, the entry (d, k) of the gradient returned for W1 is the
    derivative of the loss, regularization included, with respect to
    W1[d, k]. *)
Theorem W1_gradient_is_derivative s X model p y reg d0 k :
  consistent s X model p ->
  indexable p y ->
  (0 < nN p)%nat ->
  (d0 < nD p)%nat -> (k < nH p)%nat ->
  (forall i, (i < nN p)%nat -> spec_pre p i k <> 0) ->
  let moved t := with_layer1 p (bump2 (nW1 p) d0 k t) (nb1 p) in
  exists loss g s' dg lW1 fW1,
    two_layer_net X model (Some y) reg s = (Ok (RLossGrads loss g), s') /\
    dict_at s' g = Some dg /\ dg !! "W1" = Some lW1 /\
    arr_at s' lW1 = Some (Mat (nD p) (nH p) fW1) /\
    (forall t s2 X2 model2,
       consistent s2 X2 model2 (moved t) ->
       exists g2 s2',
         two_layer_net X2 model2 (Some y) reg s2
         = (Ok (RLossGrads (spec_loss (moved t) y reg) g2), s2')) /\
    spec_loss (moved 0) y reg = loss /\
    derivable_pt_lim (fun t => spec_loss (moved t) y reg) 0 (fW1 d0 k).
Proof.
  intros Hc Hy HN Hd0 Hk Hpre moved.
  destruct (wp_result _ _ _ (two_layer_net_train s X model p Hc y Hy reg))
    as (r & s' & Hrun & -> & _ & _ & Hd & _ & _ & _ & HW1 & _).
  destruct HW1 as (fW1 & AW1 & EW1).
  destruct (dlim_data_loss_layer1 p y k (fun i => nX p i d0)
              (fun t => bump2 (nW1 p) d0 k t) (fun _ => nb1 p) Hy Hk Hpre
              (fun t i a => spec_pre_bump_W1 p d0 k t i a Hd0)) as [Hder H0].
  assert (Hsq : sumsq (nD p) (nH p) (bump2 (nW1 p) d0 k 0) = sumsq (nD p) (nH p) (nW1 p)).
  { unfold sumsq. apply rsum_ext. intros a _. apply rsum_ext. intros c _.
    by rewrite bump2_0. }
  do 6 eexists. split; [exact Hrun|]. split; [exact Hd|].
  split; [reflexivity|]. split; [exact AW1|]. split; [|split].
  - intros t s2 X2 model2 Hc2.
    destruct (wp_result _ _ _
                (two_layer_net_train s2 X2 model2 (moved t) Hc2 y Hy reg))
      as (r2 & s2' & Hrun2 & -> & _).
    eauto.
  - unfold spec_loss. f_equal; [exact H0|].
    unfold spec_reg_loss. cbn [moved with_layer1 nD nH nC nW1 nW2]. by rewrite Hsq.
  - unfold spec_loss.
    apply (dlim_val _ _ (rsum (nN p) (fun i => nX p i d0 * spec_dhidden p y i k)
                         + ((0.5 * reg) * (2 * nW1 p d0 k) + 0))).
    { rewrite EW1 by assumption. unfold spec_dW1, spec_dW1_data. lra. }
    apply (dlim_plus (fun t => spec_data_loss (moved t) y)
             (fun t => spec_reg_loss (moved t) reg)); [exact Hder|].
    unfold spec_reg_loss. cbn [moved with_layer1 nD nH nC nW1 nW2].
    apply (dlim_plus
             (fun t => 0.5 * reg * sumsq (nD p) (nH p) (bump2 (nW1 p) d0 k t))
             (fun _ => 0.5 * reg * sumsq (nH p) (nC p) (nW2 p)));
      [|apply dlim_const].
    apply (derivable_pt_lim_scal
             (fun t => sumsq (nD p) (nH p) (bump2 (nW1 p) d0 k t)) (0.5 * reg)).
    by apply dlim_sumsq_bump.
Qed.

Lemma W1_gradient_is_derivative_witness :
  consistent ex_store2 5%nat 0%nat ex_net2 /\ indexable ex_net2 [2%Z; (-1)%Z] /\
  (0 < nN ex_net2)%nat /\ (0 < nD ex_net2)%nat /\ (1 < nH ex_net2)%nat /\
  (forall i, (i < nN ex_net2)%nat -> spec_pre ex_net2 i 1 <> 0) /\
  exists loss g s' dg lW1 fW1,
    two_layer_net 5%nat 0%nat (Some [2%Z; (-1)%Z]) 0.5 ex_store2
    = (Ok (RLossGrads loss g), s') /\
    dict_at s' g = Some dg /\ dg !! "W1" = Some lW1 /\
    arr_at s' lW1 = Some (Mat (nD ex_net2) (nH ex_net2) fW1) /\
    derivable_pt_lim
      (fun t => spec_loss (with_layer1 ex_net2 (bump2 (nW1 ex_net2) 0 1 t) (nb1 ex_net2))
                  [2%Z; (-1)%Z] 0.5) 0 (fW1 0%nat 1%nat).
Proof.
  assert (HN : (0 < nN ex_net2)%nat) by (simpl; lia).
  assert (Hd0 : (0 < nD ex_net2)%nat) by (simpl; lia).
  assert (Hk : (1 < nH ex_net2)%nat) by (simpl; lia).
  split; [exact ex2_consistent|]. split; [exact ex2_indexable|].
  split; [exact HN|]. split; [exact Hd0|]. split; [exact Hk|].
  split; [exact (fun i => ex2_pre_nonzero 1 i Hk)|].
  destruct (W1_gradient_is_derivative ex_store2 5%nat 0%nat ex_net2 [2%Z; (-1)%Z]
              0.5 0%nat 1%nat ex2_consistent ex2_indexable HN Hd0 Hk
              (fun i => ex2_pre_nonzero 1 i Hk))
    as (loss & g & s' & dg & lW1 & fW1 & Hrun & Hd & Hkey & Ha & _ & _ & Hder).
  exists loss, g, s', dg, lW1, fW1. auto.
Defined.

(** ** Biases of length 1 *)

Lemma broadcast2_mat_vec1 op n m fa fb :
  broadcast2 op (Mat n m fa) (Vec 1 fb) =
  Some (Mat n m (fun i j => op (fa (bidx n i) (bidx m j)) (fb O))).
Proof. unfold broadcast2. simpl. by rewrite !bdim_1_r. Qed.

(** X18: biases of length 1 are accepted whatever H and C are: numpy
    broadcasts them, so b1[0] is added to every hidden unit and b2[0] to
    every class score. *)
Theorem scalar_biases_broadcast s X model lW1 lb1 lW2 lb2 N D H C
    fX fW1 fb1 fW2 fb2 reg :
  has_params s model lW1 lb1 lW2 lb2 ->
  arr_at s X = Some (Mat N D fX) ->
  arr_at s lW1 = Some (Mat D H fW1) ->
  arr_at s lb1 = Some (Vec 1 fb1) ->
  arr_at s lW2 = Some (Mat H C fW2) ->
  arr_at s lb2 = Some (Vec 1 fb2) ->
  exists l s',
    two_layer_net X model None reg s = (Ok (RScores l), s') /\
    mat_at s' l N C
      (fun i j =>
         rsum H (fun k =>
           Rmax 0 (rsum D (fun d => fX i d * fW1 d k) + fb1 O) * fW2 k j)
         + fb2 O).
Proof.
  intros (d & Hd & H1 & H2 & H3 & H4) HX HW1 Hb1 HW2 Hb2.
  apply dict_at_heap in Hd. apply arr_at_heap in HX, HW1, Hb1, HW2, Hb2.
  enough (Hw : wp (two_layer_net X model None reg)
                 (fun r s' =>
                    r = Ok (RScores (length (heap s) + 4)%nat) /\
                    mat_at s' (length (heap s) + 4) N C
                      (fun i j =>
                         rsum H (fun k =>
                           Rmax 0 (rsum D (fun d => fX i d * fW1 d k) + fb1 O)
                           * fW2 k j) + fb2 O)) s).
  { apply wp_result in Hw. destruct Hw as (r & s' & Hrun & -> & Hm). eauto. }
  destruct s as [h0 t0]. cbn [heap] in *.
  apply wp_start. unfold two_layer_net. wp_exec.
  eapply wp_np_binop; [solve_lookup|solve_lookup|apply broadcast2_mat_vec1|].
  wp_exec.
  eapply wp_np_binop; [solve_lookup|solve_lookup|apply broadcast2_mat_vec1|].
  wp_exec.
  split; [reflexivity|].
  find_obj. eexists; split; [reflexivity|].
  intros i j Hi Hj. rewrite HF3, !bidx_lt by lia. rewrite HF2. unfold matmul.
  f_equal. apply rsum_ext. intros k Hk.
  rewrite HF1, HF0, !bidx_lt by lia. rewrite HF. reflexivity.
Qed.

Lemma scalar_biases_broadcast_witness :
  has_params ex_store3 0 1 2 3 2 /\
  arr_at ex_store3 4 = Some (Mat 2 1 (nX ex_net2)) /\
  arr_at ex_store3 1 = Some (Mat 1 2 (nW1 ex_net2)) /\
  arr_at ex_store3 2 = Some (Vec 1 (fun _ => 1)) /\
  arr_at ex_store3 3 = Some (Mat 2 3 (nW2 ex_net2)) /\
  exists l s',
    two_layer_net 4%nat 0%nat None 0 ex_store3 = (Ok (RScores l), s') /\
    mat_at s' l 2 3
      (fun i j =>
         rsum 2 (fun k =>
           Rmax 0 (rsum 1 (fun d => nX ex_net2 i d * nW1 ex_net2 d k) + 1)
           * nW2 ex_net2 k j)
         + 1).
Proof.
  assert (Hp : has_params ex_store3 0 1 2 3 2)
    by (eexists; repeat split; reflexivity).
  repeat (split; [first [exact Hp | reflexivity]|]).
  exact (scalar_biases_broadcast ex_store3 4%nat 0%nat 1%nat 2%nat 3%nat 2%nat
           _ _ _ _ _ _ _ _ _ 0 Hp eq_refl eq_refl eq_refl eq_refl eq_refl).
Defined.
